(** * A shallow embedding of the esa RAG pipeline

    The development follows [esa_connector.py] (text normalizer, chunker,
    cache store, index builder) and [main_fastapi.py] (retriever, answer
    synthesizer).  Python [str] values are sequences of Unicode code points,
    dictionaries are ordered association lists of JSON-like values, and every
    call that leaves the process (HTTP, file system, embedding and generation
    models, clock) is answered by an explicit environment. *)

From Stdlib Require Import ZArith NArith QArith Ascii String List Bool Lia.
From stdpp Require Import base option list strings gmap.

Local Open Scope Z_scope.

(** ** Python strings *)

Module Str.

(** A Python [str]: a sequence of code points. *)
Definition char := N.
Definition str := list char.

(** Decoding of a UTF-8 source literal into its code points, so that the
    literals of the Python files can be written down verbatim. *)
Definition cont (b : N) : N := N.land b 63.

Fixpoint utf8 (fuel : nat) (bs : list N) : str :=
  match fuel with
  | O => []
  | S fuel' =>
    match bs with
    | [] => []
    | b0 :: r0 =>
      if (b0 <? 128)%N then b0 :: utf8 fuel' r0
      else if (b0 <? 224)%N then
        match r0 with
        | b1 :: r1 => (N.shiftl (N.land b0 31) 6 + cont b1)%N :: utf8 fuel' r1
        | _ => []
        end
      else if (b0 <? 240)%N then
        match r0 with
        | b1 :: b2 :: r2 =>
          (N.shiftl (N.land b0 15) 12 + N.shiftl (cont b1) 6 + cont b2)%N
            :: utf8 fuel' r2
        | _ => []
        end
      else
        match r0 with
        | b1 :: b2 :: b3 :: r3 =>
          (N.shiftl (N.land b0 7) 18 + N.shiftl (cont b1) 12
           + N.shiftl (cont b2) 6 + cont b3)%N :: utf8 fuel' r3
        | _ => []
        end
    end
  end.

Definition bytes_of (s : string) : list N :=
  map N_of_ascii (list_ascii_of_string s).

Definition u (s : string) : str :=
  let bs := bytes_of s in utf8 (length bs) bs.

(** [Py_UNICODE_ISSPACE]: the predicate behind [str.strip()], [str.isspace()]
    and the [\s] class of [re] on [str] patterns. *)
Definition isspace (c : char) : bool :=
  ((9 <=? c) && (c <=? 13) || (28 <=? c) && (c <=? 32)
   || (c =? 133) || (c =? 160) || (c =? 5760)
   || (8192 <=? c) && (c <=? 8202)
   || (c =? 8232) || (c =? 8233) || (c =? 8239) || (c =? 8287)
   || (c =? 12288))%N.

(** [s.lstrip()], [s.rstrip()] and [s.strip()] without argument. *)
Fixpoint lstrip (s : str) : str :=
  match s with
  | c :: s' => if isspace c then lstrip s' else s
  | [] => []
  end.

Definition rstrip (s : str) : str := rev (lstrip (rev s)).

Definition strip (s : str) : str := rstrip (lstrip s).

(** [s.startswith(p)]. *)
Fixpoint startswith (s p : str) : bool :=
  match p, s with
  | [], _ => true
  | _ :: _, [] => false
  | a :: p', b :: s' => (a =? b)%N && startswith s' p'
  end.

(** [s.rfind(sub)]: the highest index at which [sub] starts, or [-1].  The
    scan keeps the last index seen so far in [acc]. *)
Fixpoint rfind_from (s sub : str) (i acc : Z) : Z :=
  match s with
  | [] => if startswith [] sub then i else acc
  | _ :: s' => rfind_from s' sub (i + 1) (if startswith s sub then i else acc)
  end.

Definition rfind (s sub : str) : Z := rfind_from s sub 0 (-1).

(** [sep.join(parts)]. *)
Fixpoint join (sep : str) (parts : list str) : str :=
  match parts with
  | [] => []
  | [p] => p
  | p :: rest => p ++ sep ++ join sep rest
  end.

(** [s[i:]] for [0 <= i]. *)
Definition slice_from (s : str) (i : Z) : str := drop (Z.to_nat i) s.

(** The code points that UTF-8 has no encoding for, the surrogates U+D800 to
    U+DFFF: [s.encode("utf-8")] raises [UnicodeEncodeError] when [s] holds
    one, and so does everything that writes [s] out as UTF-8. *)
Definition surrogate (c : char) : bool := ((55296 <=? c) && (c <=? 57343))%N.

Definition encodable (s : str) : bool := forallb (fun c => negb (surrogate c)) s.

End Str.

Import Str.

(** ** Exceptions *)

(** The classes of exception that the modelled code can meet. *)
Inductive exn :=
  | ValueError | KeyError | TypeError | AttributeError | IndexError
  | OSError | JSONDecodeError | RuntimeError | AssertionError
  | RequestException | UnicodeEncodeError.

Inductive result (A : Type) :=
  | Ok (a : A)
  | Raise (e : exn).
Arguments Ok {A} a.
Arguments Raise {A} e.

#[global] Instance result_ret : MRet result := fun A a => Ok a.

#[global] Instance result_bind : MBind result := fun A B f r =>
  match r with
  | Ok a => f a
  | Raise e => Raise e
  end.

(** ** Built-in sequence operations *)

Module Seq.

(** [len(range(start, stop, step))] as CPython computes it. *)
Definition range_len (start stop step : Z) : Z :=
  if 0 <? step then
    if start <? stop then (stop - start - 1) / step + 1 else 0
  else
    if stop <? start then (start - stop - 1) / (- step) + 1 else 0.

(** [range(start, stop, step)]; a zero step raises [ValueError]. *)
Definition range (start stop step : Z) : result (list Z) :=
  if step =? 0 then Raise ValueError
  else Ok (map (fun k => start + Z.of_nat k * step)
               (seq 0 (Z.to_nat (range_len start stop step)))).

(** Clamping of one slice bound against the length. *)
Definition clamp (len i : Z) : Z :=
  if i <? 0 then Z.max 0 (i + len) else Z.min i len.

(** [s[i:j]]. *)
Definition slice {A} (s : list A) (i j : Z) : list A :=
  let len := Z.of_nat (length s) in
  let a := clamp len i in
  let b := clamp len j in
  take (Z.to_nat (b - a)) (drop (Z.to_nat a) s).

End Seq.

(** ** Regular expressions

    The fragment of [re] that [clean_markdown] uses: single characters and
    classes, counted repetition of a class (greedy or lazy), the anchor [^],
    sequence and alternation, matched by priority-ordered backtracking. *)

Module Re.

Inductive re :=
  | Chr (c : char -> bool)
  | Rep (c : char -> bool) (lo : nat) (hi : option nat) (greedy : bool)
  | Bol
  | Cat (a b : re)
  | Alt (a b : re).

Definition below (n : nat) (hi : option nat) : bool :=
  match hi with
  | Some h => (n <? h)%nat
  | None => true
  end.

Definition orelse {A} (a : option A) (b : unit -> option A) : option A :=
  match a with
  | Some r => Some r
  | None => b tt
  end.

(** The continuation receives the character before the current position and
    the rest of the subject. *)
Definition cont := option char -> str -> option str.

(** Repetition of a class, having matched [n] characters so far. *)
Fixpoint rep (c : char -> bool) (lo : nat) (hi : option nat) (greedy : bool)
    (n : nat) (prev : option char) (s : str) (k : cont) : option str :=
  let stop := fun _ : unit => if (lo <=? n)%nat then k prev s else None in
  let more := fun _ : unit =>
    match s with
    | x :: s' =>
      if c x && below n hi then rep c lo hi greedy (S n) (Some x) s' k
      else None
    | [] => None
    end in
  if greedy then orelse (more tt) stop else orelse (stop tt) more.

(** [^]: the start of the subject, and with [re.MULTILINE] also the position
    after each newline. *)
Definition at_bol (multiline : bool) (prev : option char) : bool :=
  match prev with
  | None => true
  | Some p => multiline && (p =? 10)%N
  end.

Fixpoint bt (multiline : bool) (r : re) (prev : option char) (s : str)
    (k : cont) : option str :=
  match r with
  | Chr c =>
    match s with
    | x :: s' => if c x then k (Some x) s' else None
    | [] => None
    end
  | Rep c lo hi greedy => rep c lo hi greedy 0 prev s k
  | Bol => if at_bol multiline prev then k prev s else None
  | Cat a b => bt multiline a prev s (fun p' s' => bt multiline b p' s' k)
  | Alt a b => orelse (bt multiline a prev s k) (fun _ => bt multiline b prev s k)
  end.

(** A match attempt at the current position: the rest of the subject after
    the match. *)
Definition exec (multiline : bool) (r : re) (prev : option char) (s : str)
    : option str :=
  bt multiline r prev s (fun _ rest => Some rest).

(** The scan of [re.sub]: leftmost non-overlapping matches are replaced by
    [repl], everything else is copied.  [skip] counts the characters of the
    current match that are still to be passed over.  (After an empty match
    the next character is copied; no pattern below matches the empty
    string.) *)
Fixpoint scan (multiline : bool) (r : re) (repl : str) (skip : nat)
    (prev : option char) (s : str) : str :=
  match s with
  | [] =>
    match skip with
    | O => match exec multiline r prev [] with Some _ => repl | None => [] end
    | S _ => []
    end
  | x :: s' =>
    match skip with
    | S skip' => scan multiline r repl skip' (Some x) s'
    | O =>
      match exec multiline r prev s with
      | Some rest =>
        match (length s - length rest)%nat with
        | O => repl ++ x :: scan multiline r repl 0 (Some x) s'
        | S n => repl ++ scan multiline r repl n (Some x) s'
        end
      | None => x :: scan multiline r repl 0 (Some x) s'
      end
    end
  end.

(** [re.sub(pattern, repl, s)]. *)
Definition sub (multiline : bool) (r : re) (repl : str) (s : str) : str :=
  scan multiline r repl 0 None s.

Definition only (a : ascii) : char -> bool := fun c => (c =? N_of_ascii a)%N.
Definition lit (a : ascii) : re := Chr (only a).
Definition dot : char -> bool := fun c => negb (c =? 10)%N.

End Re.

(** ** esa_connector.py: text utilities *)

Import Re.

(** [#{1,6}\s?] *)
Definition re_heading : re :=
  Cat (Rep (only "#") 1 (Some 6%nat) true) (Rep isspace 0 (Some 1%nat) true).

(** [\[.*?\]\(.*?\)] *)
Definition re_link : re :=
  Cat (lit "[") (Cat (Rep dot 0 None false) (Cat (lit "]")
  (Cat (lit "(") (Cat (Rep dot 0 None false) (lit ")"))))).

(** [(\*\*|__|~~|\*|_|`)] *)
Definition re_emphasis : re :=
  Alt (Cat (lit "*") (lit "*")) (Alt (Cat (lit "_") (lit "_"))
  (Alt (Cat (lit "~") (lit "~")) (Alt (lit "*") (Alt (lit "_") (lit "`"))))).

(** [^\s*[-*+]\s] *)
Definition re_bullet : re :=
  Cat Bol (Cat (Rep isspace 0 None true)
  (Cat (Chr (fun c => only "-" c || only "*" c || only "+" c)) (Chr isspace))).

(** [\n{2,}] *)
Definition re_newlines : re := Rep (fun c => (c =? 10)%N) 2 None true.

Definition clean_markdown (markdown_text : str) : str :=
  let text := sub false re_heading [] markdown_text in
  let text := sub false re_link [] text in
  let text := sub false re_emphasis [] text in
  let text := sub true re_bullet [] text in
  let text := sub false re_newlines [10%N] text in
  strip text.

Definition simple_text_splitter (text : str) (chunk_size : Z)
    : result (list str) :=
  match text with
  | [] => Ok []
  | _ :: _ =>
    r ← Seq.range 0 (Z.of_nat (length text)) chunk_size;
    Ok (map (fun i => Seq.slice text i (i + chunk_size)) r)
  end.

(** ** Python values

    The values that travel through JSON documents and dictionaries
    (floating-point numbers are left out: no code under study looks at
    one). *)

#[local] Set Warnings "-register-all".

Inductive pyval :=
  | PNone
  | PBool (b : bool)
  | PInt (z : Z)
  | PStr (s : str)
  | PList (l : list pyval)
  | PDict (d : list (str * pyval)).

Module Py.

Definition str_eqb (a b : str) : bool := bool_decide (a = b).

Fixpoint assoc (key : str) (d : list (str * pyval)) : option pyval :=
  match d with
  | [] => None
  | (k, v) :: d' => if str_eqb k key then Some v else assoc key d'
  end.

(** [v[key]] for a string key. *)
Definition getitem (v : pyval) (key : str) : result pyval :=
  match v with
  | PDict d =>
    match assoc key d with
    | Some x => Ok x
    | None => Raise KeyError
    end
  | _ => Raise TypeError
  end.

(** [v.get(key, default)]. *)
Definition get (v : pyval) (key : str) (default : pyval) : result pyval :=
  match v with
  | PDict d =>
    match assoc key d with
    | Some x => Ok x
    | None => Ok default
    end
  | _ => Raise AttributeError
  end.

(** Truth value, as tested by [if not v]. *)
Definition truthy (v : pyval) : bool :=
  match v with
  | PNone => false
  | PBool b => b
  | PInt z => negb (z =? 0)
  | PStr s => match s with [] => false | _ => true end
  | PList l => match l with [] => false | _ => true end
  | PDict d => match d with [] => false | _ => true end
  end.

(** [len(v)]. *)
Definition len (v : pyval) : result Z :=
  match v with
  | PStr s => Ok (Z.of_nat (length s))
  | PList l => Ok (Z.of_nat (length l))
  | PDict d => Ok (Z.of_nat (length d))
  | _ => Raise TypeError
  end.

(** The items that [for x in v] goes through. *)
Definition iter (v : pyval) : result (list pyval) :=
  match v with
  | PList l => Ok l
  | PDict d => Ok (map (fun kv => PStr (fst kv)) d)
  | PStr s => Ok (map (fun c => PStr [c]) s)
  | _ => Raise TypeError
  end.

Definition is_none (v : pyval) : bool :=
  match v with
  | PNone => true
  | _ => false
  end.

(** Every string of [v], keys included, can be encoded in UTF-8: what
    [json.dump(v, f, ensure_ascii=False)] needs of [v] when [f] is a UTF-8
    text file. *)
Fixpoint dumpable (v : pyval) : bool :=
  match v with
  | PStr s => encodable s
  | PList l => forallb dumpable l
  | PDict d => forallb (fun kv => match kv with
                                  | (k, x) => encodable k && dumpable x
                                  end) d
  | _ => true
  end.

End Py.

(** ** The environment of a run *)

(** A GET request of the fetch loop, by endpoint: the listing of one page
    ([/posts] with [per_page=100], [page], [include]) or the detail of one
    post ([/posts/{number}]). *)
Inductive request :=
  | ListPosts (page : Z)
  | PostDetail (number : pyval).

(** What the remote side does with a request: no answer (transport error), or
    a response with a status code and, when the body parses as JSON, its
    value. *)
Inductive reply :=
  | NoAnswer
  | Response (status_code : Z) (json : option pyval).

Inductive message :=
  | MsgCacheValid | MsgCacheLoadError (e : exn)
  | MsgFatalApi | MsgStatus (code : Z) | MsgApiError
  | MsgPage (page n : Z)
  | MsgRequestError (e : exn) | MsgUnexpected (e : exn)
  | MsgNoDocuments | MsgSaved | MsgDone (n : Z).

Inductive event :=
  | Print (m : message)
  | Get (r : request)
  | Encode (texts : list str)
  | Generate (prompt : str)
  | WriteFile (path : string).

(** A computation over a state [S] that may raise; the state reached when an
    exception is raised is kept, as in-place updates are in Python. *)
Definition M (S A : Type) := S -> result A * S.

#[global] Instance M_ret {S} : MRet (M S) := fun A a s => (Ok a, s).

#[global] Instance M_bind {S} : MBind (M S) := fun A B f m s =>
  match m s with
  | (Ok a, s') => f a s'
  | (Raise e, s') => (Raise e, s')
  end.

Definition of_result {S A} (r : result A) : M S A := fun s => (r, s).

Section Pipeline.

(** Embedding vectors and distances are opaque: nothing below computes with
    their floating-point components. *)
Context {V D : Type}.

(** The result of [embedding_model.encode]: an array of shape
    [(length rows, cols)]. *)
Record ndarray := { rows : list V; cols : Z }.

(** A [faiss.IndexFlatL2]: its dimension and the stored vectors, in
    insertion order. *)
Record index := { d : Z; xb : list V }.

Definition ntotal (ix : index) : Z := Z.of_nat (length (xb ix)).

(** [faiss.IndexFlatL2(dimension)] *)
Definition IndexFlatL2 (dimension : Z) : index := {| d := dimension; xb := [] |}.

(** [index.add(x)]: the rows of [x] are appended; the dimensions must agree. *)
Definition index_add (ix : index) (x : ndarray) : result index :=
  if cols x =? d ix then Ok {| d := d ix; xb := xb ix ++ rows x |}
  else Raise AssertionError.

(** A file: modification time and what a reader finds in it.  Serialization
    is taken as exact: a file that [json.dump] has written in full reads
    back as the same value, one written by [faiss.write_index] as the same
    index; [Garbage] is any content that neither [json.load] nor
    [faiss.read_index] accepts. *)
Inductive content :=
  | JsonText (v : pyval)
  | IndexBytes (ix : index)
  | Garbage.

Record file := { mtime : Q; data : content }.

(** Everything outside the process.  The clock is read once per run; the
    remote side may answer the same request differently over time, so it
    sees how many requests came before; the vector search of the index
    returns, for one query row, [top_k] pairs of a distance and a label. *)
Record env := {
  now : Q;
  http : nat -> request -> reply;
  embed : str -> result V;
  dimension : Z;
  search : index -> list V -> Z -> list (D * Z);
  generator : str -> result str
}.

(** The mutable world: the files and the trace of effects so far. *)
Record world := { fs : gmap string file; trace : list event }.

Variable E : env.

Definition emit (e : event) : M world unit := fun w =>
  (Ok tt, {| fs := fs w; trace := trace w ++ [e] |}).

Definition print (m : message) : M world unit := emit (Print m).

Definition write_file (path : string) (c : content) : M world unit := fun w =>
  (Ok tt, {| fs := <[path := {| mtime := now E; data := c |}]> (fs w);
             trace := trace w ++ [WriteFile path] |}).

(** [embedding_model.encode(texts)] *)
Definition encode (texts : list str) : M world ndarray :=
  emit (Encode texts);;
  vs ← of_result (mapM (embed E) texts);
  mret {| rows := vs; cols := dimension E |}.

(** *** Cache store *)

Definition CACHE_FILE : string := "esa_data_cache.json".
Definition FAISS_INDEX_FILE : string := "esa_faiss_index.bin".
Definition CACHE_EXPIRY_SECONDS : Q := inject_Z (24 * 60 * 60).

(** [os.path.exists(path)] *)
Definition path_exists (w : world) (path : string) : bool :=
  match fs w !! path with
  | Some _ => true
  | None => false
  end.

(** [os.path.getmtime(path)] *)
Definition getmtime (w : world) (path : string) : result Q :=
  match fs w !! path with
  | Some f => Ok (mtime f)
  | None => Raise OSError
  end.

(** [a < b] on time stamps. *)
Definition Qltb (a b : Q) : bool := negb (Qle_bool b a).

Definition check_cache_validity (w : world) : result bool :=
  if negb (path_exists w CACHE_FILE) || negb (path_exists w FAISS_INDEX_FILE)
  then Ok false
  else
    file_mtime ← getmtime w CACHE_FILE;
    let time_since_last_update := (now E - file_mtime)%Q in
    Ok (Qltb time_since_last_update CACHE_EXPIRY_SECONDS).

(** [json.load] of the file at [path]. *)
Definition json_load (path : string) : M world pyval := fun w =>
  match fs w !! path with
  | None => (Raise OSError, w)
  | Some f =>
    match data f with
    | JsonText v => (Ok v, w)
    | _ => (Raise JSONDecodeError, w)
    end
  end.

(** [faiss.read_index(path)] *)
Definition read_index (path : string) : M world index := fun w =>
  match fs w !! path with
  | Some {| data := IndexBytes ix |} => (Ok ix, w)
  | _ => (Raise RuntimeError, w)
  end.

Definition load_from_cache : M world (list (pyval * pyval) * index) :=
  print MsgCacheValid;;
  data ← json_load CACHE_FILE;
  items ← of_result (Py.iter data);
  documents_with_metadata ← of_result (mapM (fun item =>
      chunk ← Py.getitem item (u "chunk");
      metadata ← Py.getitem item (u "metadata");
      Ok (chunk, metadata)) items);
  index ← read_index FAISS_INDEX_FILE;
  mret (documents_with_metadata, index).

(** [json.dump(v, f, ensure_ascii=False, indent=4)] inside
    [with open(path, "w", encoding="utf-8") as f].  The strings are written
    as they are, so one that UTF-8 cannot encode raises
    [UnicodeEncodeError]; the file, truncated when it was opened, is then
    left with the text written before that string, which is not a JSON
    document. *)
Definition json_dump (path : string) (v : pyval) : M world unit :=
  if Py.dumpable v then write_file path (JsonText v)
  else write_file path Garbage;; of_result (Raise UnicodeEncodeError).

Definition save_to_cache (documents_with_metadata : list (pyval * pyval))
    (index : index) : M world unit :=
  let cache_data := map (fun '(chunk, metadata) =>
      PDict [(u "chunk", chunk); (u "metadata", metadata)])
    documents_with_metadata in
  json_dump CACHE_FILE (PList cache_data);;
  write_file FAISS_INDEX_FILE (IndexBytes index);;
  print MsgSaved.

(** *** Corpus fetcher *)

(** The state of the fetch loop: the world and the list [all_documents],
    which is appended to in place. *)
Record loop_state := { lw : world; all_documents : list (str * pyval) }.

Definition lift {A} (m : M world A) : M loop_state A := fun st =>
  let (r, w') := m (lw st) in
  (r, {| lw := w'; all_documents := all_documents st |}).

(** [all_documents.append(x)] *)
Definition append (x : str * pyval) : M loop_state unit := fun st =>
  (Ok tt, {| lw := lw st; all_documents := all_documents st ++ [x] |}).

Fixpoint count_gets (t : list event) : nat :=
  match t with
  | [] => O
  | Get _ :: t' => S (count_gets t')
  | _ :: t' => count_gets t'
  end.

(** [requests.get(...)]: a transport error raises, anything else is a
    response. *)
Definition requests_get (r : request) : M world (Z * option pyval) := fun w =>
  let w' := {| fs := fs w; trace := trace w ++ [Get r] |} in
  match http E (count_gets (trace w)) r with
  | NoAnswer => (Raise RequestException, w')
  | Response status_code json => (Ok (status_code, json), w')
  end.

(** [response.json()]; the decoding error of [requests] is a
    [RequestException]. *)
Definition response_json (response : Z * option pyval) : result pyval :=
  match snd response with
  | Some v => Ok v
  | None => Raise RequestException
  end.

(** [response.raise_for_status()] *)
Definition raise_for_status (response : Z * option pyval) : result unit :=
  let status_code := fst response in
  if (400 <=? status_code) && (status_code <? 600) then Raise RequestException
  else Ok tt.

(** The loop [for chunk in chunks] of one post. *)
Fixpoint for_chunks (post : pyval) (chunks : list str) : M loop_state unit :=
  match chunks with
  | [] => mret tt
  | chunk :: rest =>
    source ← of_result (Py.getitem post (u "url"));
    title ← of_result (Py.getitem post (u "full_name"));
    category ← of_result (Py.get post (u "category") PNone);
    tags ← of_result (Py.get post (u "tags") PNone);
    let metadata := PDict [(u "source", source); (u "title", title);
                           (u "category", category); (u "tags", tags)] in
    append (chunk, metadata);;
    for_chunks post rest
  end.

(** The body of the loop [for post in posts]. *)
Definition fetch_post (post : pyval) : M loop_state unit :=
  post_number ← of_result (Py.getitem post (u "number"));
  detail_response ← lift (requests_get (PostDetail post_number));
  of_result (raise_for_status detail_response);;
  post_detail ← of_result (response_json detail_response);
  body_md ← of_result (Py.get post_detail (u "body_md") (PStr []));
  plain_text ← of_result (match body_md with
                          | PStr s => Ok (clean_markdown s)
                          | _ => Raise TypeError
                          end);
  chunks ← of_result (simple_text_splitter plain_text 500);
  for_chunks post chunks.

Fixpoint for_posts (posts : list pyval) : M loop_state unit :=
  match posts with
  | [] => mret tt
  | post :: rest => fetch_post post;; for_posts rest
  end.

(** The body of [while True], inside the [try]: [true] when the loop goes on
    with the next page, [false] on [break]. *)
Definition fetch_page (page : Z) : M loop_state bool :=
  response ← lift (requests_get (ListPosts page));
  if negb (fst response =? 200) then
    lift (print MsgFatalApi);;
    lift (print (MsgStatus (fst response)));;
    body ← of_result (response_json response);
    of_result (Py.get body (u "error") PNone);;
    lift (print MsgApiError);;
    mret false
  else
    posts_data ← of_result (response_json response);
    posts ← of_result (Py.get posts_data (u "posts") (PList []));
    if negb (Py.truthy posts) then mret false
    else
      n ← of_result (Py.len posts);
      lift (print (MsgPage page n));;
      items ← of_result (Py.iter posts);
      for_posts items;;
      next_page ← of_result (Py.get posts_data (u "next_page") PNone);
      if Py.is_none next_page then mret false else mret true.

Definition is_request_exception (e : exn) : bool :=
  match e with
  | RequestException => true
  | _ => false
  end.

(** The [while True] loop with its two handlers.  [None]: the remote side
    kept announcing further pages for [fuel] rounds. *)
Fixpoint fetch_loop (fuel : nat) (page : Z) (st : loop_state)
    : option loop_state :=
  match fuel with
  | O => None
  | S fuel' =>
    match fetch_page page st with
    | (Ok true, st') => fetch_loop fuel' (page + 1) st'
    | (Ok false, st') => Some st'
    | (Raise e, st') =>
      let m := if is_request_exception e then MsgRequestError e
               else MsgUnexpected e in
      Some (snd (lift (print m) st'))
    end
  end.

(** *** Index builder *)

Definition dummy_chunk : str := u "esaから情報が取得されていません。".

(** Step 3 and 4 of [fetch_esa_documents]: from the fetched list to the
    returned pair. *)
Definition build_index (all_documents : list (str * pyval))
    : M world (list (pyval * pyval) * index) :=
  match all_documents with
  | [] =>
    print MsgNoDocuments;;
    dummy_embedding ← encode [dummy_chunk];
    let dimension := cols dummy_embedding in
    let dummy_index := IndexFlatL2 dimension in
    dummy_index ← of_result (index_add dummy_index dummy_embedding);
    mret ([(PStr dummy_chunk, PDict [(u "source", PStr (u "No Data"))])],
          dummy_index)
  | _ :: _ =>
    let documents := map fst all_documents in
    doc_embeddings ← encode documents;
    let dimension := cols doc_embeddings in
    let index := IndexFlatL2 dimension in
    index ← of_result (index_add index doc_embeddings);
    let pairs := map (fun d => (PStr (fst d), snd d)) all_documents in
    save_to_cache pairs index;;
    print (MsgDone (Z.of_nat (length all_documents)));;
    mret (pairs, index)
  end.

(** Step 2 to 4: the remote fetch and the rebuild. *)
Definition fetch_and_rebuild (fuel : nat) (w : world)
    : option (result (list (pyval * pyval) * index) * world) :=
  match fetch_loop fuel 1 {| lw := w; all_documents := [] |} with
  | None => None
  | Some st => Some (build_index (all_documents st) (lw st))
  end.

Definition fetch_esa_documents (fuel : nat) (w : world)
    : option (result (list (pyval * pyval) * index) * world) :=
  match check_cache_validity w with
  | Raise e => Some (Raise e, w)
  | Ok true =>
    match load_from_cache w with
    | (Ok r, w') => Some (Ok r, w')
    | (Raise e, w') =>
      fetch_and_rebuild fuel (snd (print (MsgCacheLoadError e) w'))
    end
  | Ok false => fetch_and_rebuild fuel w
  end.

(** ** main_fastapi.py *)

(** The module-level state built at start-up. *)
Record rag := {
  documents : list pyval;
  metadatas : list pyval;
  rag_index : index
}.

(** [documents = [d[0] for d in ...]], [metadatas = [d[1] for d in ...]] *)
Definition init_rag (r : list (pyval * pyval) * index) : rag :=
  {| documents := map fst (fst r);
     metadatas := map snd (fst r);
     rag_index := snd r |}.

Record retrieved := { context : pyval; source : pyval; distance : D }.

(** [xs[i]] for [0 <= i]. *)
Definition list_getitem {A} (xs : list A) (i : Z) : result A :=
  match xs !! Z.to_nat i with
  | Some x => Ok x
  | None => Raise IndexError
  end.

Fixpoint retrieve_rows (g : rag) (hits : list (D * Z))
    : result (list retrieved) :=
  match hits with
  | [] => Ok []
  | (dist, i) :: rest =>
    if 0 <=? i then
      ctx ← list_getitem (documents g) i;
      md ← list_getitem (metadatas g) i;
      src ← Py.getitem md (u "source");
      results ← retrieve_rows g rest;
      Ok ({| context := ctx; source := src; distance := dist |} :: results)
    else retrieve_rows g rest
  end.

Definition retrieve (g : rag) (query : str) (top_k : Z)
    : M world (list retrieved) :=
  query_embedding ← encode [query];
  let hits := search E (rag_index g) (rows query_embedding) top_k in
  of_result (retrieve_rows g hits).

Definition END_MARKER : str := u "[/INST]".

(** The extraction at the end of [generate_answer]. *)
Definition extract_answer (generated_text : str) : str :=
  let answer_start := rfind generated_text END_MARKER in
  if negb (answer_start =? -1) then
    strip (slice_from generated_text
             (answer_start + Z.of_nat (length END_MARKER)))
  else generated_text.

Definition NOT_FOUND : str :=
  u "esa wikiから関連情報を見つけられませんでした。".

Definition is_dummy (v : pyval) : bool :=
  match v with
  | PStr s => Py.str_eqb s dummy_chunk
  | _ => false
  end.

Definition build_prompt (contexts question : str) : str :=
  u "
[INST]
以下はesa wikiからの参考情報です。この情報のみを使用して、次の質問に簡潔に日本語で答えてください。情報が不足している場合は、「情報が見つかりません。」と答えてください。
参考情報:
" ++ contexts ++ u "

質問: " ++ question ++ u "
[/INST]

回答:".

Definition context_text (doc : retrieved) : result str :=
  match context doc with
  | PStr s => Ok s
  | _ => Raise TypeError
  end.

Definition call_generator (prompt : str) : M world str :=
  emit (Generate prompt);;
  of_result (generator E prompt).

Definition generate_answer (question : str) (relevant_docs : list retrieved)
    : M world str :=
  if match relevant_docs with
     | [] => true
     | doc :: _ => is_dummy (context doc)
     end
  then mret NOT_FOUND
  else
    parts ← of_result (mapM context_text relevant_docs);
    let contexts := join (u "
---
") parts in
    let prompt := build_prompt contexts question in
    generated_text ← call_generator prompt;
    mret (extract_answer generated_text).

End Pipeline.

(** ** database.py

    The SQLite file as its two tables, each absent until created, with the
    rows in insertion order. *)

Module Db.

(** The exceptions that a call of [sqlite3] ends with here: two of its own,
    and the [UnicodeEncodeError] of a [str] parameter that cannot be encoded
    in UTF-8. *)
Inductive error := OperationalError | IntegrityError | UnicodeEncodeError.

Inductive outcome (A : Type) :=
  | Done (a : A)
  | Fails (e : error).
Arguments Done {A} a.
Arguments Fails {A} e.

Record user_row := { user_id : Z; username : str; password : str }.

Record log_row := {
  log_id : Z;
  timestamp : Q;
  log_user_id : str;
  log_question : str;
  log_answer : str;
  log_sources : pyval
}.

Record db := {
  users : option (list user_row);
  logs : option (list log_row)
}.

(** The largest rowid, [2^63 - 1]. *)
Definition MAX_ROWID : Z := 9223372036854775807.

(** The rowid that SQLite settles on, by trying candidates at random, for a
    table whose largest rowid is [MAX_ROWID], given the ids in use.  (SQLite
    gives up with [SQLITE_FULL] when 100 candidates in a row, out of [2^62],
    are in use; this is left out.) *)
Definition random := list Z -> Z.

(** The value of an [INTEGER PRIMARY KEY] column that an insert leaves to
    SQLite: 1 in an empty table, one more than the largest in use as long as
    there is such an integer, and an id picked at random otherwise. *)
Definition next_rowid (rnd : random) (ids : list Z) : Z :=
  match ids with
  | [] => 1
  | i :: rest =>
    let largest := fold_left Z.max rest i in
    if largest <? MAX_ROWID then largest + 1 else rnd ids
  end.

(** [CREATE TABLE IF NOT EXISTS] *)
Definition create_table {A} (t : option (list A)) : option (list A) :=
  match t with
  | Some rows => Some rows
  | None => Some []
  end.

(** [INSERT INTO users (username, password) VALUES (?, ?)]: the statement
    is compiled (the table has to exist), the parameters are bound (they
    have to be encodable), and the row is inserted under the [UNIQUE]
    constraint on [username]. *)
Definition insert_user (rnd : random) (name pass : str) (d : db) : outcome db :=
  match users d with
  | None => Fails OperationalError
  | Some rows =>
    if negb (encodable name && encodable pass) then Fails UnicodeEncodeError
    else if existsb (fun r => Py.str_eqb (username r) name) rows
    then Fails IntegrityError
    else Done {| users := Some (rows ++ [{| user_id := next_rowid rnd (map user_id rows);
                                            username := name;
                                            password := pass |}]);
                 logs := logs d |}
  end.

(** [init_db()]: the data base afterwards and the line printed. *)
Definition init_db (rnd : random) (d : db) : outcome (db * list string) :=
  let d := {| users := create_table (users d); logs := logs d |} in
  let d := {| users := users d; logs := create_table (logs d) |} in
  match insert_user rnd (u "testuser") (u "password123") d with
  | Done d' => Done (d', ["Database initialized."%string])
  | Fails IntegrityError => Done (d, ["Database initialized."%string])
  | Fails e => Fails e
  end.

(** [get_user(username, password)] *)
Definition get_user (name pass : str) (d : db) : outcome (option pyval) :=
  match users d with
  | None => Fails OperationalError
  | Some rows =>
    if negb (encodable name && encodable pass) then Fails UnicodeEncodeError
    else
      Done match find (fun r => Py.str_eqb (username r) name
                                && Py.str_eqb (password r) pass) rows with
           | Some user => Some (PDict [(u "id", PInt (user_id user));
                                       (u "username", PStr (username user))])
           | None => None
           end
  end.

(** [log_interaction(user_id, question, answer, sources)], with the reading
    of [datetime.datetime.now()]; [sources] stands for its [json.dumps]
    text, which is ASCII whatever the strings of [sources] are. *)
Definition log_interaction (rnd : random) (now : Q) (uid question answer : str)
    (sources : pyval) (d : db) : outcome db :=
  match logs d with
  | None => Fails OperationalError
  | Some rows =>
    if negb (encodable uid && encodable question && encodable answer)
    then Fails UnicodeEncodeError
    else
      Done {| users := users d;
              logs := Some (rows ++ [{| log_id := next_rowid rnd (map log_id rows);
                                        timestamp := now;
                                        log_user_id := uid;
                                        log_question := question;
                                        log_answer := answer;
                                        log_sources := sources |}]) |}
  end.

End Db.

(** ** main_fastapi.py: the end points *)

(** How a call of an end point ends: a returned value, an [HTTPException],
    or an exception of the data base call that nothing catches. *)
Inductive api (A : Type) :=
  | Returns (a : A)
  | HTTPException (status_code : Z)
  | Propagates (e : Db.error).
Arguments Returns {A} a.
Arguments HTTPException {A} status_code.
Arguments Propagates {A} e.

(** [login(user)] *)
Definition login (name pass : str) (d : Db.db) : api pyval :=
  match Db.get_user name pass d with
  | Db.Fails e => Propagates e
  | Db.Done None => HTTPException 401
  | Db.Done (Some db_user) => Returns db_user
  end.

Record answer := {
  a_question : str;
  a_answer : str;
  a_sources : list pyval
}.

Section Server.

Context {V D : Type}.
Variable E : @env V D.
Variable rnd : Db.random.

(** The server: the world of the pipeline, the data base, and the errors
    that [rag_ask] printed. *)
Record server := {
  sworld : @world V;
  sdb : Db.db;
  printed : list (exn + Db.error)
}.

(** The list [sources] of [rag_ask]. *)
Definition sources_of (relevant_docs : list (@retrieved D)) : list pyval :=
  map (fun doc => PDict [(u "text", context doc); (u "source", source doc)])
      (List.filter (fun doc => negb (is_dummy (context doc))) relevant_docs).

(** [rag_ask(req)], with the reading of the clock that the log row gets. *)
Definition rag_ask (g : @rag V) (question uid : str) (now : Q) (s : server)
    : api answer * server :=
  match retrieve E g question 3 (sworld s) with
  | (Raise e, w) =>
    (HTTPException 500,
     {| sworld := w; sdb := sdb s; printed := printed s ++ [inl e] |})
  | (Ok relevant_docs, w) =>
    match generate_answer E question relevant_docs w with
    | (Raise e, w') =>
      (HTTPException 500,
       {| sworld := w'; sdb := sdb s; printed := printed s ++ [inl e] |})
    | (Ok ans, w') =>
      let sources := sources_of relevant_docs in
      match Db.log_interaction rnd now uid question ans (PList sources) (sdb s) with
      | Db.Fails e =>
        (HTTPException 500,
         {| sworld := w'; sdb := sdb s; printed := printed s ++ [inr e] |})
      | Db.Done d =>
        (Returns {| a_question := question; a_answer := ans;
                    a_sources := sources |},
         {| sworld := w'; sdb := d; printed := printed s |})
      end
    end
  end.

End Server.

(** * Vocabulary of the properties *)

(** Continuations that only ever hand back a suffix no longer than what they
    were given. *)
Definition shrinking (k : Re.cont) : Prop :=
  forall p s rest, k p s = Some rest -> (length rest <= length s)%nat.

Definition emphasis_char (c : char) : bool :=
  only "*" c || only "_" c || only "`" c.

Definition heading_char (c : char) : bool := only "#" c.

(** The marks that survive no call of [clean_markdown]. *)
Definition plain_char (c : char) : Prop :=
  c <> N_of_ascii "*" /\ c <> N_of_ascii "_" /\ c <> N_of_ascii "`".

(** No two newlines in a row. *)
Definition nodbl (s : str) : Prop :=
  forall pre post, s <> pre ++ 10%N :: 10%N :: post.

(** The number of newlines that [s] starts with. *)
Fixpoint lead (s : str) : nat :=
  match s with
  | x :: s' => if (x =? 10)%N then S (lead s') else O
  | [] => O
  end.

(** No newline in [s]. *)
Definition oneline (s : str) : Prop := Forall (fun c => c <> 10%N) s.

(** [m] occurs in [t]. *)
Definition factor (m t : str) : Prop := exists a b, t = a ++ m ++ b.

(** [sub] occurs nowhere in [s]. *)
Definition absent (sub s : str) : Prop :=
  forall pre post, s <> pre ++ sub ++ post.

(** What follows the opening bracket of a link: the text, [](], the address
    and [)], with no newline in the text or in the address. *)
Definition link_from (t : str) : Prop :=
  exists text url post,
    t = text ++ N_of_ascii "]" :: N_of_ascii "(" :: url ++ N_of_ascii ")" :: post
    /\ oneline text /\ oneline url.

(** Link syntax, [[text](address)] within one line, somewhere in [t]; an
    image is an exclamation mark before it. *)
Definition has_link (t : str) : Prop :=
  exists pre rest, t = pre ++ N_of_ascii "[" :: rest /\ link_from rest.

(** The link [[text](address)] as a text. *)
Definition link_text (text url : str) : str :=
  N_of_ascii "[" :: text ++ N_of_ascii "]" :: N_of_ascii "(" :: url
                       ++ [N_of_ascii ")"].

(** What follows [](] in a link, and what follows []]. *)
Definition paren_from (t : str) : Prop :=
  exists url post, t = url ++ N_of_ascii ")" :: post /\ oneline url.

Definition open_from (t : str) : Prop :=
  exists rest, t = N_of_ascii "(" :: rest /\ paren_from rest.

(** The characters of [[-*+]]. *)
Definition bullet_char (c : char) : bool :=
  only "-" c || only "*" c || only "+" c.

(** A list marker in [t]: at the start of the text or right after a newline,
    any whitespace, then one of [-], [*], [+] and one whitespace
    character. *)
Definition has_bullet (t : str) : Prop :=
  exists pre ws c sp post,
    t = pre ++ ws ++ c :: sp :: post
    /\ (pre = [] \/ exists p, pre = p ++ [10%N])
    /\ Forall (fun x => isspace x = true) ws
    /\ bullet_char c = true /\ isspace sp = true.

(** Two tildes in a row, the one emphasis delimiter that is not made of the
    marks of [plain_char]. *)
Definition TILDES : str := [126%N; 126%N].

(** No emphasis delimiter of the third pattern occurs in [t]. *)
Definition emphasis_free (t : str) : Prop :=
  Forall plain_char t /\ absent (u "~~") t.

(** The text that the third substitution of [clean_markdown] receives: the
    input without what the first two remove. *)
Definition before_emphasis (x : str) : str :=
  sub false re_link [] (sub false re_heading [] x).

(** The character before the position reached after [pre], for a scan that
    started after [prev]. *)
Definition prev_after (prev : option char) (pre : str) : option char :=
  match last pre with
  | Some c => Some c
  | None => prev
  end.

(** The least number of characters that a match of [r] takes. *)
Fixpoint minw (r : re) : nat :=
  match r with
  | Chr _ => 1
  | Rep _ lo _ _ => lo
  | Bol => 0
  | Cat a b => minw a + minw b
  | Alt a b => Nat.min (minw a) (minw b)
  end.

(** Continuations that hand back a suffix at least [d] characters shorter
    than what they were given. *)
Definition shrinks_by (d : nat) (k : Re.cont) : Prop :=
  forall p s rest, k p s = Some rest -> (length rest + d <= length s)%nat.

(** [r] is [s] without the whitespace at its two ends. *)
Definition trimmed (s r : str) : Prop :=
  (exists l t, s = l ++ r ++ t
               /\ Forall (fun c => isspace c = true) l
               /\ Forall (fun c => isspace c = true) t)
  /\ (forall c t, r = c :: t -> isspace c = false)
  /\ (forall t c, r = t ++ [c] -> isspace c = false).

(** [sub] occurs in [s] at index [j]. *)
Definition occurs_at (s sub : str) (j : nat) : Prop :=
  (j <= length s)%nat /\ startswith (drop j s) sub = true.

(** The paths written in a trace. *)
Fixpoint writes (t : list event) : list string :=
  match t with
  | [] => []
  | WriteFile path :: t' => path :: writes t'
  | _ :: t' => writes t'
  end.

(** [w'] comes after [w] without any file written. *)
Definition quiet {V} (w w' : @world V) : Prop :=
  fs w' = fs w /\ exists t, trace w' = trace w ++ t /\ writes t = [].

Definition keeps {V A} (m : M (@world V) A) : Prop :=
  forall w, quiet w (snd (m w)).

Definition keepsL {V A} (m : M (@loop_state V) A) : Prop :=
  forall st, quiet (lw st) (lw (snd (m st))).

(** The run gets past the cache step and starts the remote fetch in world
    [w1]: the cache is not valid, or it is and loading it raises. *)
Definition cache_miss {V D} (E : @env V D) (w w1 : @world V) : Prop :=
  (check_cache_validity E w = Ok false /\ w1 = w)
  \/ (check_cache_validity E w = Ok true
      /\ exists e w0, load_from_cache w = (Raise e, w0)
                      /\ w1 = snd (print (MsgCacheLoadError e) w0)).

(** The detail request gets no answer, or an answer with an error status. *)
Definition detail_fails {V D} (E : @env V D) (w : @world V) (number : pyval)
    : bool :=
  match http E (count_gets (trace w)) (PostDetail number) with
  | NoAnswer => true
  | Response status_code _ => (400 <=? status_code) && (status_code <? 600)
  end.

(** Position by position, a chunk text and the embedding of that text. *)
Definition aligned {V D} (E : @env V D) (pairs : list (pyval * pyval))
    (ix : @index V) : Prop :=
  Forall2 (fun p v => exists text, fst p = PStr text /\ embed E text = Ok v)
          pairs (xb ix).

(** The record that [save_to_cache] writes for one pair. *)
Definition cache_record (p : pyval * pyval) : pyval :=
  PDict [(u "chunk", fst p); (u "metadata", snd p)].

(** Every string of the pairs can be encoded in UTF-8. *)
Definition storable (pairs : list (pyval * pyval)) : bool :=
  forallb (fun p => Py.dumpable (fst p) && Py.dumpable (snd p)) pairs.

(** The pair that the builder returns for an empty corpus. *)
Definition sentinel_pair : pyval * pyval :=
  (PStr dummy_chunk, PDict [(u "source", PStr (u "No Data"))]).

(** ** Sample environments *)

Module Sample.

Definition post (number : Z) (title : string) : pyval :=
  PDict [(u "number", PInt number);
         (u "url", PStr (u "https://cs18a.esa.io/posts/" ++ u title));
         (u "full_name", PStr (u title));
         (u "category", PNone);
         (u "tags", PList [])].

Definition listing (posts : list pyval) : reply :=
  Response 200 (Some (PDict [(u "posts", PList posts); (u "next_page", PNone)])).

Definition detail (body_md : string) : reply :=
  Response 200 (Some (PDict [(u "body_md", PStr (u body_md))])).

(** A team with two posts; the detail of the second one fails when
    [second_ok] is off. *)
Definition team (second_ok : bool) (n : nat) (r : request) : reply :=
  match r with
  | ListPosts 1 => listing [post 1 "first"; post 2 "second"]
  | PostDetail (PInt 1) => detail "# One
some *text*"
  | PostDetail (PInt 2) => if second_ok then detail "two" else NoAnswer
  | _ => Response 404 None
  end.

(** A team without posts. *)
Definition empty_team (n : nat) (r : request) : reply := listing [].

Definition env_of (h : nat -> request -> reply) : @env Z Z :=
  {| now := inject_Z 100000;
     http := h;
     embed := fun s => Ok (Z.of_nat (length s));
     dimension := 1;
     search := fun _ _ _ => [];
     generator := fun prompt => Ok prompt |}.

Definition no_files : @world Z := {| fs := ∅; trace := [] |}.

Definition record (chunk : string) : pyval :=
  PDict [(u "chunk", PStr (u chunk));
         (u "metadata", PDict [(u "source", PStr (u "somewhere"))])].

(** Both artifacts present and fresh, with the given contents. *)
Definition cached (json : @content Z) (bin : @content Z) : @world Z :=
  {| fs := <[CACHE_FILE := {| mtime := inject_Z 99000; data := json |}]>
           (<[FAISS_INDEX_FILE := {| mtime := inject_Z 99000; data := bin |}]> ∅);
     trace := [] |}.

End Sample.

(** ** Vocabulary of the further properties *)

(** A chunk as the fetcher makes them: not empty, at most 500 characters,
    and without the marks that [clean_markdown] removes. *)
Definition fetched_text (c : str) : Prop :=
  c <> [] /\ (length c <= 500)%nat
  /\ Forall (fun x => x <> N_of_ascii "#" /\ plain_char x) c.

(** The metadata that the fetcher attaches to the chunks of a post. *)
Definition post_metadata (source title category tags : pyval) : pyval :=
  PDict [(u "source", source); (u "title", title);
         (u "category", category); (u "tags", tags)].

Definition fetched_pair (p : str * pyval) : Prop :=
  fetched_text (fst p)
  /\ exists source title category tags,
       snd p = post_metadata source title category tags.

(** [st'] has the pairs of [st] and, after them, new ones that satisfy
    [P]. *)
Definition appends {V} (P : str * pyval -> Prop) (st st' : @loop_state V)
    : Prop :=
  exists new, all_documents st' = all_documents st ++ new /\ Forall P new.

Definition growsL {V A} (P : str * pyval -> Prop) (m : M (@loop_state V) A)
    : Prop :=
  forall st, appends P st (snd (m st)).

(** The pages of the listing requests in a trace, in order. *)
Fixpoint listed (t : list event) : list Z :=
  match t with
  | [] => []
  | Get (ListPosts page) :: t' => page :: listed t'
  | _ :: t' => listed t'
  end.

(** [w'] comes after [w] without any listing request. *)
Definition unlisted {V} (w w' : @world V) : Prop :=
  exists t, trace w' = trace w ++ t /\ listed t = [].

Definition unlistedL {V A} (m : M (@loop_state V) A) : Prop :=
  forall st, unlisted (lw st) (lw (snd (m st))).

(** What one record of the cache file gives. *)
Definition record_of (item : pyval) (p : pyval * pyval) : Prop :=
  Py.getitem item (u "chunk") = Ok (fst p)
  /\ Py.getitem item (u "metadata") = Ok (snd p).

(** What one result of [retrieve] has to do with the hit it was made for. *)
Definition row_of {V D} (g : @rag V) (h : D * Z) (r : @retrieved D) : Prop :=
  distance r = fst h
  /\ documents g !! Z.to_nat (snd h) = Some (context r)
  /\ exists md, metadatas g !! Z.to_nat (snd h) = Some md
                /\ Py.getitem md (u "source") = Ok (source r).

(** The end of every prompt, after the end marker. *)
Definition ANSWER_LABEL : str := u "

回答:".

(** The pair that the builder returns for an empty corpus, as the server
    holds it. *)
Definition no_data_rag {V} (ix : @index V) : @rag V :=
  init_rag ([(PStr dummy_chunk, PDict [(u "source", PStr (u "No Data"))])], ix).

(** A server side for sample runs: the search returns [hits], and the
    generation model returns the prompt followed by a short answer. *)
Module Demo.

Definition env_of (hits : list (Z * Z)) : @env Z Z :=
  {| now := inject_Z 100000;
     http := Sample.team true;
     embed := fun s => Ok (Z.of_nat (length s));
     dimension := 1;
     search := fun _ _ _ => hits;
     generator := fun prompt => Ok (prompt ++ u " はい。 ") |}.

Definition doc (text : string) : @retrieved Z :=
  {| context := PStr (u text); source := PStr (u "somewhere"); distance := 1 |}.

(** A random choice of rowid: the one after the largest positive one in
    use. *)
Definition rnd : Db.random := fun ids => fold_left Z.max ids 0 + 1.

Definition fresh : @server Z :=
  {| sworld := Sample.no_files;
     sdb := {| Db.users := Some []; Db.logs := Some [] |};
     printed := [] |}.

End Demo.

(** * Properties *)

(** ** Chunker *)

Lemma slice_window {A} (s : list A) (i n : Z) :
  0 <= i -> 0 <= n ->
  Seq.slice s i (i + n) = take (Z.to_nat n) (drop (Z.to_nat i) s).
Proof.
  intros Hi Hn. unfold Seq.slice, Seq.clamp.
  destruct (Z.ltb_spec i 0); [lia|].
  destruct (Z.ltb_spec (i + n) 0); [lia|].
  set (len := Z.of_nat (length s)).
  destruct (Z.le_gt_cases (i + n) len) as [Hfit|Hover].
  { rewrite (Z.min_l (i + n)), (Z.min_l i) by lia. f_equal. lia. }
  rewrite (Z.min_r (i + n)) by lia.
  destruct (Z.le_gt_cases i len) as [Hin|Hout].
  - rewrite (Z.min_l i) by lia.
    rewrite (take_ge _ (Z.to_nat n)) by (rewrite length_drop; lia).
    apply take_ge. rewrite length_drop. lia.
  - rewrite (Z.min_r i) by lia.
    rewrite !drop_ge by lia. by rewrite !take_nil.
Qed.

Lemma concat_windows {A} (s : list A) (n m : nat) :
  concat (map (fun k => take n (drop (k * n) s)) (seq 0 m)) = take (m * n) s.
Proof.
  induction m as [|m IH]; [done|].
  rewrite seq_S, map_app, concat_app, IH. simpl.
  rewrite app_nil_r, take_take_drop. f_equal. lia.
Qed.

Lemma range_windows (len n : Z) :
  0 < n -> 0 < len ->
  Seq.range 0 len n
  = Ok (map (fun k => Z.of_nat k * n)
            (seq 0 (Z.to_nat ((len - 1) / n + 1)))).
Proof.
  intros Hn Hlen. unfold Seq.range, Seq.range_len.
  destruct (Z.eqb_spec n 0); [lia|].
  destruct (Z.ltb_spec 0 n); [|lia].
  destruct (Z.ltb_spec 0 len); [|lia].
  rewrite Z.sub_0_r. f_equal.
Qed.

(** What the splitter returns on a non-empty text. *)
Lemma splitter_nonempty (t : str) (n : Z) :
  0 < n -> t <> [] ->
  simple_text_splitter t n
  = Ok (map (fun k => take (Z.to_nat n) (drop (k * Z.to_nat n) t))
            (seq 0 (Z.to_nat ((Z.of_nat (length t) - 1) / n + 1)))).
Proof.
  intros Hn Ht. destruct t as [|c t]; [done|].
  unfold simple_text_splitter.
  rewrite range_windows by (simpl length; lia).
  simpl mbind. unfold result_bind. f_equal.
  rewrite map_map. apply map_ext. intros k.
  replace (0 + Z.of_nat k * n) with (Z.of_nat k * n) by lia.
  rewrite slice_window by lia. do 2 f_equal. lia.
Qed.

(** C2. For a positive chunk size the chunks of [simple_text_splitter]
    concatenate, in order, to the text; none is longer than the chunk size;
    and the empty text has no chunks. *)
Theorem splitter_partitions (t : str) (n : Z) :
  0 < n ->
  (exists chunks,
     simple_text_splitter t n = Ok chunks
     /\ concat chunks = t
     /\ Forall (fun c => Z.of_nat (length c) <= n) chunks)
  /\ simple_text_splitter [] n = Ok [].
Proof.
  intros Hn. split; [|done].
  destruct (decide (t = [])) as [->|Ht].
  { exists []. repeat split; constructor. }
  eexists. split; [apply (splitter_nonempty t n Hn Ht)|]. split.
  - rewrite concat_windows. apply take_ge.
    set (len := Z.of_nat (length t)).
    assert (0 < len) by (subst len; destruct t; [done|simpl; lia]).
    assert (len - 1 < n * ((len - 1) / n + 1)).
    { pose proof (Z.mul_succ_div_gt (len - 1) n Hn). lia. }
    assert (0 <= (len - 1) / n) by (apply Z.div_pos; lia).
    nia.
  - apply Forall_forall. intros c Hc. apply list_elem_of_In in Hc.
    apply in_map_iff in Hc as (k & <- & _).
    rewrite length_take. lia.
Qed.

Lemma splitter_partitions_witness :
  exists chunks,
    simple_text_splitter (u "abcdefg") 3 = Ok chunks
    /\ concat chunks = u "abcdefg"
    /\ Forall (fun c => Z.of_nat (length c) <= 3) chunks.
Proof. apply (splitter_partitions (u "abcdefg") 3). lia. Defined.

(** ** Text normalizer *)

Section Scan.

Variables (multiline : bool) (r : re) (repl : str).

(** Substitution only copies characters of the subject or of the
    replacement. *)
Lemma scan_Forall (P : char -> Prop) skip prev (s : str) :
  Forall P repl -> Forall P s -> Forall P (scan multiline r repl skip prev s).
Proof.
  intros Hrepl Hs. revert skip prev.
  induction Hs as [|x s Hx Hs IH]; intros skip prev; simpl.
  - destruct skip; [|constructor].
    destruct (exec multiline r prev []); [done|constructor].
  - destruct skip as [|skip]; [|apply IH].
    destruct (exec multiline r prev (x :: s)) as [rest|].
    + destruct (S (length s) - length rest)%nat.
      * apply Forall_app. split; [done|]. constructor; [done|apply IH].
      * apply Forall_app. split; [done|apply IH].
    + constructor; [done|apply IH].
Qed.

(** When every occurrence of a class of characters starts a non-empty match,
    and the replacement is free of the class, so is the result. *)
Lemma scan_removes (bad : char -> bool) skip prev (s : str) :
  (forall prev x s', bad x = true ->
     exists rest, exec multiline r prev (x :: s') = Some rest
                  /\ (length rest <= length s')%nat) ->
  Forall (fun c => bad c = false) repl ->
  Forall (fun c => bad c = false) (scan multiline r repl skip prev s).
Proof.
  intros Hbad Hrepl. revert skip prev.
  induction s as [|x s IH]; intros skip prev; simpl.
  - destruct skip; [|constructor].
    destruct (exec multiline r prev []); [done|constructor].
  - destruct skip as [|skip]; [|apply IH].
    destruct (bad x) eqn:Hx.
    + destruct (Hbad prev x s Hx) as (rest & -> & Hlen).
      replace (S (length s) - length rest)%nat
        with (S (length s - length rest)) by lia.
      apply Forall_app. split; [done|apply IH].
    + destruct (exec multiline r prev (x :: s)) as [rest|].
      * destruct (S (length s) - length rest)%nat.
        -- apply Forall_app. split; [done|]. constructor; [done|apply IH].
        -- apply Forall_app. split; [done|apply IH].
      * constructor; [done|apply IH].
Qed.

End Scan.

Lemma rep_shrinking c lo hi g n prev s k rest :
  shrinking k ->
  rep c lo hi g n prev s k = Some rest -> (length rest <= length s)%nat.
Proof.
  intros Hk. revert n prev.
  induction s as [|x s IH]; intros n prev; simpl.
  - destruct g, (lo <=? n)%nat; simpl; try done.
    + apply Hk.
    + destruct (k prev []) eqn:Hs; simpl; [|done].
      intros [= ->]. by apply Hk in Hs.
  - assert (Hstop : (if (lo <=? n)%nat then k prev (x :: s) else None)
                    = Some rest -> (length rest <= S (length s))%nat).
    { destruct (lo <=? n)%nat; [|done]. intros H. by apply Hk in H. }
    assert (Hmore : (if c x && below n hi
                     then rep c lo hi g (S n) (Some x) s k else None)
                    = Some rest -> (length rest <= S (length s))%nat).
    { destruct (c x && below n hi); [|done]. intros H. apply IH in H. lia. }
    destruct g; unfold orelse.
    + destruct (if c x && below n hi then _ else None) eqn:Hm.
      * intros [= ->]. by apply Hmore.
      * apply Hstop.
    + destruct (if (lo <=? n)%nat then _ else None) eqn:Hs.
      * intros [= ->]. by apply Hstop.
      * apply Hmore.
Qed.

Lemma bt_shrinking ml r prev s k rest :
  shrinking k ->
  bt ml r prev s k = Some rest -> (length rest <= length s)%nat.
Proof.
  revert prev s k rest.
  induction r as [c|c lo hi g| |a IHa b IHb|a IHa b IHb];
    intros prev s k rest Hk; simpl.
  - destruct s as [|x s]; [done|]. destruct (c x); [|done].
    intros H. apply Hk in H. simpl. lia.
  - by apply rep_shrinking.
  - destruct (at_bol ml prev); [|done]. apply Hk.
  - apply IHa. intros p' s' rest'. by apply IHb.
  - unfold orelse. destruct (bt ml a prev s k) eqn:Ha.
    + intros [= ->]. by apply IHa in Ha.
    + by apply IHb.
Qed.

Lemma shrinking_final : shrinking (fun _ rest => Some rest).
Proof. intros p s rest [= ->]. done. Qed.

(** A repetition that has reached its lower bound succeeds as soon as its
    continuation does. *)
Lemma rep_stop c lo hi g n prev s k :
  (lo <= n)%nat -> is_Some (k prev s) -> is_Some (rep c lo hi g n prev s k).
Proof.
  intros Hn [rest Hk].
  apply Nat.leb_le in Hn.
  destruct s as [|x s]; simpl; rewrite Hn, Hk; destruct g; simpl; eauto.
  all: destruct (if c x && below n hi then _ else None); simpl; eauto.
Qed.

Lemma lstrip_Forall (P : char -> Prop) (s : str) :
  Forall P s -> Forall P (lstrip s).
Proof.
  induction 1 as [|x s Hx Hs IH]; simpl; [constructor|].
  destruct (isspace x); [done|by constructor].
Qed.

Lemma rev_Forall (P : char -> Prop) (s : str) : Forall P s -> Forall P (rev s).
Proof.
  rewrite !List.Forall_forall. intros H c Hc. apply H. by apply in_rev.
Qed.

Lemma strip_Forall (P : char -> Prop) (s : str) :
  Forall P s -> Forall P (strip s).
Proof.
  intros H. unfold strip, rstrip.
  by apply rev_Forall, lstrip_Forall, rev_Forall, lstrip_Forall.
Qed.

Lemma emphasis_matches prev x s' :
  emphasis_char x = true ->
  exists rest, exec false re_emphasis prev (x :: s') = Some rest
               /\ (length rest <= length s')%nat.
Proof.
  unfold emphasis_char, only. rewrite !orb_true_iff, !N.eqb_eq.
  intros [[->| ->]| ->]; unfold exec, re_emphasis; simpl.
  - destruct s' as [|y s']; simpl; [eauto|].
    destruct (only "*" y); simpl; eexists; (split; [done|simpl; lia]).
  - destruct s' as [|y s']; simpl; [eauto|].
    destruct (only "_" y); simpl; eexists; (split; [done|simpl; lia]).
  - eauto.
Qed.

Lemma heading_matches prev x s' :
  heading_char x = true ->
  exists rest, exec false re_heading prev (x :: s') = Some rest
               /\ (length rest <= length s')%nat.
Proof.
  unfold heading_char, only. rewrite N.eqb_eq. intros ->.
  pose (k := fun (p' : option char) (s0 : str) =>
              bt false (Rep isspace 0 (Some 1%nat) true) p' s0
                 (fun _ rest => Some rest)).
  change (exec false re_heading prev (N_of_ascii "#" :: s'))
    with (rep (only "#") 1 (Some 6%nat) true 0 prev (N_of_ascii "#" :: s') k).
  assert (Hk : shrinking k).
  { intros p s rest. unfold k. apply bt_shrinking, shrinking_final. }
  assert (Htot : forall p s, is_Some (k p s)).
  { intros p s. unfold k. cbn [bt]. apply rep_stop; [lia|eauto]. }
  destruct (rep_stop (only "#") 1 (Some 6%nat) true 1
              (Some (N_of_ascii "#")) s' k) as [rest Hrest]; [lia|done|].
  exists rest. split; [|by apply rep_shrinking in Hrest].
  cbn [rep]. replace (only "#" (N_of_ascii "#") && below 0 (Some 6%nat))
    with true by done.
  match goal with
  | |- orelse ?a _ = _ => replace a with (Some rest) by (symmetry; exact Hrest)
  end.
  done.
Qed.

Lemma emphasis_char_false c : emphasis_char c = false <-> plain_char c.
Proof.
  unfold emphasis_char, plain_char, only.
  rewrite !orb_false_iff, !N.eqb_neq. tauto.
Qed.

Lemma after_emphasis (s : str) :
  Forall (fun c => emphasis_char c = false) (sub false re_emphasis [] s).
Proof. apply scan_removes; [apply emphasis_matches|constructor]. Qed.

Lemma after_heading (s : str) :
  Forall (fun c => heading_char c = false) (sub false re_heading [] s).
Proof. apply scan_removes; [apply heading_matches|constructor]. Qed.

Lemma clean_markdown_plain (x : str) : Forall plain_char (clean_markdown x).
Proof.
  eapply Forall_impl; [|intros c; apply emphasis_char_false].
  unfold clean_markdown. apply strip_Forall.
  apply scan_Forall; [by repeat constructor|].
  apply scan_Forall; [constructor|].
  apply after_emphasis.
Qed.

(** C10. The output of [clean_markdown] contains no asterisk, underscore or
    backtick at all, whether or not they were paired delimiters: the
    underscore of [snake_case] goes too. *)
Theorem clean_markdown_drops_marks (x : str) :
  Forall plain_char (clean_markdown x)
  /\ clean_markdown (u "snake_case") = u "snakecase".
Proof. split; [apply clean_markdown_plain|done]. Qed.

(** *** Substitution without a match *)

Lemma scan_id ml r repl prev (s : str) :
  (forall prev pre t, s = pre ++ t -> exec ml r prev t = None) ->
  scan ml r repl 0 prev s = s.
Proof.
  revert prev. induction s as [|x s IH]; intros prev Hnone; simpl.
  - by rewrite (Hnone prev [] []).
  - rewrite (Hnone prev [] (x :: s)) by done. f_equal.
    apply IH. intros prev' pre t ->. by apply (Hnone prev' (x :: pre) t).
Qed.

Lemma Forall_suffix_head (P : char -> Prop) (s pre t : str) x t' :
  Forall P s -> s = pre ++ t -> t = x :: t' -> P x.
Proof.
  intros Hs -> ->. apply Forall_app in Hs as [_ Hs]. by inversion Hs.
Qed.

Lemma heading_none prev (t : str) :
  (forall x t', t = x :: t' -> x <> N_of_ascii "#") ->
  exec false re_heading prev t = None.
Proof.
  intros Hhead. unfold exec, re_heading. cbn [bt].
  destruct t as [|x t']; [done|].
  specialize (Hhead x t' eq_refl). apply N.eqb_neq in Hhead.
  cbn [rep]. unfold only at 1. by rewrite Hhead.
Qed.

(** *** Runs of newlines *)

Lemma newlines_rep n prev (s : str) :
  rep (fun c => (c =? 10)%N) 2 None true n prev s (fun _ rest => Some rest)
  = if (2 <=? n + lead s)%nat then Some (drop (lead s) s) else None.
Proof.
  revert n prev. induction s as [|x s IH]; intros n prev; cbn [rep lead below].
  - rewrite Nat.add_0_r. cbn [orelse]. by destruct (2 <=? n)%nat.
  - rewrite andb_true_r. destruct (x =? 10)%N.
    + rewrite IH. replace (n + S (lead s))%nat with (S n + lead s)%nat by lia.
      destruct (2 <=? S n + lead s)%nat eqn:Hle; cbn [orelse]; [done|].
      apply Nat.leb_gt in Hle.
      destruct (Nat.leb_spec 2 n); [lia|done].
    + rewrite Nat.add_0_r. cbn [orelse]. by destruct (2 <=? n)%nat.
Qed.

Lemma newlines_exec prev (s : str) :
  exec false re_newlines prev s
  = if (2 <=? lead s)%nat then Some (drop (lead s) s) else None.
Proof. unfold exec, re_newlines. cbn [bt]. apply newlines_rep. Qed.

Lemma lead_le (s : str) : (lead s <= length s)%nat.
Proof. induction s as [|x s IH]; simpl; [lia|]. destruct (x =? 10)%N; simpl; lia. Qed.

(** After its leading newlines a text is over or goes on with something
    else. *)
Lemma drop_lead (s : str) :
  forall x t, drop (lead s) s = x :: t -> x <> 10%N.
Proof.
  induction s as [|y s IH]; intros x t; simpl; [done|].
  destruct (N.eqb_spec y 10); simpl; [apply IH|]. by intros [= <- <-].
Qed.

Lemma nodbl_nil : nodbl [].
Proof. intros [|? ?] post; done. Qed.

Lemma nodbl_cons a (s : str) :
  nodbl (a :: s) <-> nodbl s /\ ~ (a = 10%N /\ exists s', s = 10%N :: s').
Proof.
  split.
  - intros H. split.
    + intros pre post ->. by apply (H (a :: pre) post).
    + intros [-> [s' ->]]. by apply (H [] s').
  - intros [Hs Ha] [|b pre] post; simpl.
    + intros [= -> ->]. apply Ha. eauto.
    + intros [= -> ->]. by apply (Hs pre post).
Qed.

Lemma nodbl_rev (s : str) : nodbl s -> nodbl (rev s).
Proof.
  intros H pre post Hrev. apply (H (rev post) (rev pre)).
  rewrite <- (rev_involutive s), Hrev, rev_app_distr. simpl.
  by rewrite <- !app_assoc.
Qed.

Lemma nodbl_app_r (pre s : str) : nodbl (pre ++ s) -> nodbl s.
Proof.
  intros H pre' post ->. apply (H (pre ++ pre') post). by rewrite <- app_assoc.
Qed.

(** What the last substitution leaves: no two newlines in a row, and a text
    that starts as the rest of the subject does. *)
Lemma newlines_scan (s : str) skip prev :
  (skip <= length s)%nat ->
  nodbl (scan false re_newlines [10%N] skip prev s)
  /\ (drop skip s = [] -> scan false re_newlines [10%N] skip prev s = [])
  /\ (forall x t, drop skip s = x :: t -> x <> 10%N ->
        exists out, scan false re_newlines [10%N] skip prev s = x :: out).
Proof.
  revert skip prev. induction s as [|x s IH]; intros skip prev Hskip.
  { destruct skip; [|simpl in Hskip; lia]. cbn [scan].
    rewrite newlines_exec. cbn. split; [apply nodbl_nil|]. split; [done|].
    by intros ? ? Hd. }
  destruct skip as [|skip].
  2: { cbn [scan]. apply IH. simpl in Hskip. lia. }
  cbn [scan]. rewrite newlines_exec. cbn [lead skipn].
  destruct (N.eqb_spec x 10) as [->|Hx].
  - destruct (lead s) as [|l] eqn:Hlead.
    + cbn [Nat.leb]. destruct (IH 0%nat (Some 10%N)) as (Hno & Hnil & Hhead); [lia|].
      split; [|split; [done|by intros ? ? [= <- <-]]].
      apply nodbl_cons. split; [done|]. intros [_ [out Hout]].
      destruct s as [|y s'].
      * discriminate (eq_trans (eq_sym (Hnil eq_refl)) Hout).
      * simpl in Hlead. destruct (N.eqb_spec y 10) as [|Hy]; [done|].
        destruct (Hhead y s' eq_refl Hy) as [out' Hout'].
        injection (eq_trans (eq_sym Hout') Hout) as -> _. done.
    + replace (2 <=? S (S l))%nat with true by done.
      pose proof (lead_le s) as Hle. rewrite Hlead in Hle.
      match goal with
      | |- context [match ?n with O => _ | S _ => _ end] =>
        replace n with (S (S l))
          by (cbn [skipn length]; rewrite length_drop; unfold char in *; lia)
      end.
      cbn [app].
      destruct (IH (S l) (Some 10%N)) as (Hno & Hnil & Hhead); [lia|].
      split; [|split; [done|by intros ? ? [= <- <-]]].
      apply nodbl_cons. split; [done|]. intros [_ [out Hout]].
      destruct (drop (S l) s) as [|y t] eqn:Hrest.
      * discriminate (eq_trans (eq_sym (Hnil eq_refl)) Hout).
      * assert (Hy : y <> 10%N) by (eapply drop_lead; by rewrite Hlead, Hrest).
        destruct (Hhead y t eq_refl Hy) as [out' Hout'].
        injection (eq_trans (eq_sym Hout') Hout) as -> _. done.
  - cbn [Nat.leb]. destruct (IH 0%nat (Some x)) as (Hno & _ & _); [lia|].
    split; [|split; [done|intros ? ? [= <- <-] _; eauto]].
    apply nodbl_cons. split; [done|]. by intros [? _].
Qed.

Lemma after_newlines (s : str) : nodbl (sub false re_newlines [10%N] s).
Proof. apply newlines_scan. lia. Qed.

(** *** Stripping *)

Lemma lstrip_suffix (s : str) : exists pre, s = pre ++ lstrip s.
Proof.
  induction s as [|x s [pre IH]]; [by exists []|]. simpl.
  destruct (isspace x); [|by exists []].
  exists (x :: pre). simpl. by f_equal.
Qed.

Lemma lstrip_head (s : str) x t : lstrip s = x :: t -> isspace x = false.
Proof.
  induction s as [|y s IH]; [done|]. simpl.
  destruct (isspace y) eqn:Hy; [done|]. by intros [= <- <-].
Qed.

Lemma lstrip_fix (s : str) :
  (forall x t, s = x :: t -> isspace x = false) -> lstrip s = s.
Proof.
  destruct s as [|x t]; [done|]. intros H. simpl. by rewrite (H x t).
Qed.

Lemma strip_strip (s : str) : strip (strip s) = strip s.
Proof.
  unfold strip, rstrip.
  set (a := lstrip s). set (b := lstrip (rev a)).
  destruct (lstrip_suffix (rev a)) as [c Hc]. fold b in Hc.
  assert (Ha : a = rev b ++ rev c).
  { rewrite <- (rev_involutive a), Hc, rev_app_distr. done. }
  assert (Hfix : lstrip (rev b) = rev b).
  { apply lstrip_fix. intros x t Hb. apply (lstrip_head s x (t ++ rev c)).
    fold a. rewrite Ha, Hb. done. }
  rewrite Hfix, rev_involutive. f_equal.
  apply lstrip_fix. intros x t Hb. by apply (lstrip_head (rev a) x t).
Qed.

Lemma strip_nodbl (s : str) : nodbl s -> nodbl (strip s).
Proof.
  intros H. unfold strip, rstrip. apply nodbl_rev.
  destruct (lstrip_suffix (rev (lstrip s))) as [c Hc].
  apply (nodbl_app_r c). rewrite <- Hc. apply nodbl_rev.
  destruct (lstrip_suffix s) as [c' Hc'].
  apply (nodbl_app_r c'). by rewrite <- Hc'.
Qed.

Lemma newlines_none prev (pre t : str) :
  nodbl (pre ++ t) -> exec false re_newlines prev t = None.
Proof.
  intros H. apply nodbl_app_r in H. rewrite newlines_exec.
  destruct t as [|x [|y t]]; simpl; [done|by destruct (x =? 10)%N|].
  destruct (N.eqb_spec x 10) as [->|]; [|done].
  destruct (N.eqb_spec y 10) as [->|]; [|done].
  by destruct (H [] t).
Qed.

Lemma clean_markdown_no_hash (x : str) :
  Forall (fun c => c <> N_of_ascii "#") (clean_markdown x).
Proof.
  eapply Forall_impl; [|intros c; unfold heading_char, only; apply N.eqb_neq].
  unfold clean_markdown. apply strip_Forall.
  apply scan_Forall; [by repeat constructor|].
  do 3 (apply scan_Forall; [constructor|]).
  apply after_heading.
Qed.

Lemma clean_markdown_nodbl (x : str) : nodbl (clean_markdown x).
Proof. unfold clean_markdown. apply strip_nodbl, after_newlines. Qed.

Lemma clean_markdown_stripped (x : str) :
  strip (clean_markdown x) = clean_markdown x.
Proof. unfold clean_markdown. apply strip_strip. Qed.

(** *** Lengths *)

Lemma scan_length ml r repl skip prev (s : str) :
  (forall prev t rest, exec ml r prev t = Some rest ->
     (length repl + length rest <= length t)%nat) ->
  (length (scan ml r repl skip prev s) <= length s - skip)%nat.
Proof.
  intros Hexec. revert skip prev.
  induction s as [|x s IH]; intros skip prev; cbn [scan].
  - destruct skip; [|simpl; lia].
    destruct (exec ml r prev []) as [rest|] eqn:Hm; [|simpl; lia].
    apply Hexec in Hm. simpl in *. lia.
  - destruct skip as [|skip]; [|specialize (IH skip (Some x)); simpl; lia].
    destruct (exec ml r prev (x :: s)) as [rest|] eqn:Hm.
    + apply Hexec in Hm. cbn [length] in *.
      destruct (S (length s) - length rest)%nat as [|n] eqn:Hn.
      * specialize (IH 0%nat (Some x)). rewrite length_app. cbn [length]. lia.
      * specialize (IH n (Some x)). rewrite length_app. lia.
    + specialize (IH 0%nat (Some x)). cbn [length]. lia.
Qed.

Lemma exec_shrinks ml r prev (t rest : str) :
  exec ml r prev t = Some rest -> (length rest <= length t)%nat.
Proof. apply bt_shrinking, shrinking_final. Qed.

Lemma sub_erase_length ml r (s : str) :
  (length (sub ml r [] s) <= length s)%nat.
Proof.
  unfold sub. pose proof (scan_length ml r [] 0 None s) as H.
  rewrite Nat.sub_0_r in H. apply H.
  intros prev t rest Hm. apply exec_shrinks in Hm. simpl. lia.
Qed.

Lemma sub_newlines_length (s : str) :
  (length (sub false re_newlines [10%N] s) <= length s)%nat.
Proof.
  unfold sub. pose proof (scan_length false re_newlines [10%N] 0 None s) as H.
  rewrite Nat.sub_0_r in H. apply H.
  intros prev t rest. rewrite newlines_exec.
  destruct (Nat.leb_spec 2 (lead t)) as [Hl|]; [|done].
  intros [= <-]. rewrite length_drop. pose proof (lead_le t).
  unfold str, char in *. simpl. lia.
Qed.

Lemma lstrip_length (s : str) : (length (lstrip s) <= length s)%nat.
Proof.
  destruct (lstrip_suffix s) as [pre Hs]. rewrite Hs at 2.
  rewrite length_app. lia.
Qed.

Lemma strip_length (s : str) : (length (strip s) <= length s)%nat.
Proof.
  unfold strip, rstrip. rewrite length_rev.
  etransitivity; [apply lstrip_length|]. rewrite length_rev.
  apply lstrip_length.
Qed.

Lemma strip_ends (s : str) :
  (forall c t, strip s = c :: t -> isspace c = false)
  /\ (forall t c, strip s = t ++ [c] -> isspace c = false).
Proof.
  split.
  - intros c t Hs. unfold strip, rstrip in Hs.
    destruct (lstrip_suffix (rev (lstrip s))) as [pre Hpre].
    apply (f_equal (@rev char)) in Hpre.
    rewrite rev_involutive, rev_app_distr, Hs in Hpre.
    by apply (lstrip_head s c (t ++ rev pre)).
  - intros t c Hs. unfold strip, rstrip in Hs.
    apply (f_equal (@rev char)) in Hs. rewrite rev_involutive, rev_app_distr in Hs.
    cbn in Hs. by apply lstrip_head in Hs.
Qed.

(** *** Matches take characters *)

Lemma rep_minw c lo hi g n prev s k rest d :
  shrinks_by d k ->
  rep c lo hi g n prev s k = Some rest ->
  (length rest + (lo - n) + d <= length s)%nat.
Proof.
  intros Hk. revert n prev.
  induction s as [|x s IH]; intros n prev; cbn [rep].
  - destruct (Nat.leb_spec lo n) as [Hle|Hgt].
    + destruct g; cbn [orelse].
      * intros H. apply Hk in H. lia.
      * destruct (k prev []) eqn:Hs; cbn [orelse]; [|done].
        intros [= ->]. apply Hk in Hs. lia.
    + by destruct g.
  - assert (Hstop : (if (lo <=? n)%nat then k prev (x :: s) else None)
                    = Some rest ->
                    (length rest + (lo - n) + d <= length (x :: s))%nat).
    { destruct (Nat.leb_spec lo n) as [Hle|Hgt]; [|done].
      intros H. apply Hk in H. lia. }
    assert (Hmore : (if c x && below n hi
                     then rep c lo hi g (S n) (Some x) s k else None)
                    = Some rest ->
                    (length rest + (lo - n) + d <= length (x :: s))%nat).
    { destruct (c x && below n hi); [|done]. intros H. apply IH in H.
      cbn [length]. lia. }
    destruct g; unfold orelse.
    + destruct (if c x && below n hi then _ else None) eqn:Hm.
      * intros [= ->]. by apply Hmore.
      * apply Hstop.
    + destruct (if (lo <=? n)%nat then _ else None) eqn:Hs.
      * intros [= ->]. by apply Hstop.
      * apply Hmore.
Qed.

Lemma bt_minw ml r prev s k rest d :
  shrinks_by d k ->
  bt ml r prev s k = Some rest ->
  (length rest + minw r + d <= length s)%nat.
Proof.
  revert prev s k rest d.
  induction r as [c|c lo hi g| |a IHa b IHb|a IHa b IHb];
    intros prev s k rest d Hk; cbn [bt minw].
  - destruct s as [|x s]; [done|]. destruct (c x); [|done].
    intros H. apply Hk in H. cbn [length]. lia.
  - intros H. eapply rep_minw in H; [|done]. lia.
  - destruct (at_bol ml prev); [|done]. intros H. apply Hk in H. lia.
  - intros H. eapply (IHa _ _ _ _ (minw b + d)%nat) in H; [lia|].
    intros p' s' rest' H'. eapply IHb in H'; [|done]. lia.
  - unfold orelse. destruct (bt ml a prev s k) eqn:Ha.
    + intros [= ->]. eapply IHa in Ha; [|done]. lia.
    + intros H. eapply IHb in H; [|done]. lia.
Qed.

Lemma exec_minw ml r prev (t rest : str) :
  exec ml r prev t = Some rest -> (length rest + minw r <= length t)%nat.
Proof.
  intros H. eapply (bt_minw _ _ _ _ _ _ 0) in H; [lia|].
  intros p s rest' [= ->]. lia.
Qed.

(** *** Substitution that finds nothing, with the anchor taken into account *)

Lemma prev_after_cons prev x (pre : str) :
  prev_after prev (x :: pre) = prev_after (Some x) pre.
Proof.
  unfold prev_after. destruct pre as [|y pre]; [done|].
  rewrite last_cons. by destruct (last (y :: pre)).
Qed.

Lemma scan_fixed ml r repl prev (s : str) :
  (forall pre t, s = pre ++ t -> exec ml r (prev_after prev pre) t = None) ->
  scan ml r repl 0 prev s = s.
Proof.
  revert prev. induction s as [|x s IH]; intros prev Hnone; cbn [scan].
  - pose proof (Hnone [] [] eq_refl) as H0. cbn in H0. by rewrite H0.
  - pose proof (Hnone [] (x :: s) eq_refl) as H0. cbn in H0. rewrite H0. f_equal.
    apply IH. intros pre t ->. rewrite <- (prev_after_cons prev).
    by apply (Hnone (x :: pre) t).
Qed.

(** An erasing substitution that keeps the length has found no match. *)
Lemma scan_same_length ml r prev (s : str) :
  (1 <= minw r)%nat ->
  length (scan ml r [] 0 prev s) = length s ->
  forall pre t, s = pre ++ t -> exec ml r (prev_after prev pre) t = None.
Proof.
  intros Hw.
  assert (Hlen : forall skip prev (s : str),
    (length (scan ml r [] skip prev s) <= length s - skip)%nat).
  { intros skip prev' s'. apply scan_length.
    intros p t rest Hm. apply exec_minw in Hm. simpl. lia. }
  revert prev. induction s as [|x s IH]; intros prev Heq pre t Hs.
  - destruct pre; [|done]. simpl in Hs. subst t.
    destruct (exec ml r prev []) as [rest|] eqn:Hm; [|done].
    apply exec_minw in Hm. simpl in Hm. lia.
  - cbn [scan] in Heq.
    destruct (exec ml r prev (x :: s)) as [rest|] eqn:Hm.
    + exfalso. pose proof (exec_minw _ _ _ _ _ Hm) as Hmw. cbn [length] in *.
      destruct (S (length s) - length rest)%nat as [|n] eqn:Hn; [lia|].
      pose proof (Hlen n (Some x) s). cbn [app] in Heq. lia.
    + cbn [length] in Heq. injection Heq as Heq.
      destruct pre as [|y pre].
      * simpl in Hs. by subst t.
      * injection Hs as <- ->. rewrite (prev_after_cons prev). by apply IH.
Qed.

(** *** What the link pattern matches *)

Lemma link_from_cons c (t : str) : c <> 10%N -> link_from t -> link_from (c :: t).
Proof.
  intros Hc (text & url & post & -> & Ht & Hu).
  exists (c :: text), url, post. split; [done|]. split; [by constructor|done].
Qed.

Lemma dot_true c : dot c = true <-> c <> 10%N.
Proof. unfold dot. rewrite negb_true_iff. apply N.eqb_neq. Qed.

Lemma only_true a c : only a c = true <-> c = N_of_ascii a.
Proof. unfold only. apply N.eqb_eq. Qed.

Lemma is_Some_orelse {A} (a : option A) (b : unit -> option A) :
  is_Some (orelse a b) <-> is_Some a \/ is_Some (b tt).
Proof.
  destruct a; cbn [orelse]; split; eauto. intros [[? ?]|?]; done.
Qed.

(** A repetition without bounds succeeds exactly when its continuation does
    after some stretch of characters of the class, greedy or not. *)
Lemma rep_some c g n prev (s : str) (k : Re.cont) :
  (forall p p' t, k p t = k p' t) ->
  is_Some (rep c 0 None g n prev s k)
  <-> exists a b, s = a ++ b /\ Forall (fun x => c x = true) a
                  /\ is_Some (k None b).
Proof.
  intros Hk. pose proof (@is_Some_None str) as Hnone.
  revert n prev. induction s as [|x s IH]; intros n prev.
  - assert (Hnil : is_Some (rep c 0 None g n prev [] k) <-> is_Some (k None [])).
    { cbn [rep Nat.leb]. rewrite (Hk prev None).
      destruct g; rewrite is_Some_orelse; tauto. }
    rewrite Hnil. split.
    + intros H. exists [], []. by repeat split.
    + intros (a & b & Hs & _ & Hb). symmetry in Hs.
      by apply app_eq_nil in Hs as [-> ->].
  - assert (Hcons : is_Some (rep c 0 None g n prev (x :: s) k)
                    <-> is_Some (k None (x :: s))
                        \/ (c x = true
                            /\ is_Some (rep c 0 None g (S n) (Some x) s k))).
    { cbn [rep Nat.leb below]. rewrite andb_true_r, (Hk prev None).
      destruct g; rewrite is_Some_orelse; destruct (c x); intuition congruence. }
    rewrite Hcons, IH. split.
    + intros [H|(Hx & a & b & -> & Ha & Hb)].
      * exists [], (x :: s). by repeat split.
      * exists (x :: a), b. repeat split; [by constructor|done].
    + intros (a & b & Hs & Ha & Hb). destruct a as [|y a].
      * simpl in Hs. subst b. by left.
      * injection Hs as <- ->. inversion Ha; subst. right.
        split; [done|]. by exists a, b.
Qed.

(** A lazy repetition of [.] succeeds exactly when its continuation does
    after some stretch of the line. *)
Lemma rep_dot_some n prev (s : str) (k : Re.cont) :
  (forall p p' t, k p t = k p' t) ->
  is_Some (rep dot 0 None false n prev s k)
  <-> exists a b, s = a ++ b /\ oneline a /\ is_Some (k None b).
Proof.
  intros Hk. rewrite rep_some by done.
  split; intros (a & b & Hs & Ha & Hb); exists a, b;
    (split; [done|split; [|done]]);
    (eapply Forall_impl; [exact Ha|]); intros c; apply dot_true.
Qed.

Lemma exec_link_some prev (s : str) :
  is_Some (exec false re_link prev s)
  <-> exists rest, s = N_of_ascii "[" :: rest /\ link_from rest.
Proof.
  unfold exec, re_link. cbn [bt lit].
  destruct s as [|x s].
  { split; [by intros [? ?]|]. by intros (? & ? & _). }
  destruct (only "[" x) eqn:Hx.
  2: { split; [by intros [? ?]|]. intros (rest & [= -> ->] & _).
       by rewrite (proj2 (only_true _ _)) in Hx. }
  apply only_true in Hx. subst x.
  rewrite rep_dot_some by done.
  split.
  - intros (text & b & -> & Htext & Hb). exists (text ++ b). split; [done|].
    destruct b as [|y b]; [by destruct Hb|].
    destruct (only "]" y) eqn:Hy; [|by destruct Hb]. apply only_true in Hy. subst y.
    destruct b as [|z b]; [by destruct Hb|].
    destruct (only "(" z) eqn:Hz; [|by destruct Hb]. apply only_true in Hz. subst z.
    apply rep_dot_some in Hb; [|done].
    destruct Hb as (url & c & -> & Hurl & Hc).
    destruct c as [|q c]; [by destruct Hc|].
    destruct (only ")" q) eqn:Hq; [|by destruct Hc]. apply only_true in Hq. subst q.
    by exists text, url, c.
  - intros (rest & [= <-] & text & url & post & -> & Htext & Hurl).
    eexists text, _. split; [done|]. split; [done|].
    rewrite !(proj2 (only_true _ _)) by done.
    apply rep_dot_some; [done|]. exists url, (N_of_ascii ")" :: post).
    split; [done|]. split; [done|].
    by rewrite (proj2 (only_true _ _)).
Qed.

Lemma exec_link_none prev (rest : str) :
  exec false re_link prev (N_of_ascii "[" :: rest) = None -> ~ link_from rest.
Proof.
  intros Hnone Hlink.
  destruct (proj2 (exec_link_some prev (N_of_ascii "[" :: rest))) as [r Hr]; [eauto|].
  congruence.
Qed.

(** *** The link substitution leaves no link *)

Lemma scan_link_cases skip prev x (s : str) :
  (exists k p, scan false re_link [] skip prev (x :: s)
               = scan false re_link [] k p s
               /\ (skip = 0%nat -> link_from (x :: s))
               /\ (forall j, skip = S j -> k = j))
  \/ (skip = 0%nat
      /\ exec false re_link prev (x :: s) = None
      /\ scan false re_link [] skip prev (x :: s)
         = x :: scan false re_link [] 0 (Some x) s).
Proof.
  destruct skip as [|j].
  - cbn [scan]. destruct (exec false re_link prev (x :: s)) as [rest|] eqn:Hm.
    + left. pose proof (exec_minw _ _ _ _ _ Hm) as Hw.
      destruct (proj1 (exec_link_some prev (x :: s))) as (r & Hx & Hl); [eauto|].
      assert (x = N_of_ascii "[" /\ s = r) as [Hx1 <-] by (by injection Hx).
      change (minw re_link) with 4%nat in Hw. cbn [length] in *.
      destruct (S (length s) - length rest)%nat as [|n] eqn:Hn; [lia|].
      exists n, (Some x). split; [done|]. split; [|done].
      intros _. apply link_from_cons; [by subst x|done].
    + right. done.
  - left. exists j, (Some x). split; [done|]. split; [done|]. by intros ? [= ->].
Qed.

Lemma scan_link_nil skip prev : scan false re_link [] skip prev [] = [].
Proof. by destruct skip. Qed.

Lemma paren_scan skip prev (s : str) :
  paren_from (scan false re_link [] skip prev s) ->
  paren_from (drop skip s) \/ link_from (drop skip s).
Proof.
  revert skip prev. induction s as [|x s IH]; intros skip prev.
  { rewrite scan_link_nil. intros (url & post & H & _). by destruct url. }
  destruct (scan_link_cases skip prev x s)
    as [(k & p & -> & H0 & Hk)|(-> & Hnone & ->)].
  - intros H. destruct skip as [|j].
    + right. by apply H0.
    + rewrite (Hk j eq_refl) in H. by apply IH in H.
  - cbn [skipn]. intros (url & post & Hs & Hurl). destruct url as [|y url].
    + injection Hs as -> _. left. exists [], s. split; [done|constructor].
    + injection Hs as -> Hs. inversion Hurl as [|? ? Hy Hurl']; subst.
      destruct (IH 0%nat (Some y)) as [(url' & post' & Hs' & Hu')|Hl].
      * by exists url, post.
      * left. rewrite drop_0 in Hs'. exists (y :: url'), post'. rewrite Hs'.
        split; [done|by constructor].
      * right. by apply link_from_cons.
Qed.

Lemma open_scan skip prev (s : str) :
  open_from (scan false re_link [] skip prev s) ->
  open_from (drop skip s) \/ link_from (drop skip s).
Proof.
  revert skip prev. induction s as [|x s IH]; intros skip prev.
  { rewrite scan_link_nil. by intros (rest & H & _). }
  destruct (scan_link_cases skip prev x s)
    as [(k & p & -> & H0 & Hk)|(-> & Hnone & ->)].
  - intros H. destruct skip as [|j].
    + right. by apply H0.
    + rewrite (Hk j eq_refl) in H. by apply IH in H.
  - cbn [skipn]. intros (rest & [= -> Hs] & Hp). rewrite <- Hs in Hp.
    apply paren_scan in Hp as [Hp|Hl].
    + left. by exists s.
    + right. by apply link_from_cons.
Qed.

Lemma link_scan skip prev (s : str) :
  link_from (scan false re_link [] skip prev s) -> link_from (drop skip s).
Proof.
  revert skip prev. induction s as [|x s IH]; intros skip prev.
  { rewrite scan_link_nil. intros (text & url & post & H & _). by destruct text. }
  destruct (scan_link_cases skip prev x s)
    as [(k & p & -> & H0 & Hk)|(-> & Hnone & ->)].
  - intros H. destruct skip as [|j].
    + by apply H0.
    + rewrite (Hk j eq_refl) in H. apply IH in H. done.
  - cbn [skipn]. intros (text & url & post & Hs & Htext & Hurl).
    destruct text as [|y text].
    + assert (x = N_of_ascii "]"
              /\ scan false re_link [] 0 (Some x) s
                 = N_of_ascii "(" :: url ++ N_of_ascii ")" :: post)
        as [Hx Hs'] by (by injection Hs).
      assert (Ho : open_from (scan false re_link [] 0 (Some x) s)).
      { rewrite Hs'. eexists. split; [done|]. by exists url, post. }
      apply open_scan in Ho as [(rest & Hrest & url' & post' & -> & Hu')|Hl].
      * rewrite drop_0 in Hrest. exists [], url', post'. rewrite Hrest, Hx.
        split; [done|]. split; [constructor|done].
      * apply link_from_cons; [by subst x|done].
    + injection Hs as -> Hs. inversion Htext as [|? ? Hy Htext']; subst.
      apply link_from_cons; [done|]. apply (IH 0%nat (Some y)).
      by exists text, url, post.
Qed.

Lemma no_link_scan skip prev (s : str) :
  ~ has_link (scan false re_link [] skip prev s).
Proof.
  revert skip prev. induction s as [|x s IH]; intros skip prev.
  { rewrite scan_link_nil. intros (pre & rest & H & _). by destruct pre. }
  destruct (scan_link_cases skip prev x s)
    as [(k & p & -> & _ & _)|(-> & Hnone & ->)]; [apply IH|].
  intros (pre & rest & Hs & Hl). destruct pre as [|y pre].
  - injection Hs as -> Hs. rewrite <- Hs in Hl. apply link_scan in Hl.
    by apply exec_link_none in Hnone.
  - injection Hs as _ Hs. apply (IH 0%nat (Some x)). by exists pre, rest.
Qed.

Lemma after_link (s : str) : ~ has_link (sub false re_link [] s).
Proof. apply no_link_scan. Qed.

(** *** What stripping removes *)

Lemma lstrip_split (s : str) :
  exists pre, s = pre ++ lstrip s /\ Forall (fun c => isspace c = true) pre.
Proof.
  induction s as [|x s (pre & IH & Hpre)]; [exists []; by split|]. simpl.
  destruct (isspace x) eqn:Hx; [|exists []; by split].
  exists (x :: pre). split; [simpl; by f_equal|by constructor].
Qed.

Lemma strip_split (s : str) :
  exists l r, s = l ++ strip s ++ r
              /\ Forall (fun c => isspace c = true) l
              /\ Forall (fun c => isspace c = true) r.
Proof.
  unfold strip, rstrip.
  destruct (lstrip_split s) as (l & Hl & Hsl).
  destruct (lstrip_split (rev (lstrip s))) as (r & Hr & Hsr).
  exists l, (rev r). split; [|split; [done|]].
  - rewrite Hl at 1. f_equal.
    rewrite <- (rev_involutive (lstrip s)) at 1. rewrite Hr at 1.
    by rewrite rev_app_distr.
  - apply Forall_forall. intros c Hc. apply list_elem_of_In, in_rev in Hc.
    by apply (proj1 (List.Forall_forall _ _) Hsr).
Qed.

Lemma factor_strip (m s : str) : factor m (strip s) -> factor m s.
Proof.
  intros (a & b & Hs). destruct (strip_split s) as (l & r & Hlr & _ & _).
  exists (l ++ a), (b ++ r). rewrite Hlr at 1. rewrite Hs.
  by rewrite <- !app_assoc.
Qed.

Lemma factor_cons (m : str) x (s : str) : factor m s -> factor m (x :: s).
Proof. intros (a & b & ->). by exists (x :: a), b. Qed.

Lemma absent_factor (m s : str) : absent m s <-> ~ factor m s.
Proof.
  split.
  - intros H (a & b & Hs). by apply (H a b).
  - intros H a b Hs. apply H. by exists a, b.
Qed.

(** *** Substitutions that only cut at the start of a line *)

Section Lines.

Variables (ml : bool) (r : re) (repl : str).
Hypothesis Hrepl : repl = [] \/ repl = [10%N].
Hypothesis Hw : (1 <= minw r)%nat.
Hypothesis Hline : forall x (s m : str),
  x <> 10%N -> oneline m ->
  m `prefix_of` scan ml r repl 0 (Some x) s -> m `prefix_of` s.

Lemma factor_repl (m out : str) :
  oneline m -> m <> [] -> factor m (repl ++ out) -> factor m out.
Proof.
  intros Hm Hne (a & b & Hs). destruct Hrepl as [->| ->].
  - by exists a, b.
  - destruct a as [|y a].
    + destruct m as [|c m]; [done|]. injection Hs as <- _.
      by inversion Hm.
    + injection Hs as _ Hs. by exists a, b.
Qed.

Lemma factor_scan skip prev (s m : str) :
  oneline m -> m <> [] ->
  factor m (scan ml r repl skip prev s) -> factor m s.
Proof.
  intros Hm Hne. revert skip prev.
  induction s as [|x s IH]; intros skip prev; cbn [scan].
  - destruct skip as [|j].
    + destruct (exec ml r prev []) as [rest|] eqn:Hx.
      * apply exec_minw in Hx. simpl in Hx. lia.
      * done.
    + done.
  - destruct skip as [|j].
    2: { intros H. apply factor_cons. by apply IH in H. }
    destruct (exec ml r prev (x :: s)) as [rest|] eqn:Hx.
    + apply exec_minw in Hx. cbn [length] in *.
      destruct (S (length s) - length rest)%nat as [|n] eqn:Hn; [lia|].
      intros H. apply factor_repl in H; [|done..].
      apply factor_cons. by apply IH in H.
    + intros (a & b & Hs). destruct a as [|y a].
      * destruct m as [|c m]; [done|]. injection Hs as -> Hs.
        inversion Hm as [|? ? Hc Hm']; subst.
        destruct (Hline c s m Hc Hm') as [k Hk]; [by exists b|].
        exists [], k. simpl. by rewrite Hk.
      * injection Hs as _ Hs. apply factor_cons. apply (IH 0%nat (Some x)).
        by exists a, b.
Qed.

End Lines.

Lemma bullet_mid x (t : str) :
  x <> 10%N -> exec true re_bullet (Some x) t = None.
Proof.
  intros Hx. unfold exec, re_bullet. cbn [bt at_bol].
  apply N.eqb_neq in Hx. by rewrite Hx.
Qed.

Lemma bullet_line x (s m : str) :
  x <> 10%N -> oneline m ->
  m `prefix_of` scan true re_bullet [] 0 (Some x) s -> m `prefix_of` s.
Proof.
  revert x m. induction s as [|y s IH]; intros x m Hx Hm; cbn [scan];
    rewrite bullet_mid by done; [done|].
  destruct m as [|c m]; [intros _; by exists (y :: s)|].
  intros [k Hk]. cbn [app] in Hk. injection Hk as -> Hk.
  inversion Hm as [|? ? Hc Hm']; subst.
  destruct (IH c m Hc Hm') as [k' Hk']; [by exists k|].
  exists k'. simpl. by rewrite Hk'.
Qed.

Lemma newlines_line x (s m : str) :
  x <> 10%N -> oneline m ->
  m `prefix_of` scan false re_newlines [10%N] 0 (Some x) s -> m `prefix_of` s.
Proof.
  intros _. generalize (Some x). clear x. intros prev. revert prev m.
  induction s as [|y s IH]; intros prev m Hm; cbn [scan];
    rewrite newlines_exec; [done|]. cbn [lead].
  destruct m as [|c m]; [intros _; by exists (y :: s)|].
  inversion Hm as [|? ? Hc Hm']; subst.
  destruct (N.eqb_spec y 10) as [->|Hy].
  - destruct (2 <=? S (lead s))%nat.
    + match goal with
      | |- context [match ?n with O => _ | S _ => _ end] => destruct n
      end; intros [k Hk]; cbn [app] in Hk; by injection Hk as <- _.
    + intros [k Hk]. cbn [app] in Hk. by injection Hk as <- _.
  - cbn [Nat.leb]. intros [k Hk]. cbn [app] in Hk. injection Hk as -> Hk.
    destruct (IH (Some c) m Hm') as [k' Hk']; [by exists k|].
    exists k'. simpl. by rewrite Hk'.
Qed.

Lemma factor_bullet (s m : str) :
  oneline m -> m <> [] -> factor m (sub true re_bullet [] s) -> factor m s.
Proof.
  apply factor_scan; [by left|cbn; lia|apply bullet_line].
Qed.

Lemma factor_newlines (s m : str) :
  oneline m -> m <> [] -> factor m (sub false re_newlines [10%N] s) -> factor m s.
Proof.
  apply factor_scan; [by right|cbn; lia|apply newlines_line].
Qed.

(** The last three steps of [clean_markdown] create no text within a line. *)
Lemma factor_tail (s m : str) :
  oneline m -> m <> [] ->
  factor m (strip (sub false re_newlines [10%N] (sub true re_bullet [] s))) ->
  factor m s.
Proof.
  intros Hm Hne H.
  by apply factor_bullet, factor_newlines, factor_strip.
Qed.

(** *** Links and tildes as text within a line *)

Lemma has_link_factor (t : str) :
  has_link t <->
  exists text url, oneline text /\ oneline url /\ factor (link_text text url) t.
Proof.
  unfold link_text. split.
  - intros (pre & rest & -> & text & url & post & -> & Ht & Hu).
    exists text, url. split; [done|]. split; [done|]. exists pre, post.
    cbn [app]. do 2 f_equal. rewrite <- !app_assoc. cbn [app]. do 3 f_equal.
    by rewrite <- app_assoc.
  - intros (text & url & Ht & Hu & a & b & ->).
    exists a, (text ++ N_of_ascii "]" :: N_of_ascii "(" :: url
                    ++ N_of_ascii ")" :: b).
    split.
    + cbn [app]. do 2 f_equal. rewrite <- !app_assoc. cbn [app]. do 3 f_equal.
      by rewrite <- app_assoc.
    + by exists text, url, b.
Qed.

Lemma link_text_oneline (text url : str) :
  oneline text -> oneline url -> oneline (link_text text url).
Proof.
  intros Ht Hu. unfold link_text, oneline.
  constructor; [done|]. apply Forall_app. split; [done|].
  constructor; [done|]. constructor; [done|].
  apply Forall_app. split; [done|]. by constructor.
Qed.

Lemma has_link_tail (s : str) :
  has_link (strip (sub false re_newlines [10%N] (sub true re_bullet [] s))) ->
  has_link s.
Proof.
  rewrite !has_link_factor. intros (text & url & Ht & Hu & H).
  exists text, url. split; [done|]. split; [done|].
  apply factor_tail; [by apply link_text_oneline|done|done].
Qed.

Lemma tildes_tail (s : str) :
  absent TILDES s ->
  absent TILDES (strip (sub false re_newlines [10%N] (sub true re_bullet [] s))).
Proof.
  rewrite !absent_factor. intros H H'. apply H.
  apply factor_tail; [by repeat constructor|done|done].
Qed.

(** *** The emphasis pattern *)

Lemma exec_tildes prev (t : str) :
  exec false re_emphasis prev (126%N :: 126%N :: t) = Some t.
Proof. reflexivity. Qed.

Lemma emphasis_none2 prev (t : str) :
  (forall x t', t = x :: t' -> plain_char x) ->
  (forall t', t <> 126%N :: 126%N :: t') ->
  exec false re_emphasis prev t = None.
Proof.
  intros Hhead Htil. unfold exec, re_emphasis. cbn [bt lit].
  destruct t as [|x t']; [done|].
  destruct (Hhead x t' eq_refl) as (H1 & H2 & H3).
  apply N.eqb_neq in H1, H2, H3. unfold only. rewrite H1, H2, H3.
  cbn [orelse].
  destruct (N.eqb_spec x (N_of_ascii "~")) as [->|Hx]; [|done].
  destruct t' as [|y t'']; [done|].
  destruct (N.eqb_spec y (N_of_ascii "~")) as [->|Hy]; [|done].
  by destruct (Htil t'').
Qed.

(** Without asterisks, underscores and backticks in its subject, the
    emphasis substitution leaves no two tildes in a row. *)
Lemma emphasis_scan_tildes skip prev (s : str) :
  Forall plain_char s ->
  absent TILDES (scan false re_emphasis [] skip prev s).
Proof.
  intros Hs. revert skip prev.
  induction Hs as [|x s Hx Hs IH]; intros skip prev.
  { destruct skip; by intros [|? ?] ?. }
  destruct skip as [|j]; [|apply IH]. cbn [scan].
  assert (Hcopy : forall (out : str),
    (forall t, out <> 126%N :: t \/ x <> 126%N) ->
    absent TILDES out -> absent TILDES (x :: out)).
  { intros out Hhead Hout [|y pre] post.
    - intros [= -> ->]. by destruct (Hhead post).
    - intros [= _ ->]. by apply (Hout pre post). }
  destruct (N.eqb_spec x 126) as [->|Hx126].
  - destruct s as [|y s].
    + replace (exec false re_emphasis prev [126%N]) with (@None str) by done.
      apply Hcopy; [by left|apply IH].
    + destruct (N.eqb_spec y 126) as [->|Hy].
      * rewrite exec_tildes. cbn [length].
        replace (S (S (length s)) - length s)%nat with 2%nat by lia.
        apply IH.
      * rewrite emphasis_none2.
        2: { by intros ? ? [= <- <-]. }
        2: { by intros ? [= ?]. }
        apply Hcopy; [|apply IH]. intros t. left. cbn [scan].
        inversion Hs as [|? ? Hpy _]; subst.
        rewrite emphasis_none2.
        2: { by intros ? ? [= <- <-]. }
        2: { by intros ? [= ? ?]. }
        by intros [= ?].
  - rewrite emphasis_none2.
    2: { by intros ? ? [= <- <-]. }
    2: { by intros ? [= ?]. }
    apply Hcopy; [by right|apply IH].
Qed.

Lemma emphasis_fixed (s : str) :
  emphasis_free s -> sub false re_emphasis [] s = s.
Proof.
  intros [Hplain Htil]. apply scan_id. intros prev pre t Hs.
  apply emphasis_none2.
  - intros c t' Ht. apply (Forall_suffix_head _ s pre t c t' Hplain Hs Ht).
  - intros t' Ht. apply (Htil pre t'). by rewrite Hs, Ht.
Qed.

(** *** The bullet pattern *)

Lemma exec_bullet_some prev (t : str) :
  is_Some (exec true re_bullet prev t)
  <-> at_bol true prev = true
      /\ exists ws c sp post,
           t = ws ++ c :: sp :: post
           /\ Forall (fun x => isspace x = true) ws
           /\ bullet_char c = true /\ isspace sp = true.
Proof.
  unfold exec, re_bullet. cbn [bt].
  destruct (at_bol true prev); [|split; [by intros [? ?]|by intros [? _]]].
  rewrite rep_some by done. split.
  - intros (ws & b & -> & Hws & Hb). split; [done|].
    destruct b as [|c [|sp post]]; try (by destruct Hb).
    { destruct (only "-" c || only "*" c || only "+" c); by destruct Hb. }
    exists ws, c, sp, post. split; [done|]. split; [done|].
    unfold bullet_char.
    destruct (only "-" c || only "*" c || only "+" c); [|by destruct Hb].
    destruct (isspace sp); [done|by destruct Hb].
  - intros (_ & ws & c & sp & post & -> & Hws & Hc & Hsp).
    exists ws, (c :: sp :: post). split; [done|]. split; [done|].
    unfold bullet_char in Hc. by rewrite Hc, Hsp.
Qed.

Lemma at_bol_prev_after (pre : str) :
  at_bol true (prev_after None pre) = true
  <-> pre = [] \/ exists p, pre = p ++ [10%N].
Proof.
  unfold prev_after, at_bol. destruct (last pre) as [c|] eqn:Hlast.
  - apply last_Some in Hlast as [p ->]. cbn [andb]. rewrite N.eqb_eq. split.
    + intros ->. right. by exists p.
    + intros [H|[p' H]]; [by destruct p|].
      by apply app_inj_tail in H as [_ ->].
  - apply last_None in Hlast as ->. split; [by left|done].
Qed.

Lemma tildes_literal : u "~~" = TILDES.
Proof. reflexivity. Qed.

(** *** Steps that find nothing *)

Lemma heading_fixed (y : str) :
  Forall (fun c => c <> N_of_ascii "#") y -> sub false re_heading [] y = y.
Proof.
  intros Hhash. apply scan_id. intros prev pre t Hy. apply heading_none.
  intros c t' Ht. apply (Forall_suffix_head _ y pre t c t' Hhash Hy Ht).
Qed.

Lemma link_fixed (y : str) : ~ has_link y -> sub false re_link [] y = y.
Proof.
  intros Hno. apply scan_id. intros prev pre t Hy.
  destruct (exec false re_link prev t) as [rest|] eqn:Hm; [|done].
  destruct Hno. destruct (proj1 (exec_link_some prev t)) as (r & -> & Hl); [eauto|].
  by exists pre, r.
Qed.

Lemma bullet_fixed (y : str) : ~ has_bullet y -> sub true re_bullet [] y = y.
Proof.
  intros Hno. apply scan_fixed. intros pre t Hy.
  destruct (exec true re_bullet (prev_after None pre) t) as [rest|] eqn:Hm; [|done].
  destruct Hno.
  destruct (proj1 (exec_bullet_some (prev_after None pre) t))
    as (Hbol & ws & c & sp & post & -> & Hws & Hc & Hsp); [eauto|].
  apply at_bol_prev_after in Hbol. by exists pre, ws, c, sp, post.
Qed.

Lemma newlines_fixed (y : str) :
  nodbl y -> sub false re_newlines [10%N] y = y.
Proof.
  intros Hy. apply scan_id. intros prev pre t Hs.
  apply (newlines_none prev pre). by rewrite <- Hs.
Qed.

(** *** Steps that keep the length *)

Lemma link_found (y : str) :
  length (sub false re_link [] y) = length y -> ~ has_link y.
Proof.
  intros Hlen (pre & rest & Hy & Hl).
  assert (Hnone := scan_same_length false re_link None y
                     ltac:(cbn; lia) Hlen pre _ Hy).
  destruct (proj2 (exec_link_some (prev_after None pre)
                     (N_of_ascii "[" :: rest))) as [r Hr]; [eauto|].
  congruence.
Qed.

Lemma emphasis_found (y : str) :
  length (sub false re_emphasis [] y) = length y -> absent TILDES y.
Proof.
  intros Hlen pre post Hy.
  assert (Hnone := scan_same_length false re_emphasis None y
                     ltac:(cbn; lia) Hlen pre _ Hy).
  unfold TILDES in Hnone. cbn [app] in Hnone. by rewrite exec_tildes in Hnone.
Qed.

Lemma bullet_found (y : str) :
  length (sub true re_bullet [] y) = length y -> ~ has_bullet y.
Proof.
  intros Hlen (pre & ws & c & sp & post & Hy & Hpre & Hws & Hc & Hsp).
  assert (Hnone := scan_same_length true re_bullet None y
                     ltac:(cbn; lia) Hlen pre _ Hy).
  destruct (proj2 (exec_bullet_some (prev_after None pre)
                     (ws ++ c :: sp :: post))) as [r Hr]; [|congruence].
  split; [by apply at_bol_prev_after|]. by exists ws, c, sp, post.
Qed.




(** ** Answer extraction *)

Lemma startswith_spec (s p : str) :
  startswith s p = true <-> exists post, s = p ++ post.
Proof.
  revert s. induction p as [|a p IH]; intros s; simpl.
  - split; [intros _; by exists s|by destruct s].
  - destruct s as [|b s].
    + split; [done|]. by intros [post ?].
    + simpl. rewrite andb_true_iff, N.eqb_eq, IH. split.
      * intros [-> [post ->]]. by exists post.
      * intros [post [= -> ->]]. eauto.
Qed.

Lemma occurs_at_split (s sub : str) (j : nat) :
  occurs_at s sub j <->
  exists pre post, s = pre ++ sub ++ post /\ length pre = j.
Proof.
  unfold occurs_at. rewrite startswith_spec. split.
  - intros [Hj [post Hpost]]. exists (take j s), post. split.
    + by rewrite <- Hpost, take_drop.
    + rewrite length_take. lia.
  - intros (pre & post & -> & <-). split.
    + rewrite length_app. lia.
    + exists post. by rewrite drop_app_length.
Qed.

Lemma rfind_from_spec (s sub : str) (i acc : Z) :
  (rfind_from s sub i acc = acc /\ forall j, ~ occurs_at s sub j)
  \/ (exists j, rfind_from s sub i acc = i + Z.of_nat j
               /\ occurs_at s sub j
               /\ forall j', occurs_at s sub j' -> (j' <= j)%nat).
Proof.
  revert i acc. induction s as [|x s IH]; intros i acc.
  - simpl. destruct sub as [|a sub]; simpl.
    + right. exists 0%nat. repeat split; [lia|done|].
      intros j' [Hj' _]. simpl in Hj'. lia.
    + left. split; [done|]. intros j [_ Hj]. by rewrite drop_nil in Hj.
  - cbn [rfind_from].
    assert (Hshift : forall j, occurs_at (x :: s) sub (S j) <-> occurs_at s sub j).
    { intros j. unfold occurs_at. simpl. split; intros [? ?]; split; [lia|done|lia|done]. }
    destruct (IH (i + 1) (if startswith (x :: s) sub then i else acc))
      as [[Heq Hnone]|(j & Heq & Hj & Hmax)].
    + rewrite Heq. destruct (startswith (x :: s) sub) eqn:Hhere.
      * right. exists 0%nat. repeat split; [lia|simpl; lia|done|].
        intros [|j'] Hj'; [lia|]. apply Hshift in Hj'. by apply Hnone in Hj'.
      * left. split; [done|]. intros [|j'] [Hle Hj'].
        -- cbn [skipn] in Hj'. congruence.
        -- eapply Hnone, Hshift. by split.
    + right. exists (S j). rewrite Heq. split; [lia|]. split; [by apply Hshift|].
      intros [|j'] Hj'; [lia|]. apply Hshift, Hmax in Hj'. lia.
Qed.

(** What [extract_answer] does with a text whose last end marker is after
    [pre]. *)
Lemma extract_answer_after (pre post : str) :
  (forall j, occurs_at (pre ++ END_MARKER ++ post) END_MARKER j ->
             (j <= length pre)%nat) ->
  extract_answer (pre ++ END_MARKER ++ post) = strip post.
Proof.
  intros Hlast. unfold extract_answer, rfind, slice_from.
  destruct (rfind_from_spec (pre ++ END_MARKER ++ post) END_MARKER 0 (-1))
    as [[_ Hnone]|(j & -> & Hj & Hmax)].
  { exfalso. apply (Hnone (length pre)). apply occurs_at_split. eauto. }
  assert (j = length pre) as ->.
  { apply Nat.le_antisymm; [by apply Hlast|].
    apply Hmax, occurs_at_split. eauto. }
  destruct (Z.eqb_spec (0 + Z.of_nat (length pre)) (-1)); [lia|]. cbn [negb].
  f_equal.
  replace (Z.to_nat (0 + Z.of_nat (length pre) + Z.of_nat (length END_MARKER)))
    with (length pre + length END_MARKER)%nat by lia.
  rewrite <- drop_drop, drop_app_length. apply drop_app_length.
Qed.

Lemma strip_trimmed (s : str) : trimmed s (strip s).
Proof. split; [apply strip_split|apply strip_ends]. Qed.

(** C3. The extraction returns what follows the last occurrence of the end
    marker without the whitespace at its two ends: what it returns sits in
    that text between whitespace only, and neither starts nor ends with a
    whitespace character.  Without any occurrence it returns the generated
    text as it is.  ([extract_answer] is total: there is no input on which
    it raises.) *)
Theorem extract_answer_spec (generated_text : str) :
  (forall pre post,
     generated_text = pre ++ END_MARKER ++ post ->
     (forall pre' post', generated_text = pre' ++ END_MARKER ++ post' ->
                         (length pre' <= length pre)%nat) ->
     trimmed post (extract_answer generated_text))
  /\ ((forall pre post, generated_text <> pre ++ END_MARKER ++ post) ->
      extract_answer generated_text = generated_text).
Proof.
  split.
  - intros pre post -> Hlast. rewrite extract_answer_after; [apply strip_trimmed|].
    intros j Hj. apply occurs_at_split in Hj as (pre' & post' & Hsplit & <-).
    by apply (Hlast pre' post').
  - intros Hno. unfold extract_answer, rfind.
    destruct (rfind_from_spec generated_text END_MARKER 0 (-1))
      as [[-> Hnone]|(j & _ & Hj & _)]; [done|].
    apply occurs_at_split in Hj as (pre & post & Hsplit & _).
    by destruct (Hno pre post).
Qed.

Lemma extract_answer_spec_witness :
  trimmed (u " b ") (extract_answer (u "a[/INST] b "))
  /\ extract_answer (u "a[/INST] b ") = u "b"
  /\ extract_answer (u "plain") = u "plain".
Proof.
  split; [|split; [reflexivity|]].
  - apply (proj1 (extract_answer_spec (u "a[/INST] b ")) (u "a") (u " b ")).
    + reflexivity.
    + intros pre' post' H.
      assert (Hocc : occurs_at (u "a[/INST] b ") END_MARKER (length pre'))
        by (apply occurs_at_split; eauto).
      destruct Hocc as [Hlen Hocc].
      change (length (u "a")) with 1%nat.
      destruct (length pre') as [|[|n]]; [lia..|].
      exfalso. do 10 (destruct n as [|n]; [by vm_compute in Hocc|]).
      change (length (u "a[/INST] b ")) with 11%nat in Hlen. lia.
  - apply (proj2 (extract_answer_spec (u "plain"))).
    intros pre post H. apply (f_equal length) in H.
    rewrite !length_app in H.
    change (length (u "plain")) with 5%nat in H.
    change (length END_MARKER) with 7%nat in H. lia.
Defined.

(** ** Answer synthesizer: the guard *)

(** C4. With no retrieved entry, or with the sentinel text in the first one,
    [generate_answer] returns the fixed message and leaves the world as it
    was: the generation model is not called. *)
Theorem generate_answer_guard {V D} (E : @env V D) (question : str)
    (relevant_docs : list (@retrieved D)) (w : @world V) :
  (relevant_docs = []
   \/ exists doc rest, relevant_docs = doc :: rest
                       /\ context doc = PStr dummy_chunk) ->
  generate_answer E question relevant_docs w = (Ok NOT_FOUND, w).
Proof.
  intros [->|(doc & rest & -> & Hdoc)]; [done|].
  unfold generate_answer. by rewrite Hdoc.
Qed.

(** ** Cache validity *)

Lemma Qltb_lt (a b : Q) : Qltb a b = true <-> (a < b)%Q.
Proof.
  unfold Qltb. rewrite negb_true_iff. split.
  - intros H. apply Qnot_le_lt. intros Hle.
    apply Qle_bool_iff in Hle. congruence.
  - intros H. destruct (Qle_bool b a) eqn:Hle; [|done].
    apply Qle_bool_iff in Hle. by apply Qlt_not_le in H.
Qed.

(** C5. [check_cache_validity] answers [True] exactly when both artifacts
    exist and the chunk-metadata file is younger than the expiry window of
    24 hours; with either artifact missing it answers [False]; it never
    raises. *)
Theorem check_cache_validity_iff {V D} (E : @env V D) (w : @world V) :
  (check_cache_validity E w = Ok true <->
   exists f g, fs w !! CACHE_FILE = Some f
               /\ fs w !! FAISS_INDEX_FILE = Some g
               /\ (now E - mtime f < inject_Z 86400)%Q)
  /\ (fs w !! CACHE_FILE = None \/ fs w !! FAISS_INDEX_FILE = None ->
      check_cache_validity E w = Ok false)
  /\ (exists b, check_cache_validity E w = Ok b).
Proof.
  unfold check_cache_validity, path_exists, getmtime.
  destruct (fs w !! CACHE_FILE) as [f|], (fs w !! FAISS_INDEX_FILE) as [g|];
    simpl; repeat split; eauto.
  all: try (intros [= ?]; done); try (intros (? & ? & ? & ? & ?); done).
  all: try (intros [?|?]; done).
  - intros [= H]. apply Qltb_lt in H. eauto.
  - intros (f' & g' & [= <-] & _ & H). f_equal. by apply Qltb_lt.
Qed.

(** ** Effects of the fetch loop *)

Lemma writes_app (t1 t2 : list event) : writes (t1 ++ t2) = writes t1 ++ writes t2.
Proof.
  induction t1 as [|e t1 IH]; [done|].
  destruct e; simpl; by rewrite ?IH.
Qed.

Section Effects.

Context {V D : Type}.
Variable E : @env V D.

Lemma quiet_refl (w : @world V) : quiet w w.
Proof. split; [done|]. exists []. by rewrite app_nil_r. Qed.

Lemma quiet_trans (w1 w2 w3 : @world V) :
  quiet w1 w2 -> quiet w2 w3 -> quiet w1 w3.
Proof.
  intros [Hfs1 (t1 & Ht1 & Hw1)] [Hfs2 (t2 & Ht2 & Hw2)]. split; [congruence|].
  exists (t1 ++ t2). rewrite Ht2, Ht1, app_assoc, writes_app, Hw1, Hw2. done.
Qed.

Lemma keeps_bind {A B} (m : M (@world V) A) (f : A -> M (@world V) B) :
  keeps m -> (forall a, keeps (f a)) -> keeps (m ≫= f).
Proof.
  intros Hm Hf w. unfold mbind, M_bind. specialize (Hm w).
  destruct (m w) as [[a|e] w1]; simpl in *; [|done].
  eapply quiet_trans; [done|apply Hf].
Qed.

Lemma keepsL_bind {A B} (m : M (@loop_state V) A)
    (f : A -> M (@loop_state V) B) :
  keepsL m -> (forall a, keepsL (f a)) -> keepsL (m ≫= f).
Proof.
  intros Hm Hf st. unfold mbind, M_bind. specialize (Hm st).
  destruct (m st) as [[a|e] st1]; simpl in *; [|done].
  eapply quiet_trans; [done|apply Hf].
Qed.

Lemma keepsL_ret {A} (a : A) : keepsL (V:=V) (mret a).
Proof. intros st. apply quiet_refl. Qed.

Lemma keepsL_of_result {A} (r : result A) : keepsL (V:=V) (of_result r).
Proof. intros st. apply quiet_refl. Qed.

Lemma keepsL_append x : keepsL (V:=V) (append x).
Proof. intros st. apply quiet_refl. Qed.

Lemma keepsL_lift {A} (m : M (@world V) A) : keeps m -> keepsL (lift m).
Proof.
  intros Hm st. unfold lift. specialize (Hm (lw st)).
  by destruct (m (lw st)).
Qed.

Lemma keeps_print m : keeps (V:=V) (print m).
Proof. intros w. split; [done|]. by exists [Print m]. Qed.

Lemma keeps_requests_get r : keeps (requests_get E r).
Proof.
  intros w. unfold requests_get.
  destruct (http E _ r); (split; [done|]; by exists [Get r]).
Qed.

Ltac keeps_steps :=
  repeat first
    [ apply keepsL_ret | apply keepsL_of_result | apply keepsL_append
    | apply keepsL_lift; first [apply keeps_print | apply keeps_requests_get]
    | apply keepsL_bind; [|intros ?]
    | match goal with |- keepsL (if ?b then _ else _) => destruct b end ].

Lemma keepsL_for_chunks post chunks :
  keepsL (V:=V) (for_chunks post chunks).
Proof. induction chunks as [|chunk rest IH]; simpl; keeps_steps. apply IH. Qed.

Lemma keepsL_fetch_post post : keepsL (fetch_post E post).
Proof. unfold fetch_post. keeps_steps. apply keepsL_for_chunks. Qed.

Lemma keepsL_for_posts posts : keepsL (for_posts E posts).
Proof.
  induction posts as [|post rest IH]; simpl; [apply keepsL_ret|].
  apply keepsL_bind; [apply keepsL_fetch_post|intros _; apply IH].
Qed.

Lemma keepsL_fetch_page page : keepsL (fetch_page E page).
Proof. unfold fetch_page. keeps_steps. apply keepsL_for_posts. Qed.

Lemma fetch_loop_quiet fuel page st st' :
  fetch_loop E fuel page st = Some st' -> quiet (lw st) (lw st').
Proof.
  revert page st. induction fuel as [|fuel IH]; intros page st; [done|].
  simpl. pose proof (keepsL_fetch_page page st) as Hpage.
  destruct (fetch_page E page st) as [[[|]|e] st1]; simpl in Hpage.
  - intros H. apply IH in H. by eapply quiet_trans.
  - by intros [= <-].
  - intros [= <-]. eapply quiet_trans; [done|].
    apply (keepsL_lift _ (keeps_print _)).
Qed.

Lemma bind_after {A B} (m : M (@loop_state V) A)
    (f : A -> M (@loop_state V) B) st :
  (forall a, keepsL (f a)) ->
  quiet (lw (snd (m st))) (lw (snd ((m ≫= f) st))).
Proof.
  intros Hf. unfold mbind, M_bind.
  destruct (m st) as [[a|e] st1]; simpl; [apply Hf|apply quiet_refl].
Qed.

(** The first effect of a round of the loop is the listing request. *)
Lemma fetch_page_first page (st : @loop_state V) :
  exists t, trace (lw (snd (fetch_page E page st)))
            = trace (lw st) ++ Get (ListPosts page) :: t.
Proof.
  unfold fetch_page.
  match goal with
  | |- context [mbind ?f _] =>
    assert (Hrest : forall response, keepsL (f response));
      [|destruct (bind_after (lift (requests_get E (ListPosts page))) f st Hrest)
          as [_ (t & Ht & _)]]
  end.
  { intros response. keeps_steps. apply keepsL_for_posts. }
  exists t. rewrite Ht. unfold lift, requests_get.
  destruct (http E _ _); simpl; by rewrite <- app_assoc.
Qed.

Lemma fetch_loop_first fuel page (st st' : @loop_state V) :
  fetch_loop E fuel page st = Some st' ->
  exists t, trace (lw st') = trace (lw st) ++ Get (ListPosts page) :: t.
Proof.
  destruct fuel as [|fuel]; [done|]. simpl.
  destruct (fetch_page_first page st) as [t Ht].
  destruct (fetch_page E page st) as [[[|]|e] st1]; simpl in Ht.
  - intros H. apply fetch_loop_quiet in H as [_ (t' & Ht' & _)].
    exists (t ++ t'). rewrite Ht', Ht, <- app_assoc. done.
  - intros [= <-]. eauto.
  - intros [= <-]. simpl. eexists. rewrite Ht, <- app_assoc. done.
Qed.

End Effects.

Example sample_run_complete :
  fst <$> fetch_esa_documents (Sample.env_of (Sample.team true)) 2 Sample.no_files
  = Some (Ok ([(PStr (u "One
some text"), PDict [(u "source", PStr (u "https://cs18a.esa.io/posts/first"));
                    (u "title", PStr (u "first"));
                    (u "category", PNone); (u "tags", PList [])]);
               (PStr (u "two"),
                PDict [(u "source", PStr (u "https://cs18a.esa.io/posts/second"));
                       (u "title", PStr (u "second"));
                       (u "category", PNone); (u "tags", PList [])])],
              {| d := 1; xb := [13; 3] |})).
Proof. vm_compute. reflexivity. Qed.

(** ** Index builder *)

Section Builder.

Context {V D : Type}.
Variable E : @env V D.

Lemma fetch_esa_documents_miss fuel w w1 :
  cache_miss E w w1 ->
  fetch_esa_documents E fuel w = fetch_and_rebuild E fuel w1.
Proof.
  unfold fetch_esa_documents.
  intros [[-> ->]|(-> & e & w0 & -> & ->)]; done.
Qed.

(** Loading reads files and prints one line. *)
Lemma load_from_cache_world (w : @world V) :
  snd (load_from_cache w)
  = {| fs := fs w; trace := trace w ++ [Print MsgCacheValid] |}.
Proof.
  unfold load_from_cache, json_load, read_index, of_result, print, emit.
  unfold mbind, M_bind, mret, M_ret. simpl.
  destruct (fs w !! CACHE_FILE) as [[m [v| |]]|]; simpl; try done.
  destruct (Py.iter v); simpl; [|done].
  destruct (mapM _ _); simpl; [|done].
  destruct (fs w !! FAISS_INDEX_FILE) as [[m' [| |]]|]; done.
Qed.

Lemma cache_miss_quiet w w1 : cache_miss E w w1 -> quiet w w1.
Proof.
  intros [[_ ->]|(_ & e & w0 & Hload & ->)]; [apply quiet_refl|].
  pose proof (load_from_cache_world w) as Hw. rewrite Hload in Hw.
  simpl in Hw. subst w0. split; [done|]. simpl.
  exists [Print MsgCacheValid; Print (MsgCacheLoadError e)].
  by rewrite <- app_assoc.
Qed.

(** C1. When the fetch loop of a run ends with no pair accumulated, the
    builder returns the one sentinel chunk with metadata
    [{"source": "No Data"}] and an index holding exactly the embedding of the
    sentinel text; the files are as before and nothing was written. *)
Theorem sentinel_on_empty_fetch fuel w w1 st v :
  cache_miss E w w1 ->
  fetch_loop E fuel 1 {| lw := w1; all_documents := [] |} = Some st ->
  all_documents st = [] ->
  embed E dummy_chunk = Ok v ->
  exists w',
    fetch_esa_documents E fuel w
    = Some (Ok ([(PStr dummy_chunk, PDict [(u "source", PStr (u "No Data"))])],
                {| d := dimension E; xb := [v] |}), w')
    /\ fs w' = fs w
    /\ writes (trace w') = writes (trace w).
Proof.
  intros Hmiss Hloop Hnone Hv.
  rewrite (fetch_esa_documents_miss fuel w w1 Hmiss).
  unfold fetch_and_rebuild. rewrite Hloop, Hnone.
  unfold build_index, encode, print, emit, of_result, index_add, IndexFlatL2.
  unfold mbind, M_bind, mret, M_ret. simpl. rewrite Hv. simpl.
  rewrite Z.eqb_refl. eexists. split; [done|]. simpl.
  apply fetch_loop_quiet in Hloop. apply cache_miss_quiet in Hmiss.
  destruct (quiet_trans _ _ _ Hmiss Hloop) as [Hfs (t & Ht & Hw)].
  simpl in *. split; [done|].
  rewrite Ht, <- !app_assoc, !writes_app, Hw. simpl. by rewrite app_nil_r.
Qed.

Lemma encode_unfold texts (w : @world V) :
  encode E texts w
  = (match mapM (embed E) texts with
     | Ok vs => Ok {| rows := vs; cols := dimension E |}
     | Raise e => Raise e
     end,
     {| fs := fs w; trace := trace w ++ [Encode texts] |}).
Proof.
  unfold encode, emit, of_result, mbind, M_bind, mret, M_ret.
  by destruct (mapM (embed E) texts).
Qed.

Lemma mapM_singleton {A B} (f : A -> result B) (x : A) :
  mapM f [x] = match f x with Ok y => Ok [y] | Raise e => Raise e end.
Proof. cbn [mapM]. unfold mbind, result_bind. by destruct (f x). Qed.

Lemma dumpable_records (pairs : list (pyval * pyval)) :
  Py.dumpable (PList (map (fun '(chunk, metadata) =>
                             PDict [(u "chunk", chunk); (u "metadata", metadata)])
                          pairs))
  = storable pairs.
Proof.
  unfold storable. cbn [Py.dumpable].
  induction pairs as [|[chunk metadata] pairs IH]; [done|].
  cbn [map forallb fst snd]. rewrite IH. cbn [Py.dumpable forallb].
  change (encodable (u "chunk")) with true.
  change (encodable (u "metadata")) with true.
  cbn [andb]. by rewrite andb_true_r.
Qed.

(** What [save_to_cache] comes to: both files and a line, or the chunk file
    cut short and nothing else. *)
Lemma save_to_cache_unfold pairs ix (w : @world V) :
  save_to_cache E pairs ix w
  = if storable pairs
    then (Ok tt,
          {| fs := <[FAISS_INDEX_FILE := {| mtime := now E; data := IndexBytes ix |}]>
                   (<[CACHE_FILE := {| mtime := now E;
                                       data := JsonText (PList (map cache_record pairs)) |}]>
                    (fs w));
             trace := trace w ++ [WriteFile CACHE_FILE; WriteFile FAISS_INDEX_FILE;
                                  Print MsgSaved] |})
    else (Raise UnicodeEncodeError,
          {| fs := <[CACHE_FILE := {| mtime := now E; data := Garbage |}]> (fs w);
             trace := trace w ++ [WriteFile CACHE_FILE] |}).
Proof.
  unfold save_to_cache, json_dump. rewrite dumpable_records.
  destruct (storable pairs); unfold write_file, print, emit, of_result;
    unfold mbind, M_bind; cbn [fs trace].
  - rewrite <- !app_assoc. cbn [app].
    replace (map (fun '(chunk, metadata) =>
                    PDict [(u "chunk", chunk); (u "metadata", metadata)]) pairs)
      with (map cache_record pairs); [done|].
    apply map_ext. by intros [chunk metadata].
  - done.
Qed.

(** What the builder makes of an empty list of documents, and of any
    other. *)
Lemma build_index_empty (w : @world V) :
  build_index E [] w
  = (match embed E dummy_chunk with
     | Ok v => Ok ([sentinel_pair], {| d := dimension E; xb := [v] |})
     | Raise e => Raise e
     end,
     {| fs := fs w;
        trace := trace w ++ [Print MsgNoDocuments; Encode [dummy_chunk]] |}).
Proof.
  unfold build_index, mbind, M_bind, mret, M_ret, print, emit, of_result.
  rewrite encode_unfold, mapM_singleton. cbn [fs trace].
  rewrite <- app_assoc.
  destruct (embed E dummy_chunk) as [v|e]; [|done].
  unfold index_add, IndexFlatL2. cbn [cols rows d xb]. by rewrite Z.eqb_refl.
Qed.

Lemma build_index_docs docs (w : @world V) :
  docs <> [] ->
  build_index E docs w
  = match mapM (embed E) (map fst docs) with
    | Raise e =>
      (Raise e, {| fs := fs w; trace := trace w ++ [Encode (map fst docs)] |})
    | Ok vs =>
      let pairs := map (fun d => (PStr (fst d), snd d)) docs in
      let ix := {| d := dimension E; xb := vs |} in
      if storable pairs
      then (Ok (pairs, ix),
            {| fs := <[FAISS_INDEX_FILE := {| mtime := now E; data := IndexBytes ix |}]>
                     (<[CACHE_FILE := {| mtime := now E;
                                         data := JsonText (PList (map cache_record pairs)) |}]>
                      (fs w));
               trace := trace w ++ [Encode (map fst docs); WriteFile CACHE_FILE;
                                    WriteFile FAISS_INDEX_FILE; Print MsgSaved;
                                    Print (MsgDone (Z.of_nat (length docs)))] |})
      else (Raise UnicodeEncodeError,
            {| fs := <[CACHE_FILE := {| mtime := now E; data := Garbage |}]> (fs w);
               trace := trace w ++ [Encode (map fst docs); WriteFile CACHE_FILE] |})
    end.
Proof.
  intros Hne. destruct docs as [|doc docs]; [done|]. clear Hne.
  unfold build_index. generalize (doc :: docs). clear doc docs. intros docs.
  unfold mbind at 1 2 3 4. unfold M_bind, mret, M_ret, of_result.
  rewrite encode_unfold.
  destruct (mapM (embed E) (map fst docs)) as [vs|e]; [|done].
  unfold index_add, IndexFlatL2. cbn [cols rows d xb app]. rewrite Z.eqb_refl.
  rewrite save_to_cache_unfold. cbv zeta.
  destruct (storable _); unfold print, emit; cbn [fs trace].
  - by rewrite <- !app_assoc.
  - by rewrite <- !app_assoc.
Qed.

Lemma build_index_grows docs (w : @world V) :
  exists t, trace (snd (build_index E docs w)) = trace w ++ t.
Proof.
  destruct docs as [|doc docs].
  - rewrite build_index_empty. by eexists.
  - rewrite build_index_docs by done.
    destruct (mapM _ _); [cbv zeta; destruct (storable _)|]; by eexists.
Qed.

(** A freshly written cache loads as what was written. *)
Lemma read_records (pairs : list (pyval * pyval)) :
  mapM (fun item =>
          chunk ← Py.getitem item (u "chunk");
          metadata ← Py.getitem item (u "metadata");
          Ok (chunk, metadata)) (map cache_record pairs) = Ok pairs.
Proof.
  induction pairs as [|[chunk metadata] pairs IH]; [done|].
  cbn [map mapM]. cbn [mapM] in IH. rewrite IH. done.
Qed.

Lemma load_written pairs ix (w : @world V) f g :
  fs w !! CACHE_FILE = Some f ->
  fs w !! FAISS_INDEX_FILE = Some g ->
  data f = JsonText (PList (map cache_record pairs)) ->
  data g = IndexBytes ix ->
  fst (load_from_cache w) = Ok (pairs, ix).
Proof.
  intros Hf Hg Hdf Hdg.
  unfold load_from_cache, json_load, read_index, of_result, print, emit.
  unfold mbind at 1 2 3 4 5. unfold M_bind, mret, M_ret.
  cbn [fs trace]. rewrite Hf, Hdf. cbn [Py.iter].
  rewrite read_records. cbn [fs]. rewrite Hg. destruct g as [m dg].
  cbn [data] in Hdg. by rewrite Hdg.
Qed.

(** C6. When the cache is reported valid and loading it raises, the builder
    logs the failure and goes on with the remote fetch: the next effect is
    the listing request of page 1.  Once the fetch loop has ended the
    builder returns, and what it returns is built from what was fetched: the
    sentinel pair when nothing was, and otherwise, when the embedding and
    the saving succeed, the fetched chunks with the index of their
    embeddings, which the cache files then hold in place of the unreadable
    ones. *)
Theorem cache_load_failure_is_miss fuel w e w0 st :
  check_cache_validity E w = Ok true ->
  load_from_cache w = (Raise e, w0) ->
  fetch_loop E fuel 1
    {| lw := {| fs := fs w;
                trace := trace w ++ [Print MsgCacheValid;
                                     Print (MsgCacheLoadError e)] |};
       all_documents := [] |} = Some st ->
  exists r w' t,
    fetch_esa_documents E fuel w = Some (r, w')
    /\ trace w' = trace w ++ [Print MsgCacheValid;
                              Print (MsgCacheLoadError e);
                              Get (ListPosts 1)] ++ t
    /\ (forall v, all_documents st = [] -> embed E dummy_chunk = Ok v ->
          r = Ok ([sentinel_pair], {| d := dimension E; xb := [v] |}))
    /\ (forall vs, all_documents st <> [] ->
          mapM (embed E) (map fst (all_documents st)) = Ok vs ->
          storable (map (fun d => (PStr (fst d), snd d)) (all_documents st))
            = true ->
          r = Ok (map (fun d => (PStr (fst d), snd d)) (all_documents st),
                  {| d := dimension E; xb := vs |})
          /\ fst (load_from_cache w')
             = Ok (map (fun d => (PStr (fst d), snd d)) (all_documents st),
                   {| d := dimension E; xb := vs |})).
Proof.
  intros Hvalid Hload Hloop.
  pose proof (load_from_cache_world w) as Hw0. rewrite Hload in Hw0.
  cbn [snd] in Hw0. subst w0.
  assert (Hrun : fetch_esa_documents E fuel w
                 = Some (build_index E (all_documents st) (lw st))).
  { unfold fetch_esa_documents. rewrite Hvalid, Hload. unfold print, emit.
    cbn [snd fs trace]. rewrite <- app_assoc. cbn [app].
    unfold fetch_and_rebuild. by rewrite Hloop. }
  apply fetch_loop_first in Hloop as [t Ht]. cbn [lw trace] in Ht.
  destruct (build_index_grows (all_documents st) (lw st)) as [t' Ht'].
  destruct (build_index E (all_documents st) (lw st)) as [r w'] eqn:Hbuild.
  cbn [snd] in Ht'. exists r, w', (t ++ t').
  split; [done|]. split; [rewrite Ht', Ht, <- !app_assoc; done|]. split.
  - intros v Hnil Hv. rewrite Hnil, build_index_empty, Hv in Hbuild.
    by injection Hbuild as <- _.
  - intros vs Hdocs Hvs Hstore.
    rewrite build_index_docs, Hvs in Hbuild by done. cbv zeta in Hbuild.
    rewrite Hstore in Hbuild. injection Hbuild as <- <-. split; [done|].
    eapply load_written; cbn [fs data].
    + rewrite lookup_insert_ne by done. apply lookup_insert_eq.
    + apply lookup_insert_eq.
    + done.
    + done.
Qed.

(** *** A failing detail fetch *)

Lemma for_posts_app pre posts (st st1 : @loop_state V) :
  for_posts E pre st = (Ok tt, st1) ->
  for_posts E (pre ++ posts) st = for_posts E posts st1.
Proof.
  revert st. induction pre as [|post pre IH]; intros st; simpl.
  - by intros [= <-].
  - unfold mbind, M_bind. destruct (fetch_post E post st) as [[[]|e] st2].
    + apply IH.
    + done.
Qed.

Lemma fetch_post_fails post number (st : @loop_state V) :
  Py.getitem post (u "number") = Ok number ->
  detail_fails E (lw st) number = true ->
  fetch_post E post st
  = (Raise RequestException,
     {| lw := {| fs := fs (lw st);
                 trace := trace (lw st) ++ [Get (PostDetail number)] |};
        all_documents := all_documents st |}).
Proof.
  intros Hnumber Hfails. unfold fetch_post, detail_fails in *.
  unfold mbind, M_bind, of_result, lift, requests_get. rewrite Hnumber.
  destruct (http E _ _) as [|status_code json]; [done|].
  simpl. unfold raise_for_status. simpl. by rewrite Hfails.
Qed.

(** C7, amended. A failing detail fetch ends the fetch loop at once: no
    request follows it, neither for the remaining posts of the page nor for
    further pages; the pairs accumulated before it stay in [all_documents],
    and the loop ends normally, after one log line. *)
Theorem detail_failure_stops_fetch fuel page st posts_data pre post rest
    number st1 :
  http E (count_gets (trace (lw st))) (ListPosts page)
    = Response 200 (Some posts_data) ->
  Py.get posts_data (u "posts") (PList []) = Ok (PList (pre ++ post :: rest)) ->
  for_posts E pre
    {| lw := {| fs := fs (lw st);
                trace := trace (lw st) ++
                  [Get (ListPosts page);
                   Print (MsgPage page (Z.of_nat (length (pre ++ post :: rest))))] |};
       all_documents := all_documents st |} = (Ok tt, st1) ->
  Py.getitem post (u "number") = Ok number ->
  detail_fails E (lw st1) number = true ->
  fetch_loop E (S fuel) page st
  = Some {| lw := {| fs := fs (lw st1);
                     trace := trace (lw st1) ++
                       [Get (PostDetail number);
                        Print (MsgRequestError RequestException)] |};
            all_documents := all_documents st1 |}.
Proof.
  intros Hlist Hposts Hpre Hnumber Hfails.
  cbn [fetch_loop]. unfold fetch_page.
  unfold mbind at 1. unfold M_bind at 1. unfold lift at 1, requests_get.
  rewrite Hlist. cbn [fst negb]. change (200 =? 200) with true. cbn [negb].
  unfold mbind, M_bind, of_result, response_json. cbn [fst snd].
  rewrite Hposts.
  replace (Py.truthy (PList (pre ++ post :: rest))) with true
    by (by destruct pre).
  cbn [negb Py.len Py.iter]. unfold lift at 1, print, emit.
  cbn [fst snd lw fs trace all_documents].
  rewrite <- app_assoc. cbn [app].
  rewrite (for_posts_app _ _ _ _ Hpre). cbn [for_posts].
  unfold mbind, M_bind. rewrite (fetch_post_fails _ _ _ Hnumber Hfails).
  cbn. by rewrite <- app_assoc.
Qed.

(** *** Positional identity *)

Lemma mapM_result_Forall2 {A B} (f : A -> result B) (l : list A) (vs : list B) :
  mapM f l = Ok vs -> Forall2 (fun x v => f x = Ok v) l vs.
Proof.
  revert vs. induction l as [|x l IH]; intros vs; simpl.
  - intros [= <-]. constructor.
  - unfold mbind, result_bind. destruct (f x) as [v|] eqn:Hx; [|done].
    destruct (mapM f l) as [vs'|]; [|done].
    intros [= <-]. constructor; [done|by apply IH].
Qed.

(** The pair that [build_index] returns holds, position by position, a chunk
    text and the embedding of that text. *)
Lemma build_index_aligned docs (w w' : @world V) pairs ix :
  build_index E docs w = (Ok (pairs, ix), w') -> aligned E pairs ix.
Proof.
  unfold aligned. destruct docs as [|doc docs].
  - rewrite build_index_empty.
    destruct (embed E dummy_chunk) as [v|] eqn:Hv; [|done].
    intros [= <- <- _]. cbn [xb]. repeat constructor. eauto.
  - rewrite build_index_docs by done. generalize (doc :: docs). clear doc docs.
    intros docs.
    destruct (mapM (embed E) (map fst docs)) as [vs|] eqn:Hvs; [|done].
    apply mapM_result_Forall2 in Hvs. cbv zeta.
    destruct (storable _); [|done].
    intros [= <- <- _]. cbn [xb].
    apply Forall2_fmap_l in Hvs. apply Forall2_fmap_l.
    eapply Forall2_impl; [done|]. intros [text md] v Hv. cbn in *. eauto.
Qed.

(** *** The cache round trip *)

Lemma fetch_esa_documents_aligned fuel (w w' : @world V) pairs ix :
  (check_cache_validity E w = Ok true ->
   forall cached cix w0,
     load_from_cache w = (Ok (cached, cix), w0) -> aligned E cached cix) ->
  fetch_esa_documents E fuel w = Some (Ok (pairs, ix), w') ->
  aligned E pairs ix.
Proof.
  intros Hw. unfold fetch_esa_documents.
  assert (Hrebuild : forall w1,
    fetch_and_rebuild E fuel w1 = Some (Ok (pairs, ix), w') ->
    aligned E pairs ix).
  { intros w1. unfold fetch_and_rebuild.
    destruct (fetch_loop _ _ _ _) as [st|]; [|done]. intros [= Hbuild].
    by apply build_index_aligned in Hbuild. }
  destruct (check_cache_validity E w) as [[|]|e] eqn:Hvalid; [| |done].
  - destruct (load_from_cache w) as [[[cached cix]|e] w0] eqn:Hload.
    + intros [= <- <- _]. by apply (Hw eq_refl cached cix w0).
    + apply Hrebuild.
  - apply Hrebuild.
Qed.

(** C9, amended. A pair that the builder returns is aligned, as many vectors
    as chunks and at every position of the index the embedding of the text
    that [documents] holds there, next to its metadata in [metadatas],
    provided that the pair that a valid cache loads as, if it loads, is
    aligned.  Nothing is asked of a cache that is missing, out of date or
    unreadable: the pair is then built anew. *)
Theorem returned_pair_aligned fuel (w w' : @world V) pairs ix :
  (check_cache_validity E w = Ok true ->
   forall cached cix w0,
     load_from_cache w = (Ok (cached, cix), w0) -> aligned E cached cix) ->
  fetch_esa_documents E fuel w = Some (Ok (pairs, ix), w') ->
  length (xb ix) = length pairs
  /\ forall i, 0 <= i < ntotal ix ->
       exists text md v,
         pairs !! Z.to_nat i = Some (PStr text, md)
         /\ list_getitem (documents (init_rag (pairs, ix))) i = Ok (PStr text)
         /\ list_getitem (metadatas (init_rag (pairs, ix))) i = Ok md
         /\ list_getitem (xb ix) i = Ok v
         /\ embed E text = Ok v.
Proof.
  intros Hw Hrun.
  pose proof (fetch_esa_documents_aligned fuel w w' pairs ix Hw Hrun) as Hal.
  unfold aligned in Hal.
  split; [symmetry; by eapply Forall2_length|].
  intros i Hi. unfold ntotal in Hi.
  destruct (lookup_lt_is_Some_2 (xb ix) (Z.to_nat i)) as [v Hv]; [lia|].
  destruct (Forall2_lookup_r _ _ _ _ _ Hal Hv)
    as ([c md] & Hpair & text & Hc & Hembed).
  simpl in Hc. subst c. exists text, md, v.
  unfold list_getitem, init_rag. cbn [documents metadatas fst snd].
  rewrite !list_lookup_fmap, Hpair, Hv. done.
Qed.

End Builder.

(** ** The theorems at work on sample runs *)

Lemma sentinel_on_empty_fetch_witness :
  exists w',
    fetch_esa_documents (Sample.env_of Sample.empty_team) 1 Sample.no_files
    = Some (Ok ([(PStr dummy_chunk, PDict [(u "source", PStr (u "No Data"))])],
                {| d := 1; xb := [18] |}), w')
    /\ fs w' = fs Sample.no_files
    /\ writes (trace w') = writes (trace Sample.no_files).
Proof.
  eapply (sentinel_on_empty_fetch (Sample.env_of Sample.empty_team) 1
            Sample.no_files Sample.no_files _ 18).
  - left. split; reflexivity.
  - vm_compute. reflexivity.
  - reflexivity.
  - reflexivity.
Defined.

Lemma generate_answer_guard_witness :
  generate_answer (Sample.env_of Sample.empty_team) (u "anything")
    [{| context := PStr dummy_chunk; source := PStr (u "No Data");
        distance := 0 |}] Sample.no_files
  = (Ok NOT_FOUND, Sample.no_files).
Proof.
  apply (generate_answer_guard (Sample.env_of Sample.empty_team)).
  right. eexists _, _. split; reflexivity.
Defined.

Lemma check_cache_validity_iff_witness :
  check_cache_validity (Sample.env_of Sample.empty_team)
    (Sample.cached Garbage Garbage) = Ok true
  /\ check_cache_validity (Sample.env_of Sample.empty_team) Sample.no_files
     = Ok false.
Proof.
  split.
  - apply (proj1 (check_cache_validity_iff _ _)).
    eexists _, _. split; [reflexivity|]. split; [reflexivity|].
    vm_compute. reflexivity.
  - apply (proj1 (proj2 (check_cache_validity_iff _ _))). left. reflexivity.
Defined.

Lemma cache_load_failure_is_miss_witness :
  exists r w' t,
    fetch_esa_documents (Sample.env_of (Sample.team true)) 2
      (Sample.cached Garbage Garbage) = Some (r, w')
    /\ trace w' = [Print MsgCacheValid;
                   Print (MsgCacheLoadError JSONDecodeError);
                   Get (ListPosts 1)] ++ t
    /\ (exists md1 md2,
          r = Ok ([(PStr (u "One
some text"), md1); (PStr (u "two"), md2)], {| d := 1; xb := [13; 3] |}))
    /\ fst (load_from_cache w') = r.
Proof.
  destruct (fetch_loop (Sample.env_of (Sample.team true)) 2 1
              {| lw := {| fs := fs (Sample.cached Garbage Garbage);
                          trace := [Print MsgCacheValid;
                                    Print (MsgCacheLoadError JSONDecodeError)] |};
                 all_documents := [] |}) as [st|] eqn:Hloop;
    [|by vm_compute in Hloop].
  edestruct (cache_load_failure_is_miss (Sample.env_of (Sample.team true)) 2
               (Sample.cached Garbage Garbage) JSONDecodeError
               {| fs := fs (Sample.cached Garbage Garbage);
                  trace := [Print MsgCacheValid] |} st)
    as (r & w' & t & Hrun & Htr & _ & Hbuilt);
    [reflexivity|reflexivity|exact Hloop|].
  vm_compute in Hloop. injection Hloop as <-.
  destruct (Hbuilt [13; 3]) as [Hr Hl]; [done|reflexivity|reflexivity|].
  exists r, w', t. split; [exact Hrun|]. split; [exact Htr|].
  split; [|by rewrite Hl, Hr]. rewrite Hr. by eexists _, _.
Defined.

(** C7, as stated, fails: the detail of the second post gets no answer, and
    the builder still returns, with the chunk of the first post indexed and
    written to the cache. *)
Lemma failed_detail_keeps_batch :
  detail_fails (Sample.env_of (Sample.team false))
    {| fs := ∅;
       trace := [Get (ListPosts 1); Print (MsgPage 1 2);
                 Get (PostDetail (PInt 1))] |} (PInt 2) = true
  /\ exists md w',
       fetch_esa_documents (Sample.env_of (Sample.team false)) 1 Sample.no_files
       = Some (Ok ([(PStr (u "One
some text"), md)], {| d := 1; xb := [13] |}), w')
       /\ trace w'
          = [Get (ListPosts 1); Print (MsgPage 1 2);
             Get (PostDetail (PInt 1)); Get (PostDetail (PInt 2));
             Print (MsgRequestError RequestException);
             Encode [u "One
some text"];
             WriteFile CACHE_FILE; WriteFile FAISS_INDEX_FILE;
             Print MsgSaved; Print (MsgDone 1)].
Proof.
  split; [reflexivity|]. eexists _, _. split; vm_compute; reflexivity.
Qed.

Lemma detail_failure_stops_fetch_witness :
  exists st1,
    fetch_loop (Sample.env_of (Sample.team false)) 1 1
      {| lw := Sample.no_files; all_documents := [] |}
    = Some {| lw := {| fs := fs (lw st1);
                       trace := trace (lw st1) ++
                         [Get (PostDetail (PInt 2));
                          Print (MsgRequestError RequestException)] |};
              all_documents := all_documents st1 |}
    /\ length (all_documents st1) = 1%nat.
Proof.
  eexists. split.
  - eapply (detail_failure_stops_fetch (Sample.env_of (Sample.team false)) 0 1
              {| lw := Sample.no_files; all_documents := [] |} _
              [Sample.post 1 "first"] (Sample.post 2 "second") [] (PInt 2)).
    + reflexivity.
    + reflexivity.
    + vm_compute. reflexivity.
    + reflexivity.
    + reflexivity.
  - reflexivity.
Defined.

(** C9, as stated, fails: a cache whose two artifacts disagree is returned as
    it is, here two chunks with an index of one vector. *)
Lemma cached_pair_misaligned :
  exists pairs ix w',
    fetch_esa_documents (Sample.env_of (Sample.team true)) 1
      (Sample.cached (JsonText (PList [Sample.record "a"; Sample.record "b"]))
                     (IndexBytes {| d := 1; xb := [7] |}))
    = Some (Ok (pairs, ix), w')
    /\ length pairs = 2%nat
    /\ length (xb ix) = 1%nat.
Proof. eexists _, _, _. split; [vm_compute; reflexivity|done]. Qed.

Lemma returned_pair_aligned_witness :
  match fetch_esa_documents (Sample.env_of (Sample.team true)) 2
          (Sample.cached
             (JsonText (PList (map cache_record
                [(PStr (u "ab"), PDict [(u "source", PStr (u "somewhere"))])])))
             (IndexBytes {| d := 1; xb := [2] |})) with
  | Some (Ok (pairs, ix), _) => length (xb ix) = length pairs
  | _ => False
  end
  /\ match fetch_esa_documents (Sample.env_of (Sample.team true)) 2
            (Sample.cached Garbage Garbage) with
     | Some (Ok (pairs, ix), _) => length (xb ix) = length pairs
     | _ => False
     end.
Proof.
  split.
  - destruct (fetch_esa_documents _ 2 _) as [[[[pairs ix]|e] w']|] eqn:Hrun.
    + eapply (returned_pair_aligned (Sample.env_of (Sample.team true)) 2 _ w'
                pairs ix); [|exact Hrun].
      intros _ cached cix w0 Hload. vm_compute in Hload.
      injection Hload as <- <- _.
      constructor; [|constructor]. exists (u "ab"). split; reflexivity.
    + vm_compute in Hrun. discriminate Hrun.
    + vm_compute in Hrun. discriminate Hrun.
  - destruct (fetch_esa_documents _ 2 _) as [[[[pairs ix]|e] w']|] eqn:Hrun.
    + eapply (returned_pair_aligned (Sample.env_of (Sample.team true)) 2 _ w'
                pairs ix); [|exact Hrun].
      intros _ cached cix w0 Hload. vm_compute in Hload. discriminate Hload.
    + vm_compute in Hrun. discriminate Hrun.
    + vm_compute in Hrun. discriminate Hrun.
Defined.

(** * Further properties *)

(** ** Chunker: shape and edge cases *)

Lemma window_length (t : str) (n k : nat) :
  length (take n (drop (k * n) t)) = Nat.min n (length t - k * n).
Proof. by rewrite length_take, length_drop. Qed.

(** The windows that the splitter cuts: each starts inside the text, and
    each but the last fits in whole. *)
Lemma splitter_windows (t : str) (n : Z) :
  0 < n -> t <> [] ->
  exists m,
    simple_text_splitter t n
    = Ok (map (fun k => take (Z.to_nat n) (drop (k * Z.to_nat n) t)) (seq 0 m))
    /\ Z.of_nat m = (Z.of_nat (length t) + n - 1) / n
    /\ forall k, (k < m)%nat ->
         (k * Z.to_nat n < length t)%nat
         /\ ((S k < m)%nat -> (S k * Z.to_nat n <= length t)%nat).
Proof.
  intros Hn Ht. eexists. split; [apply (splitter_nonempty t n Hn Ht)|].
  set (len := Z.of_nat (length t)).
  assert (Hlen : 0 < len) by (subst len; destruct t; [done|simpl; lia]).
  set (q := (len - 1) / n).
  assert (Hq0 : 0 <= q) by (apply Z.div_pos; lia).
  assert (Hq1 : n * q <= len - 1) by (apply Z.mul_div_le; lia).
  split.
  - replace (len + n - 1) with (len - 1 + 1 * n) by lia.
    rewrite Z.div_add by lia. fold q. lia.
  - intros k Hk. subst len. split; [nia|]. intros Hk'. nia.
Qed.

(** X1. For a positive chunk size the splitter returns
    [ceil(len(text) / chunk_size)] chunks, none of them empty, and all but
    the last of exactly [chunk_size] characters. *)
Theorem splitter_shape (t : str) (n : Z) :
  0 < n ->
  exists chunks,
    simple_text_splitter t n = Ok chunks
    /\ Z.of_nat (length chunks) = (Z.of_nat (length t) + n - 1) / n
    /\ Forall (fun c => c <> []) chunks
    /\ forall i c, chunks !! i = Some c -> (S i < length chunks)%nat ->
                   Z.of_nat (length c) = n.
Proof.
  intros Hn. destruct (decide (t = [])) as [->|Ht].
  { exists []. split; [done|]. split.
    - simpl. symmetry. apply Z.div_small. lia.
    - split; [constructor|]. by intros i c Hc. }
  destruct (splitter_windows t n Hn Ht) as (m & Hrun & Hm & Hwin).
  eexists. split; [exact Hrun|].
  rewrite length_map, length_seq. split; [done|]. split.
  - apply Forall_forall. intros c Hc. apply list_elem_of_In in Hc.
    apply in_map_iff in Hc as (k & <- & Hk). apply in_seq in Hk.
    destruct (Hwin k) as [Hstart _]; [lia|].
    intros Hnil. apply (f_equal length) in Hnil.
    rewrite window_length in Hnil. simpl in Hnil. lia.
  - intros i c Hc Hi. rewrite list_lookup_fmap in Hc.
    destruct (seq 0 _ !! i) as [k|] eqn:Hk; [|done].
    apply lookup_seq in Hk as [-> Hk]. injection Hc as <-.
    destruct (Hwin i) as [_ Hfit]; [lia|]. specialize (Hfit Hi).
    rewrite window_length. simpl in *. lia.
Qed.

Lemma splitter_shape_witness :
  exists chunks,
    simple_text_splitter (u "abcdefg") 3 = Ok chunks
    /\ Z.of_nat (length chunks) = 3.
Proof.
  destruct (splitter_shape (u "abcdefg") 3) as (chunks & H1 & H2 & _); [lia|].
  exists chunks. split; [exact H1|exact H2].
Defined.

(** X2. A chunk size of zero raises [ValueError] on any non-empty text, and
    a negative one returns no chunk at all: the text is dropped without an
    error. *)
Theorem splitter_bad_size (t : str) (n : Z) :
  t <> [] ->
  simple_text_splitter t 0 = Raise ValueError
  /\ (n < 0 -> simple_text_splitter t n = Ok []).
Proof.
  intros Ht. destruct t as [|c t]; [done|]. split; [done|].
  intros Hn. unfold simple_text_splitter, Seq.range, Seq.range_len.
  destruct (Z.eqb_spec n 0); [lia|].
  destruct (Z.ltb_spec 0 n); [lia|].
  destruct (Z.ltb_spec (Z.of_nat (length (c :: t))) 0); [lia|]. done.
Qed.

Lemma splitter_bad_size_witness :
  simple_text_splitter (u "abc") 0 = Raise ValueError
  /\ simple_text_splitter (u "abc") (-2) = Ok [].
Proof.
  destruct (splitter_bad_size (u "abc") (-2)) as [H0 Hneg]; [done|].
  split; [exact H0|apply Hneg; lia].
Defined.

(** ** Text normalizer: the shape of the output *)

(** X17. The output of [clean_markdown] is never longer than its input, has
    no whitespace at either end, and has no two newlines in a row. *)
Theorem clean_markdown_shape (x : str) :
  (length (clean_markdown x) <= length x)%nat
  /\ (forall c t, clean_markdown x = c :: t -> isspace c = false)
  /\ (forall t c, clean_markdown x = t ++ [c] -> isspace c = false)
  /\ nodbl (clean_markdown x).
Proof.
  split; [|split; [|split]].
  - unfold clean_markdown.
    etransitivity; [apply strip_length|].
    etransitivity; [apply sub_newlines_length|].
    do 3 (etransitivity; [apply sub_erase_length|]).
    apply sub_erase_length.
  - apply strip_ends.
  - apply strip_ends.
  - apply clean_markdown_nodbl.
Qed.

Lemma clean_markdown_shape_witness :
  (length (clean_markdown (u "  # Title

text  ")) <= length (u "  # Title

text  "))%nat.
Proof. apply (proj1 (clean_markdown_shape _)). Defined.

(** ** Cache store: one run saves, the next one starts *)

Section Reuse.

Context {V D : Type}.
Variables E E' : @env V D.

Lemma check_saved pairs ix (w : @world V) :
  storable pairs = true ->
  check_cache_validity E' (snd (save_to_cache E pairs ix w))
  = Ok (Qltb (now E' - now E) CACHE_EXPIRY_SECONDS).
Proof.
  intros Hstore. rewrite save_to_cache_unfold, Hstore.
  unfold check_cache_validity, path_exists, getmtime. cbn [snd fs].
  rewrite lookup_insert_eq, lookup_insert_ne, lookup_insert_eq by done.
  done.
Qed.

(** X3. What one run saved, a later run returns as it was saved, pairs and
    index, without any request or embedding, as long as its clock reads less
    than 24 hours after the save; from 24 hours on it fetches and rebuilds.
    This is so when every string of the pairs can be encoded in UTF-8.
    Otherwise the save raises [UnicodeEncodeError], and the later run finds
    no cache to return: it fetches and rebuilds, whatever its clock reads. *)
Theorem cache_reuse fuel pairs ix (w : @world V) :
  (storable pairs = true ->
   fst (save_to_cache E pairs ix w) = Ok tt
   /\ ((now E' - now E < inject_Z 86400)%Q ->
       fetch_esa_documents E' fuel (snd (save_to_cache E pairs ix w))
       = Some (Ok (pairs, ix),
               {| fs := fs (snd (save_to_cache E pairs ix w));
                  trace := trace (snd (save_to_cache E pairs ix w))
                           ++ [Print MsgCacheValid] |}))
   /\ (~ (now E' - now E < inject_Z 86400)%Q ->
       fetch_esa_documents E' fuel (snd (save_to_cache E pairs ix w))
       = fetch_and_rebuild E' fuel (snd (save_to_cache E pairs ix w))))
  /\ (storable pairs = false ->
      fst (save_to_cache E pairs ix w) = Raise UnicodeEncodeError
      /\ exists w2,
           cache_miss E' (snd (save_to_cache E pairs ix w)) w2
           /\ fetch_esa_documents E' fuel (snd (save_to_cache E pairs ix w))
              = fetch_and_rebuild E' fuel w2).
Proof.
  split; intros Hstore.
  - pose proof (check_saved pairs ix w Hstore) as Hcheck.
    split; [by rewrite save_to_cache_unfold, Hstore|].
    set (w1 := snd (save_to_cache E pairs ix w)) in *.
    split; intros Hage; unfold fetch_esa_documents; rewrite Hcheck.
    + apply Qltb_lt in Hage. unfold CACHE_EXPIRY_SECONDS.
      change (inject_Z (24 * 60 * 60)) with (inject_Z 86400). rewrite Hage.
      assert (Hload : fst (load_from_cache w1) = Ok (pairs, ix)).
      { eapply load_written.
        - unfold w1. rewrite save_to_cache_unfold, Hstore. cbn [snd fs].
          rewrite lookup_insert_ne by done. apply lookup_insert_eq.
        - unfold w1. rewrite save_to_cache_unfold, Hstore. cbn [snd fs].
          apply lookup_insert_eq.
        - done.
        - done. }
      pose proof (load_from_cache_world w1) as Hworld.
      destruct (load_from_cache w1) as [r w2]. cbn [fst snd] in *.
      by subst r w2.
    + destruct (Qltb _ _) eqn:Hlt; [|done].
      apply Qltb_lt in Hlt. done.
  - split; [by rewrite save_to_cache_unfold, Hstore|].
    assert (Hmiss : exists w2,
              cache_miss E' (snd (save_to_cache E pairs ix w)) w2).
    { rewrite save_to_cache_unfold, Hstore. cbn [snd].
      match goal with |- exists w2, cache_miss E' ?w0 w2 => set (w1 := w0) end.
      destruct (check_cache_validity E' w1) as [[|]|e] eqn:Hcheck.
      - eexists. right. split; [done|]. exists JSONDecodeError. eexists.
        split; [|done].
        unfold load_from_cache, json_load, print, emit.
        unfold mbind at 1 2. unfold M_bind. unfold w1. cbn [fs trace].
        by rewrite lookup_insert_eq.
      - exists w1. by left.
      - exfalso. revert Hcheck. unfold check_cache_validity, path_exists, getmtime.
        unfold w1. cbn [fs]. rewrite lookup_insert_eq.
        by destruct (_ !! FAISS_INDEX_FILE). }
    destruct Hmiss as [w2 Hmiss]. exists w2. split; [done|].
    by apply fetch_esa_documents_miss.
Qed.

End Reuse.

Lemma cache_reuse_witness :
  fetch_esa_documents (Sample.env_of Sample.empty_team) 1
    (snd (save_to_cache (Sample.env_of Sample.empty_team)
            [(PStr (u "ab"), PDict [(u "source", PStr (u "s"))])]
            {| d := 1; xb := [2] |} Sample.no_files))
  = Some (Ok ([(PStr (u "ab"), PDict [(u "source", PStr (u "s"))])],
              {| d := 1; xb := [2] |}),
          {| fs := fs (snd (save_to_cache (Sample.env_of Sample.empty_team)
                         [(PStr (u "ab"), PDict [(u "source", PStr (u "s"))])]
                         {| d := 1; xb := [2] |} Sample.no_files));
             trace := [WriteFile CACHE_FILE; WriteFile FAISS_INDEX_FILE;
                       Print MsgSaved; Print MsgCacheValid] |})
  /\ fst (save_to_cache (Sample.env_of Sample.empty_team)
            [(PStr [55357%N], PDict [])] {| d := 1; xb := [2] |}
            Sample.no_files)
     = Raise UnicodeEncodeError.
Proof.
  split.
  - destruct (proj1 (cache_reuse (Sample.env_of Sample.empty_team)
                       (Sample.env_of Sample.empty_team) 1
                       [(PStr (u "ab"), PDict [(u "source", PStr (u "s"))])]
                       {| d := 1; xb := [2] |} Sample.no_files) eq_refl)
      as (_ & Hreuse & _).
    apply Hreuse. vm_compute. reflexivity.
  - apply (proj2 (cache_reuse (Sample.env_of Sample.empty_team)
                    (Sample.env_of Sample.empty_team) 1
                    [(PStr [55357%N], PDict [])]
                    {| d := 1; xb := [2] |} Sample.no_files) eq_refl).
Defined.

(** ** Cache store: when loading succeeds *)

Lemma mapM_Forall2_result {A B} (f : A -> result B) (l : list A) (vs : list B) :
  Forall2 (fun x v => f x = Ok v) l vs -> mapM f l = Ok vs.
Proof.
  induction 1 as [|x v l vs Hx Hl IH]; [done|]. simpl.
  unfold mbind, result_bind. rewrite Hx.
  match goal with
  | |- match ?m with _ => _ end = _ =>
    replace m with (Ok vs) by (symmetry; exact IH)
  end.
  done.
Qed.

Section Load.

Context {V : Type}.

Lemma read_items (items : list pyval) (pairs : list (pyval * pyval)) :
  mapM (fun item =>
          chunk ← Py.getitem item (u "chunk");
          metadata ← Py.getitem item (u "metadata");
          Ok (chunk, metadata)) items = Ok pairs
  <-> Forall2 record_of items pairs.
Proof.
  split.
  - intros H. apply mapM_result_Forall2 in H.
    eapply Forall2_impl; [exact H|]. intros item [c md] Hitem.
    cbv beta in Hitem. unfold mbind, result_bind in Hitem.
    unfold record_of. cbn [fst snd].
    destruct (Py.getitem item (u "chunk")); [|done].
    destruct (Py.getitem item (u "metadata")); [|done].
    by injection Hitem as -> ->.
  - intros H. apply mapM_Forall2_result.
    eapply Forall2_impl; [exact H|]. intros item [c md] [Hc Hmd].
    cbn [fst snd] in *. cbv beta. unfold mbind, result_bind.
    by rewrite Hc, Hmd.
Qed.

(** X18. [load_from_cache] succeeds exactly when the cache file holds JSON
    that can be iterated, every item of it has a chunk and a metadata entry
    (these make the pairs, in order), and the index file holds an index; the
    files are not touched and one line is printed. *)
Theorem load_from_cache_ok_iff (w w' : @world V) pairs ix :
  load_from_cache w = (Ok (pairs, ix), w')
  <-> (exists f g cached items,
         fs w !! CACHE_FILE = Some f
         /\ data f = JsonText cached
         /\ Py.iter cached = Ok items
         /\ Forall2 record_of items pairs
         /\ fs w !! FAISS_INDEX_FILE = Some g
         /\ data g = IndexBytes ix)
      /\ w' = {| fs := fs w; trace := trace w ++ [Print MsgCacheValid] |}.
Proof.
  split.
  - intros Hrun. pose proof (load_from_cache_world w) as Hw.
    rewrite Hrun in Hw. cbn [snd] in Hw. split; [|done]. revert Hrun.
    unfold load_from_cache, json_load, read_index, of_result, print, emit.
    unfold mbind at 1 2 3 4 5. unfold M_bind, mret, M_ret. cbn [fs trace].
    destruct (fs w !! CACHE_FILE) as [f|] eqn:Hf; [|done].
    destruct (data f) as [cached| |] eqn:Hd; [|done..].
    destruct (Py.iter cached) as [items|] eqn:Hiter; [|done].
    destruct (mapM _ items) as [ps|] eqn:Hmap; [|done].
    apply read_items in Hmap.
    cbn [fs].
    destruct (fs w !! FAISS_INDEX_FILE) as [[mt dg]|] eqn:Hg; [|done].
    destruct dg as [|ix'|]; [done| |done].
    intros [= <- <-]. exists f, {| mtime := mt; data := IndexBytes ix' |}.
    eauto 10.
  - intros [(f & g & cached & items & Hf & Hd & Hiter & Hrec & Hg & Hdg) ->].
    apply read_items in Hrec.
    unfold load_from_cache, json_load, read_index, of_result, print, emit.
    unfold mbind at 1 2 3 4 5. unfold M_bind, mret, M_ret. cbn [fs trace].
    rewrite Hf, Hd, Hiter, Hrec. cbn [fs]. rewrite Hg. destruct g as [mt dg].
    cbn [data] in Hdg. by rewrite Hdg.
Qed.

End Load.

Lemma load_from_cache_ok_iff_witness :
  load_from_cache
    (Sample.cached (JsonText (PList [Sample.record "a"]))
                   (IndexBytes {| d := 1; xb := [7] |}))
  = (Ok ([(PStr (u "a"), PDict [(u "source", PStr (u "somewhere"))])],
         {| d := 1; xb := [7] |}),
     {| fs := fs (Sample.cached (JsonText (PList [Sample.record "a"]))
                                (IndexBytes {| d := 1; xb := [7] |}));
        trace := [Print MsgCacheValid] |}).
Proof.
  apply (proj2 (load_from_cache_ok_iff _ _ _ _)). split; [|reflexivity].
  eexists _, _, _, _. split; [reflexivity|]. split; [reflexivity|].
  split; [reflexivity|]. split; [|split; reflexivity].
  constructor; [|constructor]. split; reflexivity.
Defined.

(** ** Corpus fetcher: what the loop accumulates *)

Section Accumulate.

Context {V D : Type}.
Variable E : @env V D.
Variable P : str * pyval -> Prop.

Lemma appends_refl (st : @loop_state V) : appends P st st.
Proof. exists []. by rewrite app_nil_r. Qed.

Lemma appends_trans (st1 st2 st3 : @loop_state V) :
  appends P st1 st2 -> appends P st2 st3 -> appends P st1 st3.
Proof.
  intros (n1 & H1 & Hn1) (n2 & H2 & Hn2). exists (n1 ++ n2).
  rewrite H2, H1, app_assoc. split; [done|]. by apply Forall_app.
Qed.

Lemma growsL_ret {A} (a : A) : growsL (V:=V) P (mret a).
Proof. intros st. apply appends_refl. Qed.

Lemma growsL_of_result {A} (r : result A) : growsL (V:=V) P (of_result r).
Proof. intros st. apply appends_refl. Qed.

Lemma growsL_lift {A} (m : M (@world V) A) : growsL P (lift m).
Proof.
  intros st. unfold lift. destruct (m (lw st)). exists [].
  by rewrite app_nil_r.
Qed.

Lemma growsL_append x : P x -> growsL (V:=V) P (append x).
Proof. intros Hx st. exists [x]. split; [done|by constructor]. Qed.

Lemma growsL_bind {A B} (m : M (@loop_state V) A)
    (f : A -> M (@loop_state V) B) :
  growsL P m -> (forall a, growsL P (f a)) -> growsL P (m ≫= f).
Proof.
  intros Hm Hf st. unfold mbind, M_bind. specialize (Hm st).
  destruct (m st) as [[a|e] st1]; simpl in *; [|done].
  eapply appends_trans; [done|apply Hf].
Qed.

(** Binding a pure result: the continuation only runs on what the result
    is. *)
Lemma growsL_bind_result {A B} (r : result A) (f : A -> M (@loop_state V) B) :
  (forall a, r = Ok a -> growsL P (f a)) -> growsL P (of_result r ≫= f).
Proof.
  intros Hf st. unfold mbind, M_bind, of_result.
  destruct r as [a|e]; simpl; [by apply Hf|apply appends_refl].
Qed.

End Accumulate.

Section Fetched.

Context {V D : Type}.
Variable E : @env V D.

Lemma splitter_fetched (body : str) chunks :
  simple_text_splitter (clean_markdown body) 500 = Ok chunks ->
  Forall fetched_text chunks.
Proof.
  destruct (decide (clean_markdown body = [])) as [Hnil|Hne].
  { rewrite Hnil. intros [= <-]. constructor. }
  destruct (splitter_windows (clean_markdown body) 500) as (m & -> & _ & Hwin);
    [lia|done|].
  intros [= <-]. apply Forall_forall. intros c Hc. apply list_elem_of_In in Hc.
  apply in_map_iff in Hc as (k & <- & Hk). apply in_seq in Hk.
  destruct (Hwin k) as [Hstart _]; [lia|]. split; [|split].
  - intros Hempty. apply (f_equal length) in Hempty.
    rewrite window_length in Hempty. cbn [length] in Hempty.
    unfold str, char in *. lia.
  - rewrite length_take. lia.
  - apply Forall_take, Forall_drop, Forall_and.
    split; [apply clean_markdown_no_hash|apply clean_markdown_plain].
Qed.

Lemma growsL_for_chunks post chunks :
  Forall fetched_text chunks ->
  growsL (V:=V) fetched_pair (for_chunks post chunks).
Proof.
  induction 1 as [|chunk rest Hchunk Hrest IH]; cbn [for_chunks].
  { apply growsL_ret. }
  do 4 (apply growsL_bind; [apply growsL_of_result|intros ?]).
  apply growsL_bind; [|intros _; apply IH].
  apply growsL_append. split; [done|]. by eexists _, _, _, _.
Qed.

Lemma growsL_fetch_post post : growsL fetched_pair (fetch_post E post).
Proof.
  unfold fetch_post.
  apply growsL_bind; [apply growsL_of_result|intros post_number].
  apply growsL_bind; [apply growsL_lift|intros detail_response].
  apply growsL_bind; [apply growsL_of_result|intros _].
  apply growsL_bind; [apply growsL_of_result|intros post_detail].
  apply growsL_bind; [apply growsL_of_result|intros body_md].
  apply growsL_bind_result. intros plain_text Hplain.
  apply growsL_bind_result. intros chunks Hchunks.
  apply growsL_for_chunks.
  destruct body_md; try done. injection Hplain as <-.
  by eapply splitter_fetched.
Qed.

Lemma growsL_for_posts posts : growsL fetched_pair (for_posts E posts).
Proof.
  induction posts as [|post rest IH]; cbn [for_posts]; [apply growsL_ret|].
  apply growsL_bind; [apply growsL_fetch_post|intros _; apply IH].
Qed.

Lemma growsL_fetch_page page : growsL fetched_pair (fetch_page E page).
Proof.
  unfold fetch_page.
  apply growsL_bind; [apply growsL_lift|intros response].
  destruct (negb _).
  - repeat first [ apply growsL_ret | apply growsL_of_result | apply growsL_lift
                 | apply growsL_bind; [|intros ?] ].
  - apply growsL_bind; [apply growsL_of_result|intros posts_data].
    apply growsL_bind; [apply growsL_of_result|intros posts].
    destruct (negb _); [apply growsL_ret|].
    apply growsL_bind; [apply growsL_of_result|intros n].
    apply growsL_bind; [apply growsL_lift|intros _].
    apply growsL_bind; [apply growsL_of_result|intros items].
    apply growsL_bind; [apply growsL_for_posts|intros _].
    apply growsL_bind; [apply growsL_of_result|intros next_page].
    destruct (Py.is_none next_page); apply growsL_ret.
Qed.

Lemma fetch_loop_grows fuel page (st st' : @loop_state V) :
  fetch_loop E fuel page st = Some st' -> appends fetched_pair st st'.
Proof.
  revert page st. induction fuel as [|fuel IH]; intros page st; [done|].
  cbn [fetch_loop]. pose proof (growsL_fetch_page page st) as Hpage.
  destruct (fetch_page E page st) as [[[|]|e] st1]; cbn [snd] in Hpage.
  - intros H. apply IH in H. by eapply appends_trans.
  - by intros [= <-].
  - intros [= <-]. destruct Hpage as (new & Hnew & Hgood).
    exists new. split; [exact Hnew|done].
Qed.

(** X4. Whatever the remote side answers, the fetch loop only appends to
    [all_documents], and every pair it appends has a non-empty chunk of at
    most 500 characters without [#], [*], [_] or [`], with a metadata
    dictionary of exactly the keys source, title, category and tags; the
    files stay as they are. *)
Theorem fetch_loop_appends fuel page (st st' : @loop_state V) :
  fetch_loop E fuel page st = Some st' ->
  (exists new,
     all_documents st' = all_documents st ++ new
     /\ Forall fetched_pair new)
  /\ fs (lw st') = fs (lw st).
Proof.
  intros Hloop. split.
  - by apply fetch_loop_grows in Hloop.
  - by apply fetch_loop_quiet in Hloop as [Hfs _].
Qed.

End Fetched.

Lemma fetch_loop_appends_witness :
  exists st',
    fetch_loop (Sample.env_of (Sample.team true)) 2 1
      {| lw := Sample.no_files; all_documents := [] |} = Some st'
    /\ (exists new, all_documents st' = [] ++ new /\ Forall fetched_pair new)
    /\ fs (lw st') = ∅.
Proof.
  eexists. split; [vm_compute; reflexivity|].
  eapply (fetch_loop_appends (Sample.env_of (Sample.team true)) 2 1
            {| lw := Sample.no_files; all_documents := [] |}).
  vm_compute. reflexivity.
Defined.

Lemma count_gets_app (t1 t2 : list event) :
  count_gets (t1 ++ t2) = (count_gets t1 + count_gets t2)%nat.
Proof.
  induction t1 as [|e t1 IH]; [done|]. destruct e; simpl; by rewrite ?IH.
Qed.

Section Posts.

Context {V D : Type}.
Variable E : @env V D.

Lemma for_chunks_ok post source title category tags chunks (st : @loop_state V) :
  Py.getitem post (u "url") = Ok source ->
  Py.getitem post (u "full_name") = Ok title ->
  Py.get post (u "category") PNone = Ok category ->
  Py.get post (u "tags") PNone = Ok tags ->
  for_chunks post chunks st
  = (Ok tt,
     {| lw := lw st;
        all_documents :=
          all_documents st
          ++ map (fun c => (c, post_metadata source title category tags))
                 chunks |}).
Proof.
  intros Hs Ht Hc Hg. revert st.
  induction chunks as [|chunk rest IH]; intros st; cbn [for_chunks map].
  { rewrite app_nil_r. by destruct st. }
  unfold mbind, M_bind, of_result, append. rewrite Hs, Ht, Hc, Hg.
  fold (@mbind (M (@loop_state V)) _). rewrite IH. cbn [lw all_documents].
  by rewrite <- app_assoc.
Qed.

(** X5. A post whose detail request is answered without an error status and
    with a string body contributes one pair per chunk of its cleaned body,
    in order, all with the same metadata taken from the listing entry; one
    request is made and no file is touched. *)
Theorem fetch_post_appends post number status_code detail body
    source title category tags chunks (st : @loop_state V) :
  Py.getitem post (u "number") = Ok number ->
  http E (count_gets (trace (lw st))) (PostDetail number)
    = Response status_code (Some detail) ->
  raise_for_status (status_code, Some detail) = Ok tt ->
  Py.get detail (u "body_md") (PStr []) = Ok (PStr body) ->
  simple_text_splitter (clean_markdown body) 500 = Ok chunks ->
  Py.getitem post (u "url") = Ok source ->
  Py.getitem post (u "full_name") = Ok title ->
  Py.get post (u "category") PNone = Ok category ->
  Py.get post (u "tags") PNone = Ok tags ->
  fetch_post E post st
  = (Ok tt,
     {| lw := {| fs := fs (lw st);
                 trace := trace (lw st) ++ [Get (PostDetail number)] |};
        all_documents :=
          all_documents st
          ++ map (fun c => (c, post_metadata source title category tags))
                 chunks |}).
Proof.
  intros Hnumber Hreply Hstatus Hbody Hchunks Hs Ht Hc Hg.
  unfold fetch_post.
  unfold mbind at 1 2 3 4 5 6 7. unfold M_bind, of_result, lift, requests_get.
  rewrite Hnumber, Hreply. cbn [fst snd lw all_documents].
  rewrite Hstatus. unfold response_json. cbn [snd]. rewrite Hbody, Hchunks.
  by rewrite (for_chunks_ok post source title category tags chunks).
Qed.

(** X6. A listing request that gets no answer, a status other than 200, or a
    page without posts ends the fetch loop right there: it was the only
    request of the round, and [all_documents] and the files are as
    before. *)
Theorem listing_ends_loop fuel page (st : @loop_state V) :
  (http E (count_gets (trace (lw st))) (ListPosts page) = NoAnswer
   \/ (exists status_code json,
         http E (count_gets (trace (lw st))) (ListPosts page)
           = Response status_code json /\ status_code <> 200)
   \/ (exists posts_data posts,
         http E (count_gets (trace (lw st))) (ListPosts page)
           = Response 200 (Some posts_data)
         /\ Py.get posts_data (u "posts") (PList []) = Ok posts
         /\ Py.truthy posts = false)) ->
  exists st',
    fetch_loop E (S fuel) page st = Some st'
    /\ all_documents st' = all_documents st
    /\ fs (lw st') = fs (lw st)
    /\ count_gets (trace (lw st')) = S (count_gets (trace (lw st))).
Proof.
  intros Hcases. cbn [fetch_loop]. unfold fetch_page.
  unfold mbind at 1. unfold M_bind at 1. unfold lift at 1, requests_get.
  destruct Hcases as [->|[(status_code & json & -> & Hstatus)
                         |(posts_data & posts & -> & Hposts & Hempty)]].
  - cbn. eexists. split; [done|]. cbn. split; [done|]. split; [done|].
    rewrite <- app_assoc, count_gets_app. cbn. lia.
  - cbn [fst snd]. apply Z.eqb_neq in Hstatus. rewrite Hstatus. cbn [negb].
    unfold mbind, M_bind, of_result, lift, print, emit, response_json.
    cbn [fst snd lw all_documents fs trace].
    destruct json as [body|]; cbn [snd].
    + destruct (Py.get body (u "error") PNone); cbn;
        (eexists; split; [done|]; cbn; split; [done|]; split; [done|]);
        rewrite <- !app_assoc, count_gets_app; cbn; lia.
    + cbn. eexists. split; [done|]. cbn. split; [done|]. split; [done|].
      rewrite <- !app_assoc, count_gets_app. cbn. lia.
  - cbn [fst snd negb]. change (200 =? 200) with true. cbn [negb].
    unfold mbind, M_bind, of_result, response_json. cbn [fst snd].
    rewrite Hposts, Hempty. cbn. eexists. split; [done|]. cbn.
    split; [done|]. split; [done|]. rewrite count_gets_app. cbn. lia.
Qed.

End Posts.

Lemma fetch_post_appends_witness :
  exists md,
    fetch_post (Sample.env_of (Sample.team true)) (Sample.post 1 "first")
      {| lw := Sample.no_files; all_documents := [] |}
    = (Ok tt,
       {| lw := {| fs := ∅; trace := [Get (PostDetail (PInt 1))] |};
          all_documents := [(u "One
some text", md)] |}).
Proof.
  eexists.
  eapply (fetch_post_appends (Sample.env_of (Sample.team true))
            (Sample.post 1 "first") (PInt 1) 200 _ (u "# One
some *text*") _ _ _ _ [u "One
some text"] {| lw := Sample.no_files; all_documents := [] |});
    reflexivity.
Defined.

Lemma listing_ends_loop_witness :
  exists st',
    fetch_loop (Sample.env_of Sample.empty_team) 1 1
      {| lw := Sample.no_files; all_documents := [] |} = Some st'
    /\ all_documents st' = []
    /\ fs (lw st') = ∅
    /\ count_gets (trace (lw st')) = 1%nat.
Proof.
  apply (listing_ends_loop (Sample.env_of Sample.empty_team) 0 1
           {| lw := Sample.no_files; all_documents := [] |}).
  right. right. eexists _, _. split; [reflexivity|]. split; reflexivity.
Defined.

(** ** Corpus fetcher: pagination *)

Lemma listed_app (t1 t2 : list event) : listed (t1 ++ t2) = listed t1 ++ listed t2.
Proof.
  induction t1 as [|e t1 IH]; [done|].
  destruct e as [| [|] | | |]; simpl; by rewrite ?IH.
Qed.

Section Pages.

Context {V D : Type}.
Variable E : @env V D.

Lemma unlisted_refl (w : @world V) : unlisted w w.
Proof. exists []. by rewrite app_nil_r. Qed.

Lemma unlisted_trans (w1 w2 w3 : @world V) :
  unlisted w1 w2 -> unlisted w2 w3 -> unlisted w1 w3.
Proof.
  intros (t1 & H1 & L1) (t2 & H2 & L2). exists (t1 ++ t2).
  by rewrite H2, H1, app_assoc, listed_app, L1, L2.
Qed.

Lemma unlistedL_ret {A} (a : A) : unlistedL (V:=V) (mret a).
Proof. intros st. apply unlisted_refl. Qed.

Lemma unlistedL_of_result {A} (r : result A) : unlistedL (V:=V) (of_result r).
Proof. intros st. apply unlisted_refl. Qed.

Lemma unlistedL_append x : unlistedL (V:=V) (append x).
Proof. intros st. apply unlisted_refl. Qed.

Lemma unlistedL_print m : unlistedL (V:=V) (lift (print m)).
Proof. intros st. by exists [Print m]. Qed.

Lemma unlistedL_detail number :
  unlistedL (lift (requests_get E (PostDetail number))).
Proof.
  intros st. unfold lift, requests_get.
  destruct (http E _ _); by exists [Get (PostDetail number)].
Qed.

Lemma unlistedL_bind {A B} (m : M (@loop_state V) A)
    (f : A -> M (@loop_state V) B) :
  unlistedL m -> (forall a, unlistedL (f a)) -> unlistedL (m ≫= f).
Proof.
  intros Hm Hf st. unfold mbind, M_bind. specialize (Hm st).
  destruct (m st) as [[a|e] st1]; simpl in *; [|done].
  eapply unlisted_trans; [done|apply Hf].
Qed.

Ltac unlisted_steps :=
  repeat first
    [ apply unlistedL_ret | apply unlistedL_of_result | apply unlistedL_append
    | apply unlistedL_print | apply unlistedL_detail
    | apply unlistedL_bind; [|intros ?]
    | match goal with |- unlistedL (if ?b then _ else _) => destruct b end ].

Lemma unlistedL_for_chunks post chunks :
  unlistedL (V:=V) (for_chunks post chunks).
Proof. induction chunks as [|chunk rest IH]; simpl; unlisted_steps. apply IH. Qed.

Lemma unlistedL_fetch_post post : unlistedL (fetch_post E post).
Proof. unfold fetch_post. unlisted_steps. apply unlistedL_for_chunks. Qed.

Lemma unlistedL_for_posts posts : unlistedL (for_posts E posts).
Proof.
  induction posts as [|post rest IH]; simpl; [apply unlistedL_ret|].
  apply unlistedL_bind; [apply unlistedL_fetch_post|intros _; apply IH].
Qed.

Lemma bind_then {A B} (m : M (@loop_state V) A) (f : A -> M (@loop_state V) B) st :
  (forall a, unlistedL (f a)) ->
  unlisted (lw (snd (m st))) (lw (snd ((m ≫= f) st))).
Proof.
  intros Hf. unfold mbind, M_bind.
  destruct (m st) as [[a|e] st1]; simpl; [apply Hf|apply unlisted_refl].
Qed.

(** One round of the loop lists its page once. *)
Lemma fetch_page_listed page (st : @loop_state V) :
  exists t, trace (lw (snd (fetch_page E page st))) = trace (lw st) ++ t
            /\ listed t = [page].
Proof.
  unfold fetch_page.
  match goal with
  | |- context [mbind ?f _] =>
    assert (Hrest : forall response, unlistedL (f response));
      [|destruct (bind_then (lift (requests_get E (ListPosts page))) f st Hrest)
          as (t & Ht & Hl)]
  end.
  { intros response. unlisted_steps. apply unlistedL_for_posts. }
  exists (Get (ListPosts page) :: t). rewrite Ht. split.
  - unfold lift, requests_get.
    destruct (http E _ _); simpl; by rewrite <- app_assoc.
  - simpl. by rewrite Hl.
Qed.

(** X19. The listing requests of the fetch loop are for consecutive pages,
    from the page it starts at, each requested once, and there is at least
    one and at most one per round. *)
Theorem fetch_loop_pages fuel page (st st' : @loop_state V) :
  fetch_loop E fuel page st = Some st' ->
  exists t k,
    trace (lw st') = trace (lw st) ++ t
    /\ listed t = map (fun i => page + Z.of_nat i) (seq 0 k)
    /\ (1 <= k <= fuel)%nat.
Proof.
  revert page st. induction fuel as [|fuel IH]; intros page st; [done|].
  cbn [fetch_loop]. destruct (fetch_page_listed page st) as (t & Ht & Hl).
  destruct (fetch_page E page st) as [[[|]|e] st1]; cbn [snd] in Ht.
  - intros H. apply IH in H as (t' & k & Ht' & Hl' & Hk).
    exists (t ++ t'), (S k). rewrite Ht', Ht, <- app_assoc, listed_app, Hl, Hl'.
    split; [done|]. split; [|lia]. cbn [seq map app].
    rewrite Z.add_0_r. f_equal. rewrite <- seq_shift, map_map.
    apply map_ext. intros i. lia.
  - intros [= <-]. exists t, 1%nat. rewrite Ht, Hl. cbn. rewrite Z.add_0_r.
    split; [done|]. split; [done|lia].
  - intros [= <-]. eexists (t ++ [_]), 1%nat. cbn [lw trace snd lift print emit].
    rewrite Ht, <- app_assoc, listed_app, Hl. cbn. rewrite Z.add_0_r.
    split; [done|]. split; [done|lia].
Qed.

End Pages.

Lemma fetch_loop_pages_witness :
  exists st' t,
    fetch_loop (Sample.env_of (Sample.team true)) 2 1
      {| lw := Sample.no_files; all_documents := [] |} = Some st'
    /\ trace (lw st') = [] ++ t
    /\ listed t = [1].
Proof.
  destruct (fetch_loop (Sample.env_of (Sample.team true)) 2 1
              {| lw := Sample.no_files; all_documents := [] |})
    as [st'|] eqn:Hrun; [|by vm_compute in Hrun].
  destruct (fetch_loop_pages _ _ _ _ _ Hrun) as (t & k & Ht & Hl & Hk).
  exists st', t. split; [done|]. split; [exact Ht|].
  vm_compute in Hrun. injection Hrun as <-. cbn in Ht. subst t.
  reflexivity.
Defined.

(** ** Retriever *)

Section Retrieve.

Context {V D : Type}.
Variable E : @env V D.

Lemma retrieve_rows_rows (g : @rag V) (hits : list (D * Z)) rs :
  retrieve_rows g hits = Ok rs ->
  Forall2 (row_of g) (filter (fun h => 0 <= snd h) hits) rs.
Proof.
  revert rs. induction hits as [|[dist i] hits IH]; intros rs; cbn [retrieve_rows].
  { intros [= <-]. constructor. }
  rewrite filter_cons. cbn [snd].
  destruct (Z.leb_spec 0 i) as [Hi|Hi].
  - rewrite decide_True by done. unfold list_getitem, mbind, result_bind.
    destruct (documents g !! Z.to_nat i) as [ctx|] eqn:Hctx; [|done].
    destruct (metadatas g !! Z.to_nat i) as [md|] eqn:Hmd; [|done].
    destruct (Py.getitem md (u "source")) as [src|] eqn:Hsrc; [|done].
    destruct (retrieve_rows g hits) as [rs'|]; [|done].
    intros [= <-]. constructor; [|by apply IH].
    repeat split; [done|]. eauto.
  - rewrite decide_False by lia. apply IH.
Qed.

(** X7. The results of the retriever are, in order, the hits with a
    non-negative label: each carries the distance of its hit, the entry of
    [documents] at the label and the source of the entry of [metadatas]
    there; and a label beyond the end of [documents] makes it raise. *)
Theorem retrieve_rows_spec (g : @rag V) (hits : list (D * Z)) :
  (forall rs, retrieve_rows g hits = Ok rs ->
     Forall2 (row_of g) (filter (fun h => 0 <= snd h) hits) rs)
  /\ ((exists h, h ∈ hits /\ Z.of_nat (length (documents g)) <= snd h) ->
      exists e, retrieve_rows g hits = Raise e).
Proof.
  split; [intros rs; apply retrieve_rows_rows|].
  intros (h & Hin & Hout).
  induction hits as [|[dist i] hits IH]; [by apply elem_of_nil in Hin|].
  cbn [retrieve_rows]. destruct (Z.leb_spec 0 i) as [Hi|Hi].
  - unfold list_getitem, mbind, result_bind.
    destruct (documents g !! Z.to_nat i) as [ctx|] eqn:Hctx; [|eauto].
    destruct (metadatas g !! Z.to_nat i) as [md|]; [|eauto].
    destruct (Py.getitem md (u "source")); [|eauto].
    apply elem_of_cons in Hin as [->|Hin].
    + apply lookup_lt_Some in Hctx. cbn [snd] in Hout. lia.
    + destruct (IH Hin) as [e ->]. eauto.
  - apply elem_of_cons in Hin as [->|Hin]; [cbn [snd] in Hout; lia|].
    by apply IH.
Qed.

Lemma retrieve_rows_ok (g : @rag V) (hits : list (D * Z)) :
  length (metadatas g) = length (documents g) ->
  Forall (fun md => exists s, Py.getitem md (u "source") = Ok s) (metadatas g) ->
  Forall (fun h => snd h < Z.of_nat (length (documents g))) hits ->
  exists rs, retrieve_rows g hits = Ok rs.
Proof.
  intros Hlen Hsrc. induction 1 as [|[dist i] hits Hi Hhits [rs IH]].
  { by exists []. }
  cbn [retrieve_rows]. cbn [snd] in Hi. rewrite IH.
  destruct (Z.leb_spec 0 i); [|eauto].
  unfold list_getitem, mbind, result_bind.
  destruct (lookup_lt_is_Some_2 (documents g) (Z.to_nat i)) as [ctx ->]; [lia|].
  destruct (lookup_lt_is_Some_2 (metadatas g) (Z.to_nat i)) as [md Hmd]; [lia|].
  rewrite Hmd.
  destruct (proj1 (Forall_lookup _ _) Hsrc _ _ Hmd) as [s ->]. eauto.
Qed.

Lemma build_index_sources docs (w w' : @world V) pairs ix :
  build_index E docs w = (Ok (pairs, ix), w') ->
  Forall fetched_pair docs ->
  Forall (fun p => exists s, Py.getitem (snd p) (u "source") = Ok s) pairs.
Proof.
  destruct docs as [|doc docs].
  - rewrite build_index_empty. destruct (embed E dummy_chunk); [|done].
    intros [= <- _ _] _. repeat constructor. by eexists.
  - rewrite build_index_docs by done. generalize (doc :: docs). clear doc docs.
    intros docs. destruct (mapM _ _); [|done]. cbv zeta.
    destruct (storable _); [|done]. intros [= <- _ _] Hdocs.
    apply Forall_fmap. eapply Forall_impl; [exact Hdocs|].
    intros [c md] [_ (s & t & cat & tg & Hmd)]. cbn in *. subst md. by eexists.
Qed.

(** X8. On a pair that the builder has just built, the retriever does not
    raise once the query is embedded and the search returns labels below
    [ntotal]: it makes the one [encode] call, and every result holds a chunk
    text whose embedding is the vector stored at the label of its hit. *)
Theorem retrieve_on_built_pair fuel (w w' w2 : @world V) pairs ix query top_k v :
  fetch_and_rebuild E fuel w = Some (Ok (pairs, ix), w') ->
  embed E query = Ok v ->
  Forall (fun h => snd h < ntotal ix) (search E ix [v] top_k) ->
  exists rs,
    retrieve E (init_rag (pairs, ix)) query top_k w2
    = (Ok rs, {| fs := fs w2; trace := trace w2 ++ [Encode [query]] |})
    /\ Forall2 (fun h r =>
                  distance r = fst h
                  /\ exists text vec,
                       context r = PStr text
                       /\ xb ix !! Z.to_nat (snd h) = Some vec
                       /\ embed E text = Ok vec)
               (filter (fun h => 0 <= snd h) (search E ix [v] top_k)) rs.
Proof.
  intros Hrun Hq Hhits. unfold fetch_and_rebuild in Hrun.
  destruct (fetch_loop _ _ _ _) as [st|] eqn:Hloop; [|done].
  injection Hrun as Hbuild.
  pose proof (build_index_aligned E _ _ _ _ _ Hbuild) as Hal.
  assert (Hsrc : Forall (fun p => exists s, Py.getitem (snd p) (u "source") = Ok s)
                        pairs).
  { eapply build_index_sources; [exact Hbuild|].
    destruct (fetch_loop_grows E _ _ _ _ Hloop) as (new & Hnew & Hgood).
    by rewrite Hnew. }
  pose proof (Forall2_length _ _ _ Hal) as Hlen.
  set (g := init_rag (pairs, ix)).
  destruct (retrieve_rows_ok g (search E ix [v] top_k)) as [rs Hrs].
  { unfold g, init_rag. cbn. by rewrite !length_map. }
  { unfold g, init_rag. cbn. by apply Forall_fmap. }
  { unfold g, init_rag. cbn. rewrite length_map. unfold ntotal in Hhits.
    by rewrite Hlen. }
  exists rs. split.
  - unfold retrieve. unfold mbind, M_bind, of_result.
    rewrite encode_unfold, mapM_singleton, Hq. cbn [rows].
    fold g. change (rag_index g) with ix. by rewrite Hrs.
  - pose proof (retrieve_rows_rows g _ _ Hrs) as Hrows.
    eapply Forall2_impl; [exact Hrows|].
    intros [dist i] r (Hdist & Hctx & _). split; [done|].
    unfold g, init_rag in Hctx. cbn in Hctx.
    rewrite list_lookup_fmap in Hctx.
    destruct (pairs !! Z.to_nat i) as [[c md]|] eqn:Hpair; [|done].
    cbn in Hctx. assert (Hc : context r = c) by congruence.
    destruct (Forall2_lookup_l _ _ _ _ _ Hal Hpair)
      as (vec & Hvec & text & Htext & Hembed).
    cbn in Htext. subst c. by exists text, vec.
Qed.

End Retrieve.

(** ** Answer synthesizer: the generation path *)

Lemma lstrip_app (x y : str) :
  (forall c t, y = c :: t -> isspace c = false) -> y <> [] ->
  lstrip (x ++ y) = lstrip x ++ y.
Proof.
  intros Hy Hne. induction x as [|a x IH]; cbn [app lstrip].
  - destruct y as [|c t]; [done|]. cbn [lstrip]. by rewrite (Hy c t).
  - by destruct (isspace a).
Qed.

Lemma rstrip_app (a b : str) c :
  isspace c = false -> rstrip ((a ++ [c]) ++ b) = (a ++ [c]) ++ rstrip b.
Proof.
  intros Hc. unfold rstrip. rewrite rev_app_distr, lstrip_app.
  - by rewrite rev_app_distr, rev_involutive.
  - rewrite rev_app_distr. cbn. by intros ? ? [= <- _].
  - rewrite rev_app_distr. done.
Qed.

Lemma prompt_end :
  u "
[/INST]

回答:" = [10%N] ++ END_MARKER ++ ANSWER_LABEL.
Proof. vm_compute. reflexivity. Qed.

(** The prompt ends with the end marker and the answer label. *)
Lemma prompt_tail (contexts question : str) :
  exists pre, build_prompt contexts question
              = pre ++ END_MARKER ++ ANSWER_LABEL.
Proof.
  unfold build_prompt. rewrite prompt_end.
  match goal with
  | |- context [?a ++ contexts ++ ?b ++ question ++ _] => generalize a b
  end.
  intros a b. exists (a ++ contexts ++ b ++ question ++ [10%N]).
  by rewrite <- !app_assoc.
Qed.

Lemma echo_last_marker (pre cont : str) j :
  absent END_MARKER cont ->
  occurs_at (pre ++ END_MARKER ++ ANSWER_LABEL ++ cont) END_MARKER j ->
  (j <= length pre)%nat.
Proof.
  intros Hcont [Hj Hocc].
  destruct (Nat.le_gt_cases j (length pre)) as [|Hgt]; [done|exfalso].
  rewrite drop_app_ge in Hocc by lia.
  remember (j - length pre)%nat as k eqn:Hk.
  assert (0 < k)%nat by lia. clear Hk Hj Hgt.
  destruct k as [|k]; [lia|].
  do 11 (destruct k as [|k]; [by vm_compute in Hocc|]).
  change (drop (S (S (S (S (S (S (S (S (S (S (S (S k))))))))))))
               (END_MARKER ++ ANSWER_LABEL ++ cont))
    with (drop k cont) in Hocc.
  apply startswith_spec in Hocc as [post Hpost].
  apply (Hcont (take k cont) post). by rewrite <- Hpost, take_drop.
Qed.

Section Generate.

Context {V D : Type}.
Variable E : @env V D.

(** X9. When the generation model returns the prompt followed by a
    continuation that holds no end marker, the answer is the label [回答:]
    followed by the continuation without its trailing whitespace, whatever
    the question and the contexts are (end markers inside them do not move
    the cut); the model is called exactly once. *)
Theorem generate_answer_echo question (relevant_docs : list (@retrieved D))
    texts cont (w : @world V) :
  relevant_docs <> [] ->
  mapM context_text relevant_docs = Ok texts ->
  hd [] texts <> dummy_chunk ->
  absent END_MARKER cont ->
  generator E (build_prompt (join (u "
---
") texts) question)
  = Ok (build_prompt (join (u "
---
") texts) question ++ cont) ->
  generate_answer E question relevant_docs w
  = (Ok (u "回答:" ++ rstrip cont),
     {| fs := fs w;
        trace := trace w ++ [Generate (build_prompt (join (u "
---
") texts) question)] |}).
Proof.
  intros Hne Htexts Hfirst Hcont Hgen. unfold generate_answer.
  assert (Hguard : match relevant_docs with
                   | [] => true
                   | doc :: _ => is_dummy (context doc)
                   end = false).
  { destruct relevant_docs as [|doc rest]; [done|].
    cbn [mapM] in Htexts. unfold mbind, result_bind, context_text in Htexts.
    unfold is_dummy. destruct (context doc) as [| | |s| |]; try done.
    destruct (mapM _ rest); [|done]. injection Htexts as <-.
    cbn [hd] in Hfirst. unfold Py.str_eqb. by rewrite bool_decide_eq_false_2. }
  rewrite Hguard. unfold str in *. rewrite Htexts.
  unfold mbind, M_bind, mret, M_ret, of_result.
  unfold call_generator, emit, mbind, M_bind, of_result.
  rewrite Hgen. f_equal. f_equal.
  destruct (prompt_tail (join (u "
---
") texts) question) as [pre ->].
  rewrite <- !app_assoc.
  rewrite extract_answer_after
    by (intros j; by apply echo_last_marker).
  unfold strip.
  change (lstrip (ANSWER_LABEL ++ cont)) with (u "回答:" ++ cont).
  by apply (rstrip_app (u "回答") cont).
Qed.

End Generate.

(** ** Data base *)

Lemma fold_max_ge (rest : list Z) (i : Z) :
  i <= fold_left Z.max rest i
  /\ Forall (fun x => x <= fold_left Z.max rest i) rest.
Proof.
  revert i. induction rest as [|x rest IH]; intros i; cbn [fold_left].
  { split; [lia|constructor]. }
  destruct (IH (Z.max i x)) as [H1 H2]. split; [lia|].
  constructor; [lia|done].
Qed.

Lemma fold_max_le (rest : list Z) (i m : Z) :
  i <= m -> Forall (fun x => x <= m) rest -> fold_left Z.max rest i <= m.
Proof.
  intros Hi Hrest. revert i Hi.
  induction Hrest as [|x rest Hx Hrest IH]; intros i Hi; cbn [fold_left]; [done|].
  apply IH. lia.
Qed.

(** The id that an insert gets: 1 in an empty table, one more than the
    largest id when that is not the largest integer, and in any case an id
    that is not in use if the random choice is not. *)
Lemma next_rowid_spec (rnd : Db.random) (ids : list Z) :
  (ids = [] -> Db.next_rowid rnd ids = 1)
  /\ (forall m, m ∈ ids -> Forall (fun x => x <= m) ids -> m < Db.MAX_ROWID ->
        Db.next_rowid rnd ids = m + 1)
  /\ ((forall l, rnd l ∉ l) -> Db.next_rowid rnd ids ∉ ids).
Proof.
  split; [by intros ->|].
  destruct ids as [|i rest].
  { split; [by intros m Hm; apply elem_of_nil in Hm|]. intros _ H.
    by apply elem_of_nil in H. }
  cbn [Db.next_rowid]. cbv zeta.
  destruct (fold_max_ge rest i) as [H1 H2]. split.
  - intros m Hm Hall Hlt. inversion Hall as [|? ? Him Hrest]; subst.
    pose proof (fold_max_le rest i m Him Hrest) as Hle.
    assert (m <= fold_left Z.max rest i).
    { apply elem_of_cons in Hm as [->|Hm]; [done|].
      by apply (proj1 (Forall_forall _ _) H2). }
    destruct (Z.ltb_spec (fold_left Z.max rest i) Db.MAX_ROWID); lia.
  - intros Hrnd. destruct (Z.ltb_spec (fold_left Z.max rest i) Db.MAX_ROWID);
      [|apply Hrnd].
    intros Hin. apply elem_of_cons in Hin as [Heq|Hin]; [lia|].
    apply (proj1 (Forall_forall _ _) H2) in Hin. lia.
Qed.

Lemma next_rowid_rows {A} (rnd : Db.random) (key : A -> Z) (rows : list A) :
  (rows = [] -> Db.next_rowid rnd (map key rows) = 1)
  /\ (forall r, r ∈ rows -> Forall (fun r' => key r' <= key r) rows ->
        key r < Db.MAX_ROWID -> Db.next_rowid rnd (map key rows) = key r + 1)
  /\ ((forall l, rnd l ∉ l) ->
      Forall (fun r => key r <> Db.next_rowid rnd (map key rows)) rows).
Proof.
  destruct (next_rowid_spec rnd (map key rows)) as (Hnil & Hmax & Hfree).
  split; [|split].
  - intros ->. by apply Hnil.
  - intros r Hr Hall Hlt. apply Hmax; [|by apply Forall_fmap|done].
    by apply list_elem_of_fmap_2.
  - intros Hrnd. apply Forall_forall. intros r Hr Heq.
    apply (Hfree Hrnd). rewrite <- Heq. by apply list_elem_of_fmap_2.
Qed.

Lemma find_app {A} (f : A -> bool) (l1 l2 : list A) :
  find f (l1 ++ l2)
  = match find f l1 with Some x => Some x | None => find f l2 end.
Proof.
  induction l1 as [|x l1 IH]; [done|]. cbn [app find]. by destruct (f x).
Qed.

Lemma find_none_Forall {A} (f : A -> bool) (l : list A) :
  Forall (fun x => f x = false) l -> find f l = None.
Proof. induction 1 as [|x l Hx Hl IH]; [done|]. cbn [find]. by rewrite Hx. Qed.

Lemma str_eqb_eq (a b : str) : Py.str_eqb a b = true <-> a = b.
Proof. unfold Py.str_eqb. apply bool_decide_eq_true. Qed.

Lemma str_eqb_refl (a : str) : Py.str_eqb a a = true.
Proof. by apply str_eqb_eq. Qed.

Lemma existsb_username (name : str) (rows : list Db.user_row) :
  existsb (fun r => Py.str_eqb (Db.username r) name) rows = false
  <-> Forall (fun r => Db.username r <> name) rows.
Proof.
  induction rows as [|r rows IH]; cbn [existsb].
  { split; [constructor|done]. }
  rewrite orb_false_iff, IH, Forall_cons. split; intros [H1 H2]; (split; [|done]).
  - intros Heq. apply str_eqb_eq in Heq. congruence.
  - destruct (Py.str_eqb _ _) eqn:Heq; [|done]. by apply str_eqb_eq in Heq.
Qed.

Lemma testuser_encodable :
  encodable (u "testuser") && encodable (u "password123") = true.
Proof. reflexivity. Qed.

(** What [init_db] comes to. *)
Lemma init_db_unfold (rnd : Db.random) (d : Db.db) :
  Db.init_db rnd d
  = Db.Done
      (let rows := default [] (Db.users d) in
       {| Db.users :=
            Some (if existsb (fun r => Py.str_eqb (Db.username r) (u "testuser"))
                             rows
                  then rows
                  else rows ++ [{| Db.user_id :=
                                     Db.next_rowid rnd (map Db.user_id rows);
                                   Db.username := u "testuser";
                                   Db.password := u "password123" |}]);
          Db.logs := Some (default [] (Db.logs d)) |},
       ["Database initialized."%string]).
Proof.
  destruct d as [[rows|] [lrows|]]; unfold Db.init_db, Db.insert_user;
    rewrite testuser_encodable;
    cbn [Db.users Db.logs Db.create_table default from_option id existsb app
         map negb];
    first [done | by destruct (existsb _ rows)].
Qed.

Lemma init_db_tables (rnd : Db.random) (d : Db.db) :
  exists d', Db.init_db rnd d = Db.Done (d', ["Database initialized."%string])
             /\ exists rows, Db.logs d' = Some rows.
Proof. rewrite init_db_unfold. eexists. split; [done|]. cbn. eauto. Qed.

(** X11. [init_db] never fails: afterwards both tables exist, every row that
    was there is still there, in place, at most one user row was added after
    them, and a second call changes nothing. *)
Theorem init_db_idempotent (rnd : Db.random) (d : Db.db) :
  exists d' added,
    Db.init_db rnd d = Db.Done (d', ["Database initialized."%string])
    /\ Db.users d' = Some (default [] (Db.users d) ++ added)
    /\ (length added <= 1)%nat
    /\ Db.logs d' = Some (default [] (Db.logs d))
    /\ Db.init_db rnd d' = Db.Done (d', ["Database initialized."%string]).
Proof.
  rewrite init_db_unfold. cbv zeta. set (rows := default [] (Db.users d)).
  destruct (existsb _ rows) eqn:Hex.
  - eexists _, []. split; [done|]. cbn [Db.users Db.logs].
    rewrite app_nil_r. split; [done|]. split; [cbn; lia|]. split; [done|].
    rewrite init_db_unfold. cbn [Db.users Db.logs default from_option id].
    by rewrite Hex.
  - eexists _, [_]. split; [done|]. cbn [Db.users Db.logs].
    split; [done|]. split; [cbn; lia|]. split; [done|].
    rewrite init_db_unfold. cbn [Db.users Db.logs default from_option id].
    rewrite existsb_app. cbn [existsb Db.username]. rewrite str_eqb_refl.
    by rewrite orb_true_r.
Qed.

(** X12. After [init_db] on a data base in which nobody is called
    [testuser], the users table has one more row, for [testuser], and
    logging in as [testuser] with [password123] returns the id of that row
    and its name.  The id is 1 in a table that was empty and one more than
    the largest id otherwise, unless that is the largest integer; it is then
    SQLite's random choice, an id not in use if that choice is none.  With
    any other password the answer is 401 if the password can be encoded in
    UTF-8, and a [UnicodeEncodeError] that nothing catches if not. *)
Theorem init_db_then_login (rnd : Db.random) (d d' : Db.db) out :
  Db.init_db rnd d = Db.Done (d', out) ->
  Forall (fun r => Db.username r <> u "testuser") (default [] (Db.users d)) ->
  exists id,
    Db.users d'
    = Some (default [] (Db.users d)
            ++ [{| Db.user_id := id; Db.username := u "testuser";
                   Db.password := u "password123" |}])
    /\ login (u "testuser") (u "password123") d'
       = Returns (PDict [(u "id", PInt id); (u "username", PStr (u "testuser"))])
    /\ (default [] (Db.users d) = [] -> id = 1)
    /\ (forall r, r ∈ default [] (Db.users d) ->
          Forall (fun r' => Db.user_id r' <= Db.user_id r)
                 (default [] (Db.users d)) ->
          Db.user_id r < Db.MAX_ROWID -> id = Db.user_id r + 1)
    /\ ((forall ids, rnd ids ∉ ids) ->
        Forall (fun r => Db.user_id r <> id) (default [] (Db.users d)))
    /\ forall pass, pass <> u "password123" ->
         login (u "testuser") pass d'
         = if encodable pass then HTTPException 401
           else Propagates Db.UnicodeEncodeError.
Proof.
  rewrite init_db_unfold. cbv zeta. set (rows := default [] (Db.users d)).
  intros Hinit Hfree.
  pose proof (proj2 (existsb_username _ _) Hfree) as Hex. rewrite Hex in Hinit.
  injection Hinit as <- _.
  assert (Hfind : forall pass,
    find (fun r => Py.str_eqb (Db.username r) (u "testuser")
                   && Py.str_eqb (Db.password r) pass) rows = None).
  { intros pass. apply find_none_Forall.
    eapply Forall_impl; [exact Hfree|]. intros r Hr.
    destruct (Py.str_eqb (Db.username r) _) eqn:Heq; [|done].
    by apply str_eqb_eq in Heq. }
  destruct (next_rowid_rows rnd Db.user_id rows) as (Hnil & Hmax & Hfresh).
  exists (Db.next_rowid rnd (map Db.user_id rows)).
  split; [done|]. split; [|split; [done|split; [done|split; [done|]]]].
  - unfold login, Db.get_user. cbn [Db.users]. rewrite testuser_encodable.
    cbn [negb]. rewrite find_app, Hfind.
    cbn [find Db.username Db.password Db.user_id].
    by rewrite !str_eqb_refl.
  - intros pass Hpass. unfold login, Db.get_user. cbn [Db.users].
    change (encodable (u "testuser")) with true. cbn [andb].
    destruct (encodable pass); cbn [negb]; [|done].
    rewrite find_app, Hfind.
    cbn [find Db.username Db.password]. rewrite str_eqb_refl. cbn [andb].
    destruct (Py.str_eqb (u "password123") pass) eqn:Heq; [|done].
    apply str_eqb_eq in Heq. congruence.
Qed.

Lemma init_db_then_login_witness :
  exists id,
    login (u "testuser") (u "password123")
      {| Db.users := Some [{| Db.user_id := id; Db.username := u "testuser";
                              Db.password := u "password123" |}];
         Db.logs := Some [] |}
    = Returns (PDict [(u "id", PInt id); (u "username", PStr (u "testuser"))])
    /\ id = 1.
Proof.
  destruct (init_db_then_login Demo.rnd {| Db.users := None; Db.logs := None |}
              {| Db.users := Some [{| Db.user_id := 1;
                                      Db.username := u "testuser";
                                      Db.password := u "password123" |}];
                 Db.logs := Some [] |}
              ["Database initialized."%string])
    as (id & Hrow & Hlogin & Hone & _).
  - reflexivity.
  - constructor.
  - exists id. assert (id = 1) as -> by (by apply Hone). by split.
Defined.

(** X13. [login] on a data base with a users table: a name or a password
    that cannot be encoded in UTF-8 ends in a [UnicodeEncodeError] that
    nothing catches; otherwise the answer is 401 exactly when no row has
    both the name and the password, and what is returned is the id and the
    name of such a row.  Without a users table the error of the data base
    goes through, whatever the name and the password. *)
Theorem login_spec (name pass : str) (d : Db.db) :
  (Db.users d = None -> login name pass d = Propagates Db.OperationalError)
  /\ forall rows, Db.users d = Some rows ->
       (login name pass d = Propagates Db.UnicodeEncodeError
        <-> encodable name && encodable pass = false)
       /\ (login name pass d = HTTPException 401
           <-> encodable name && encodable pass = true
               /\ Forall (fun r => ~ (Db.username r = name
                                      /\ Db.password r = pass)) rows)
       /\ forall v, login name pass d = Returns v ->
            exists r, r ∈ rows /\ Db.username r = name /\ Db.password r = pass
                      /\ v = PDict [(u "id", PInt (Db.user_id r));
                                    (u "username", PStr name)].
Proof.
  unfold login, Db.get_user. split; [by intros ->|]. intros rows ->.
  destruct (encodable name && encodable pass); cbn [negb].
  2: { split; [done|]. split; [|done]. split; [done|]. by intros [? _]. }
  destruct (find _ rows) as [r|] eqn:Hfind.
  - apply find_some in Hfind as [Hin Hmatch].
    apply andb_true_iff in Hmatch as [Hn Hp].
    apply str_eqb_eq in Hn, Hp. split; [done|]. split.
    + split; [done|]. intros [_ Hall].
      apply List.Forall_forall with (x := r) in Hall; [|done]. tauto.
    + intros v [= <-]. exists r. apply list_elem_of_In in Hin. by rewrite Hn.
  - split; [done|]. split; [|done]. split; [|done]. intros _. split; [done|].
    apply List.Forall_forall. intros r Hin [Hn Hp].
    apply (find_none _ _ Hfind) in Hin. subst. by rewrite !str_eqb_refl in Hin.
Qed.

Lemma login_spec_witness :
  login (u "testuser") (u "wrong")
    {| Db.users := Some [{| Db.user_id := 1; Db.username := u "testuser";
                            Db.password := u "password123" |}];
       Db.logs := Some [] |}
  = HTTPException 401
  /\ login (u "testuser") [56832%N]
       {| Db.users := Some [{| Db.user_id := 1; Db.username := u "testuser";
                               Db.password := u "password123" |}];
          Db.logs := Some [] |}
     = Propagates Db.UnicodeEncodeError.
Proof.
  split.
  - destruct (proj2 (login_spec (u "testuser") (u "wrong")
                       {| Db.users := Some [{| Db.user_id := 1;
                                               Db.username := u "testuser";
                                               Db.password := u "password123" |}];
                          Db.logs := Some [] |}) _ eq_refl) as (_ & H401 & _).
    apply H401. split; [reflexivity|].
    constructor; [|constructor]. cbn. intros [_ H]. by vm_compute in H.
  - destruct (proj2 (login_spec (u "testuser") [56832%N]
                       {| Db.users := Some [{| Db.user_id := 1;
                                               Db.username := u "testuser";
                                               Db.password := u "password123" |}];
                          Db.logs := Some [] |}) _ eq_refl) as (Hraise & _).
    apply Hraise. reflexivity.
Defined.

(** X14. [log_interaction] on a data base with a logs table: when the user
    id, the question and the answer can be encoded in UTF-8 it appends one
    row with the clock reading and the four values and leaves everything
    else as it is; the id of the row is 1 in an empty table and one more
    than the largest id otherwise, unless that is the largest integer, and
    then SQLite's random choice, an id not in use if that choice is none.
    When one of the three texts cannot be encoded it fails with
    [UnicodeEncodeError], and without a logs table, which cannot be after
    [init_db], with [OperationalError]. *)
Theorem log_interaction_appends (rnd : Db.random) now uid question ans sources
    (d : Db.db) :
  (forall rows, Db.logs d = Some rows ->
     encodable uid && encodable question && encodable ans = true ->
     exists id,
       Db.log_interaction rnd now uid question ans sources d
       = Db.Done {| Db.users := Db.users d;
                    Db.logs := Some (rows ++ [{| Db.log_id := id;
                                                 Db.timestamp := now;
                                                 Db.log_user_id := uid;
                                                 Db.log_question := question;
                                                 Db.log_answer := ans;
                                                 Db.log_sources := sources |}]) |}
       /\ (rows = [] -> id = 1)
       /\ (forall r, r ∈ rows ->
             Forall (fun r' => Db.log_id r' <= Db.log_id r) rows ->
             Db.log_id r < Db.MAX_ROWID -> id = Db.log_id r + 1)
       /\ ((forall ids, rnd ids ∉ ids) ->
           Forall (fun r => Db.log_id r <> id) rows))
  /\ (forall rows, Db.logs d = Some rows ->
        encodable uid && encodable question && encodable ans = false ->
        Db.log_interaction rnd now uid question ans sources d
        = Db.Fails Db.UnicodeEncodeError)
  /\ (Db.logs d = None ->
      Db.log_interaction rnd now uid question ans sources d
      = Db.Fails Db.OperationalError)
  /\ (forall d0 out, Db.init_db rnd d0 = Db.Done (d, out) ->
        exists rows, Db.logs d = Some rows).
Proof.
  unfold Db.log_interaction. split; [|split; [|split]].
  - intros rows -> ->. cbn [negb].
    exists (Db.next_rowid rnd (map Db.log_id rows)). split; [done|].
    apply next_rowid_rows.
  - by intros rows -> ->.
  - by intros ->.
  - intros d0 out Hinit.
    destruct (init_db_tables rnd d0) as (d' & Hd' & Hlogs).
    rewrite Hd' in Hinit. by injection Hinit as <- _.
Qed.

(** ** End points *)

Section Ask.

Context {V D : Type}.
Variable E : @env V D.

Lemma retrieve_rows_no_data (ix : @index V) (hits : list (D * Z)) :
  Forall (fun h => snd h <= 0) hits ->
  exists rs, retrieve_rows (no_data_rag ix) hits = Ok rs
             /\ Forall (fun r => context r = PStr dummy_chunk) rs.
Proof.
  induction 1 as [|[dist i] hits Hi Hhits (rs & IH & Hrs)].
  { exists []. split; [done|constructor]. }
  cbn [retrieve_rows]. cbn [snd] in Hi. rewrite IH.
  destruct (Z.leb_spec 0 i); [|eauto].
  assert (i = 0) as -> by lia.
  eexists. split; [reflexivity|]. by constructor.
Qed.

Lemma sources_of_no_data (rs : list (@retrieved D)) :
  Forall (fun r => context r = PStr dummy_chunk) rs -> sources_of rs = [].
Proof.
  unfold sources_of. induction 1 as [|r rs Hr Hrs IH]; [done|].
  cbn [List.filter]. rewrite Hr. cbn [is_dummy]. by rewrite str_eqb_refl.
Qed.

Lemma not_found_encodable : encodable NOT_FOUND = true.
Proof. reflexivity. Qed.

(** X15. With the pair of an empty corpus loaded and a logs table in place,
    a question whose embedding succeeds and whose search returns only the
    label 0 or negative labels is answered with the fixed message and no
    sources, and the exchange is logged, when the question and the user id
    can be encoded in UTF-8; when one of them cannot, the answer is an
    [HTTPException] with status 500 and nothing is logged.  In both cases
    the generation model is not called. *)
Theorem rag_ask_no_data (rnd : Db.random) (ix : @index V) question uid now v
    lrows (s : server) :
  embed E question = Ok v ->
  Forall (fun h => snd h <= 0) (search E ix [v] 3) ->
  Db.logs (sdb s) = Some lrows ->
  (encodable uid && encodable question = true ->
   exists id,
     rag_ask E rnd (no_data_rag ix) question uid now s
     = (Returns {| a_question := question; a_answer := NOT_FOUND;
                   a_sources := [] |},
        {| sworld := {| fs := fs (sworld s);
                        trace := trace (sworld s) ++ [Encode [question]] |};
           sdb := {| Db.users := Db.users (sdb s);
                     Db.logs := Some (lrows ++ [{| Db.log_id := id;
                                                  Db.timestamp := now;
                                                  Db.log_user_id := uid;
                                                  Db.log_question := question;
                                                  Db.log_answer := NOT_FOUND;
                                                  Db.log_sources := PList [] |}]) |};
           printed := printed s |}))
  /\ (encodable uid && encodable question = false ->
      rag_ask E rnd (no_data_rag ix) question uid now s
      = (HTTPException 500,
         {| sworld := {| fs := fs (sworld s);
                         trace := trace (sworld s) ++ [Encode [question]] |};
            sdb := sdb s;
            printed := printed s ++ [inr Db.UnicodeEncodeError] |})).
Proof.
  intros Hq Hhits Hlogs.
  destruct (retrieve_rows_no_data ix _ Hhits) as (rs & Hrs & Hdummy).
  assert (Hguard : forall w,
    generate_answer E question rs w = (Ok NOT_FOUND, w)).
  { intros w. unfold generate_answer. destruct Hdummy as [|r rs' Hr _]; [done|].
    rewrite Hr. cbn [is_dummy]. by rewrite str_eqb_refl. }
  split; intros Henc.
  all: unfold rag_ask, retrieve; unfold mbind at 1; unfold M_bind, of_result.
  all: rewrite encode_unfold, mapM_singleton, Hq; cbn [rows].
  all: change (rag_index (no_data_rag ix)) with ix; rewrite Hrs.
  all: rewrite Hguard, (sources_of_no_data rs Hdummy).
  all: unfold Db.log_interaction; rewrite Hlogs, Henc, not_found_encodable.
  - cbn [andb negb]. eauto.
  - done.
Qed.

Lemma source_text (c s : pyval) :
  Py.getitem (PDict [(u "text", c); (u "source", s)]) (u "text") = Ok c.
Proof. reflexivity. Qed.

(** X16. [rag_ask] either returns, and then the logs table has exactly one
    more row, with the question, the answer and the sources of the reply,
    none of which is the no-data text; or it raises an [HTTPException] with
    status 500, prints the error, and leaves the data base as it was. *)
Theorem rag_ask_logs (rnd : Db.random) (g : @rag V) question uid now
    (s s' : server) out :
  rag_ask E rnd g question uid now s = (out, s') ->
  match out with
  | Returns a =>
    a_question a = question
    /\ Forall (fun src => forall v, Py.getitem src (u "text") = Ok v ->
                                    v <> PStr dummy_chunk) (a_sources a)
    /\ printed s' = printed s
    /\ Db.users (sdb s') = Db.users (sdb s)
    /\ exists rows id,
         Db.logs (sdb s) = Some rows
         /\ Db.logs (sdb s')
            = Some (rows ++ [{| Db.log_id := id;
                                Db.timestamp := now;
                                Db.log_user_id := uid;
                                Db.log_question := question;
                                Db.log_answer := a_answer a;
                                Db.log_sources := PList (a_sources a) |}])
  | HTTPException status_code =>
    status_code = 500 /\ sdb s' = sdb s
    /\ exists e, printed s' = printed s ++ [e]
  | Propagates _ => False
  end.
Proof.
  unfold rag_ask.
  destruct (retrieve E g question 3 (sworld s)) as [[docs|e] w].
  2: { intros [= <- <-]. cbn [sdb printed]. eauto. }
  destruct (generate_answer E question docs w) as [[ans|e] w'].
  2: { intros [= <- <-]. cbn [sdb printed]. eauto. }
  unfold Db.log_interaction.
  destruct (Db.logs (sdb s)) as [lrows|] eqn:Hlogs.
  2: { intros [= <- <-]. cbn [sdb printed]. eauto. }
  destruct (negb _).
  { intros [= <- <-]. cbn [sdb printed]. eauto. }
  intros [= <- <-]. cbn [a_question a_answer a_sources printed sdb Db.users Db.logs].
  split; [done|]. split; [|split; [done|split; [done|eauto]]].
  unfold sources_of. apply Forall_fmap, Forall_forall.
  intros doc Hdoc. apply list_elem_of_In, filter_In in Hdoc as [_ Hdoc].
  intros v. rewrite source_text. intros [= <-] Hv.
  rewrite Hv in Hdoc. cbn [is_dummy] in Hdoc. by rewrite str_eqb_refl in Hdoc.
Qed.

End Ask.

Section Generate2.

Context {V D : Type}.
Variable E : @env V D.

Lemma mapM_context_text_fails (docs : list (@retrieved D)) :
  Exists (fun doc => forall s, context doc <> PStr s) docs ->
  mapM context_text docs = Raise TypeError.
Proof.
  induction 1 as [doc rest Hdoc|doc rest Hrest IH]; simpl;
    unfold mbind, result_bind.
  - unfold context_text at 1.
    destruct (context doc) as [| | |s| |]; try done. by destruct (Hdoc s).
  - destruct (context_text doc) as [s|e] eqn:Hdoc.
    2: { unfold context_text in Hdoc. destruct (context doc); by simplify_eq. }
    match goal with
    | |- match ?m with _ => _ end = _ =>
      replace m with (@Raise (list str) TypeError) by (symmetry; exact IH)
    end.
    done.
Qed.

(** X10. When the guard does not fire and some retrieved context is not a
    string, as a cache file can make it, [generate_answer] raises
    [TypeError] before the generation model is called. *)
Theorem generate_answer_bad_context question doc rest (w : @world V) :
  is_dummy (context doc) = false ->
  Exists (fun doc => forall s, context doc <> PStr s) (doc :: rest) ->
  generate_answer E question (doc :: rest) w = (Raise TypeError, w).
Proof.
  intros Hguard Hbad. unfold generate_answer. rewrite Hguard.
  pose proof (mapM_context_text_fails _ Hbad) as Hfail.
  unfold mbind at 1. unfold M_bind, of_result.
  match goal with
  | |- match ?m with _ => _ end = _ =>
    replace m with (@Raise (list str) TypeError) by (symmetry; exact Hfail)
  end.
  done.
Qed.

End Generate2.

Lemma generate_answer_bad_context_witness :
  generate_answer (Demo.env_of []) (u "q")
    [Demo.doc "a"; {| context := PNone; source := PNone; distance := 2 |}]
    Sample.no_files
  = (Raise TypeError, Sample.no_files).
Proof.
  apply (generate_answer_bad_context (Demo.env_of [])).
  - reflexivity.
  - apply Exists_cons_tl, Exists_cons_hd. by intros s.
Defined.

Lemma generate_answer_echo_witness :
  fst (generate_answer (Demo.env_of []) (u "q [/INST] ?") [Demo.doc "ab"]
         Sample.no_files)
  = Ok (u "回答: はい。").
Proof.
  rewrite (generate_answer_echo (Demo.env_of []) (u "q [/INST] ?")
             [Demo.doc "ab"] [u "ab"] (u " はい。 ") Sample.no_files).
  - reflexivity.
  - done.
  - reflexivity.
  - by vm_compute.
  - intros pre post H. apply (f_equal length) in H.
    rewrite !length_app in H.
    change (length (u " はい。 ")) with 5%nat in H.
    change (length END_MARKER) with 7%nat in H. lia.
  - reflexivity.
Defined.

Lemma retrieve_rows_spec_witness :
  exists e,
    retrieve_rows
      {| documents := [PStr (u "a")]; metadatas := [PDict []];
         rag_index := {| d := 1; xb := [1] |} |}
      [(5, -1); (7, 3)] = Raise e.
Proof.
  apply (proj2 (retrieve_rows_spec _ _)).
  exists (7, 3). split; [|cbn; lia]. rewrite !elem_of_cons. auto.
Defined.

Lemma retrieve_on_built_pair_witness :
  match fetch_and_rebuild (Demo.env_of [(1, 1); (4, 0); (9, -1)]) 2
          Sample.no_files with
  | Some (Ok (pairs, ix), _) =>
    exists rs,
      fst (retrieve (Demo.env_of [(1, 1); (4, 0); (9, -1)])
             (init_rag (pairs, ix)) (u "query") 3 Sample.no_files) = Ok rs
      /\ length rs = 2%nat
  | _ => False
  end.
Proof.
  destruct (fetch_and_rebuild _ 2 Sample.no_files)
    as [[[[pairs ix]|e] w']|] eqn:Hrun.
  - destruct (retrieve_on_built_pair (Demo.env_of [(1, 1); (4, 0); (9, -1)]) 2
                Sample.no_files w' Sample.no_files pairs ix (u "query") 3 5)
      as (rs & Hrs & Hrows).
    + exact Hrun.
    + reflexivity.
    + vm_compute in Hrun. injection Hrun as <- <- _.
      repeat constructor.
    + exists rs. rewrite Hrs. split; [done|].
      apply Forall2_length in Hrows. by rewrite <- Hrows.
  - vm_compute in Hrun. discriminate Hrun.
  - vm_compute in Hrun. discriminate Hrun.
Defined.

Lemma log_interaction_appends_witness :
  (exists id,
     Db.log_interaction Demo.rnd (inject_Z 5) (u "1") (u "q") (u "a") (PList [])
       {| Db.users := Some []; Db.logs := Some [] |}
     = Db.Done {| Db.users := Some [];
                  Db.logs := Some [{| Db.log_id := id;
                                      Db.timestamp := inject_Z 5;
                                      Db.log_user_id := u "1";
                                      Db.log_question := u "q";
                                      Db.log_answer := u "a";
                                      Db.log_sources := PList [] |}] |}
     /\ id = 1)
  /\ Db.log_interaction Demo.rnd (inject_Z 5) (u "1") [55296%N] (u "a")
       (PList []) {| Db.users := Some []; Db.logs := Some [] |}
     = Db.Fails Db.UnicodeEncodeError.
Proof.
  split.
  - destruct (proj1 (log_interaction_appends Demo.rnd (inject_Z 5) (u "1")
                       (u "q") (u "a") (PList [])
                       {| Db.users := Some []; Db.logs := Some [] |})
                    [] eq_refl eq_refl) as (id & Hlog & Hone & _).
    exists id. split; [exact Hlog|by apply Hone].
  - apply (proj1 (proj2 (log_interaction_appends Demo.rnd (inject_Z 5) (u "1")
                           [55296%N] (u "a") (PList [])
                           {| Db.users := Some []; Db.logs := Some [] |}))
             [] eq_refl eq_refl).
Defined.

Lemma rag_ask_no_data_witness :
  fst (rag_ask (Demo.env_of [(0, 0); (0, -1); (0, -1)]) Demo.rnd
         (no_data_rag {| d := 1; xb := [18] |}) (u "anything") (u "1")
         (inject_Z 5) Demo.fresh)
  = Returns {| a_question := u "anything"; a_answer := NOT_FOUND;
               a_sources := [] |}
  /\ fst (rag_ask (Demo.env_of [(0, 0); (0, -1); (0, -1)]) Demo.rnd
            (no_data_rag {| d := 1; xb := [18] |}) (u "anything") [57343%N]
            (inject_Z 5) Demo.fresh)
     = HTTPException 500.
Proof.
  split.
  - destruct (proj1 (rag_ask_no_data (Demo.env_of [(0, 0); (0, -1); (0, -1)])
                       Demo.rnd {| d := 1; xb := [18] |} (u "anything") (u "1")
                       (inject_Z 5) 8 [] Demo.fresh eq_refl
                       ltac:(repeat constructor; cbn; lia) eq_refl) eq_refl)
      as [id ->].
    reflexivity.
  - rewrite (proj2 (rag_ask_no_data (Demo.env_of [(0, 0); (0, -1); (0, -1)])
                      Demo.rnd {| d := 1; xb := [18] |} (u "anything")
                      [57343%N] (inject_Z 5) 8 [] Demo.fresh eq_refl
                      ltac:(repeat constructor; cbn; lia) eq_refl) eq_refl).
    reflexivity.
Defined.

Lemma rag_ask_logs_witness :
  exists a s',
    rag_ask (Demo.env_of [(4, 0)]) Demo.rnd
      (init_rag ([(PStr (u "ab"), PDict [(u "source", PStr (u "s"))])],
                 {| d := 1; xb := [2] |}))
      (u "q") (u "1") (inject_Z 5) Demo.fresh = (Returns a, s')
    /\ a_question a = u "q"
    /\ printed s' = [].
Proof.
  destruct (rag_ask (Demo.env_of [(4, 0)]) Demo.rnd _ (u "q") (u "1")
              (inject_Z 5) Demo.fresh) as [out s'] eqn:Hrun.
  pose proof (rag_ask_logs _ _ _ _ _ _ _ _ _ Hrun) as Hlogs.
  destruct out as [a|code|e].
  - exists a, s'. split; [done|]. destruct Hlogs as (Hq & _ & Hp & _). done.
  - vm_compute in Hrun. discriminate Hrun.
  - done.
Defined.
